(** * Adaptive LSB steganography codec: a shallow embedding of [main.py]

    The development follows the layout of the program: bit I/O, the
    redundancy decoder, the inner-payload parser, the edge-depth map, the
    keyed traversal, the embed / extract engine, the fidelity metrics and
    the steganalysis scorer.  Library calls are either written out from
    their documented behaviour (NumPy array operations, the OpenCV gray
    conversion and Laplacian) or taken as interfaces (SHA-256, the NumPy
    generator, zlib, the UTF-8 decoder). *)

From Stdlib Require Import ZArith List Lia String QArith Reals Lra.
From stdpp Require Import base list numbers.

Local Open Scope Z_scope.
Local Open Scope nat_scope.

(** ** Exceptions and results *)

(** The Python exceptions the codec can raise. *)
Inductive exn : Type :=
| ValueError (msg : string)
| IndexError
| ZlibError.

Inductive result (A : Type) : Type :=
| Ok (a : A)
| Raise (e : exn).
Arguments Ok {A} a.
Arguments Raise {A} e.

#[global] Instance result_ret : MRet result := fun A a => Ok a.

#[global] Instance result_bind : MBind result := fun A B k r =>
  match r with
  | Ok a => k a
  | Raise e => Raise e
  end.

(** One iteration of a loop body: fall through to the next iteration,
    leave the function through [return], or raise. *)
Inductive step (S R : Type) : Type :=
| Next (s : S)
| Return (r : R)
| Fail (e : exn).
Arguments Next {S R} s.
Arguments Return {S R} r.
Arguments Fail {S R} e.

(** [for x in xs: body], threading the loop state. *)
Fixpoint for_each {A S R} (xs : list A) (body : A -> S -> step S R) (s : S)
  : step S R :=
  match xs with
  | [] => Next s
  | x :: xs' =>
      match body x s with
      | Next s' => for_each xs' body s'
      | Return r => Return r
      | Fail e => Fail e
      end
  end.

(** ** Constants *)

Definition REDUNDANCY : nat := 3.

(** [HEADER_LEN = struct.calcsize(">4sI16s12s")] *)
Definition HEADER_LEN : nat := 4 + 4 + 16 + 12.

(** ** Bit I/O (NumPy helpers) *)

(** A bit array is a [uint8] array whose entries are 0 or 1. *)
Definition is_bit (b : Z) : Prop := b = 0%Z \/ b = 1%Z.

Definition is_byte (b : Z) : Prop := (0 <= b < 256)%Z.

(** Storing into a [uint8] array keeps the low eight bits. *)
Definition to_uint8 (v : Z) : Z := (v mod 256)%Z.

(** [np.unpackbits] on one byte: eight bits, most significant first. *)
Definition unpackbits8 (v : Z) : list Z :=
  map (fun k => Z.b2z (Z.testbit v (Z.of_nat (7 - k)))) (seq 0 8).

(** [np.unpackbits(np.frombuffer(data, dtype=np.uint8))] *)
Definition bits_from_bytes (data : list Z) : list Z :=
  flat_map unpackbits8 data.

(** [value = 0; for bit in bits: value = (value << 1) | int(bit)] *)
Definition pack_msb_first (bits : list Z) : Z :=
  fold_left (fun value bit => Z.lor (Z.shiftl value 1) bit) bits 0%Z.

(** One byte of [np.packbits]: eight bits, most significant first. *)
Definition packbits8 (bits : list Z) : Z := pack_msb_first bits.

Fixpoint packbits (n : nat) (bits : list Z) : list Z :=
  match n with
  | O => []
  | S n' => packbits8 (take 8 bits) :: packbits n' (drop 8 bits)
  end.

Definition bytes_from_bits (bits : list Z) : result (list Z) :=
  if negb (length bits mod 8 =? 0)
  then Raise (ValueError "Bit length must be multiple of 8.")
  else Ok (packbits (length bits / 8) bits).

(** [np.repeat(bits, n)]: every entry [n] times in a row. *)
Fixpoint np_repeat (bits : list Z) (n : nat) : list Z :=
  match bits with
  | [] => []
  | b :: bits' => replicate n b ++ np_repeat bits' n
  end.

(** [a.reshape(-1, c)] on an array whose length is a multiple of [c]:
    [k] consecutive rows of [c] entries. *)
Fixpoint rows (k c : nat) (a : list Z) : list (list Z) :=
  match k with
  | O => []
  | S k' => take c a :: rows k' c (drop c a)
  end.

Definition reshape_rows (c : nat) (a : list Z) : list (list Z) :=
  rows (length a / c) c a.

(** [np.sum] of a row. *)
Definition np_sum (a : list Z) : Z := foldr Z.add 0%Z a.

(** ** Redundancy decoder *)

Definition decode_redundancy (raw_bits : list Z) : list Z :=
  let raw_bits :=
    if negb (length raw_bits mod REDUNDANCY =? 0)
    then take (length raw_bits - length raw_bits mod REDUNDANCY) raw_bits
    else raw_bits in
  let blocks := reshape_rows REDUNDANCY raw_bits in
  let votes := map np_sum blocks in
  map (fun v => if (Z.of_nat (REDUNDANCY / 2 + 1) <=? v)%Z then 1%Z else 0%Z)
      votes.

(** Python slices [a[i:j]] and [a[-n:]]. *)
Definition slice {A} (a : list A) (i j : nat) : list A := take (j - i) (drop i a).

Definition last_n {A} (n : nat) (a : list A) : list A :=
  if n =? 0 then a else drop (length a - n) a.

(** NumPy slice assignment [a[i:j] = v]: [v] has the length of the slice,
    or is a single entry that is broadcast over it. *)
Definition slice_assign (a : list Z) (i j : nat) (v : list Z) : result (list Z) :=
  let i' := i `min` length a in
  let j' := i' `max` (j `min` length a) in
  let n := j' - i' in
  if length v =? n then Ok (take i' a ++ v ++ drop j' a)
  else if length v =? 1 then Ok (take i' a ++ replicate n (hd 0%Z v) ++ drop j' a)
  else Raise (ValueError "could not broadcast input array").

(** [int.from_bytes(b, "big", signed=False)] *)
Definition int_from_bytes_big (b : list Z) : Z :=
  fold_left (fun acc x => (acc * 256 + x)%Z) b 0%Z.

(** [s.encode("utf-8")]: a [string] is kept as its UTF-8 byte sequence. *)
Definition encode_utf8 (s : string) : list Z :=
  map (fun c => Z.of_N (Ascii.N_of_ascii c)) (list_ascii_of_string s).

(** ** Library interfaces *)

(** [hashlib.sha256(data).digest()] *)
Class Hashlib := { sha256 : list Z -> list Z }.

(** [np.random.default_rng(seed).shuffle(order)], as the shuffled array. *)
Class NumpyRandom := { rng_shuffle : Z -> list nat -> list nat }.

(** [zlib.decompress], [None] when it raises [zlib.error];
    [bytes.decode("utf-8", errors="replace")], which never raises. *)
Class Codecs := {
  zlib_decompress : list Z -> option (list Z);
  utf8_decode_replace : list Z -> string
}.

(** The generator returns a rearrangement of the array it was given. *)
Definition shuffle_permutes `{NumpyRandom} : Prop :=
  forall (seed : Z) (order : list nat), Permutation (rng_shuffle seed order) order.

(** ** Damaged redundancy streams *)

(** The source bit of index [i] owns the raw positions [3i .. 3i+2];
    [flips s copies] counts the copies that differ from the source bit. *)
Definition copies_of (raw : list Z) (i : nat) : list Z := take 3 (drop (3 * i) raw).

Definition flips (s : Z) (copies : list Z) : nat :=
  length (filter (fun c => c <> s) copies).

Definition at_most_one_flip (b raw : list Z) : Prop :=
  length raw = 3 * length b /\
  Forall is_bit raw /\
  forall i s, b !! i = Some s -> flips s (copies_of raw i) <= 1.

(** ** Payload wrapper *)

(** [struct.unpack(">32sH", header)] on a 34-byte header. *)
Definition unpack_32sH (header : list Z) : list Z * nat :=
  (take 32 header, Z.to_nat (int_from_bytes_big (drop 32 header))).

Definition parse_inner_payload `{Codecs} (payload : list Z)
  : result (list Z * string * list Z) :=
  if length payload <? 34 then Raise (ValueError "Payload too small.")
  else
    let '(data_hash, name_len) := unpack_32sH (take 34 payload) in
    let name_start := 34 in
    let name_end := name_start + name_len in
    if length payload <? name_end
    then Raise (ValueError "Invalid payload name length.")
    else
      let name := utf8_decode_replace (slice payload name_start name_end) in
      let compressed := drop name_end payload in
      match zlib_decompress compressed with
      | Some data => Ok (data_hash, name, data)
      | None => Raise ZlibError
      end.

(** ** Images *)

(** An [h x w x 3] array of [uint8], stored row-major. *)
Record image : Type := {
  height : nat;
  width : nat;
  pixels : list Z
}.

Definition wf_image (arr : image) : Prop :=
  0 < height arr /\ 0 < width arr /\
  length (pixels arr) = height arr * width arr * 3 /\
  Forall is_byte (pixels arr).

(** [flat[idx, ch]] for [flat = arr.reshape(-1, 3)] *)
Definition channel_at (flat : list Z) (idx ch : nat) : option Z :=
  flat !! (idx * 3 + ch).

(** ** Edge-depth map *)

(** [cv2.cvtColor(arr, cv2.COLOR_RGB2GRAY)] on 8-bit data: the fixed-point
    luma with 15 fractional bits, rounded to nearest. *)
Definition gray_of_rgb (r g b : Z) : Z :=
  Z.shiftr (r * 9798 + g * 19235 + b * 3735 + 16384) 15.

Fixpoint cvtColor_RGB2GRAY (flat : list Z) : list Z :=
  match flat with
  | r :: g :: b :: flat' => gray_of_rgb r g b :: cvtColor_RGB2GRAY flat'
  | _ => []
  end.

(** [cv2.BORDER_REFLECT_101], the default border: [gfedcb|abcdefgh|gfedcba]. *)
Definition reflect_101 (len : nat) (p : Z) : nat :=
  if len =? 1 then 0
  else if (p <? 0)%Z then Z.to_nat (- p)
  else if (Z.of_nat len <=? p)%Z then Z.to_nat (2 * Z.of_nat len - 2 - p)
  else Z.to_nat p.

Definition gray_at (h w : nat) (gray : list Z) (y x : Z) : Z :=
  nth (reflect_101 h y * w + reflect_101 w x) gray 0%Z.

(** [cv2.Laplacian(gray, cv2.CV_64F)] with the default aperture
    [ksize = 1]: the kernel [[0 1 0] [1 -4 1] [0 1 0]].  The results are
    integers, which [CV_64F] holds exactly. *)
Definition Laplacian (h w : nat) (gray : list Z) : list Z :=
  map (fun i =>
         let y := Z.of_nat (i / w) in
         let x := Z.of_nat (i mod w) in
         (gray_at h w gray (y - 1) x + gray_at h w gray (y + 1) x
          + gray_at h w gray y (x - 1) + gray_at h w gray y (x + 1)
          - 4 * gray_at h w gray y x)%Z)
      (seq 0 (h * w)).

(** [mag.max()] *)
Definition np_max (a : list Z) : Z :=
  match a with
  | [] => 0%Z
  | x :: a' => fold_left Z.max a' x
  end.

(** [np.where(norm > 0.25, 2, 1)] at one pixel, the quotient
    [mag / (max_val + 1e-6)] taken in exact rationals. *)
Definition norm_of (max_val mag : Z) : Q :=
  inject_Z mag / (inject_Z max_val + (1 # 1000000)).

Definition depth_of_norm (norm : Q) : Z :=
  if negb (Qle_bool norm (1 # 4)) then 2%Z else 1%Z.

(** The array [norm] of [compute_edge_depth_map]. *)
Definition edge_norm (arr : image) : list Q :=
  let gray := cvtColor_RGB2GRAY (pixels arr) in
  let edges := Laplacian (height arr) (width arr) gray in
  let mag := map Z.abs edges in
  let max_val := if length mag =? 0 then 0%Z else np_max mag in
  map (norm_of max_val) mag.

Definition compute_edge_depth_map (arr : image) : list Z :=
  let norm := edge_norm arr in
  map depth_of_norm norm.

(** ** Keyed traversal *)

Definition seed_from_key `{Hashlib} (passphrase : string) : Z :=
  let digest := sha256 (encode_utf8 passphrase) in
  int_from_bytes_big (take 8 digest).

(** [order = np.arange(h * w); rng.shuffle(order)] *)
Definition traversal_order `{Hashlib} `{NumpyRandom} (h w : nat) (passphrase : string)
  : list nat :=
  rng_shuffle (seed_from_key passphrase) (seq 0 (h * w)).

(** ** Embed / extract engine *)

(** The body of [for ch in range(3)] in [embed_bits]; the loop state is
    the working copy [flat] and the cursor [bit_idx].  The right-hand side
    [(flat[idx, ch] & ~mask) | value] is evaluated on signed integers
    ([~mask] is negative) and stored back as [uint8]. *)
Definition embed_channel (encoded_bits : list Z) (depth : Z) (idx ch : nat)
    (st : list Z * nat) : step (list Z * nat) (list Z) :=
  let '(flat, bit_idx) := st in
  if length encoded_bits <=? bit_idx then Return flat
  else
    let take_ := Z.to_nat (Z.min depth (Z.of_nat (length encoded_bits - bit_idx))) in
    let bit_chunk := slice encoded_bits bit_idx (bit_idx + take_) in
    let bit_idx := bit_idx + take_ in
    let value := pack_msb_first bit_chunk in
    let mask := (Z.shiftl 1 (Z.of_nat take_) - 1)%Z in
    match channel_at flat idx ch with
    | None => Fail IndexError
    | Some x =>
        Next (<[idx * 3 + ch := to_uint8 (Z.lor (Z.land x (Z.lnot mask)) value)]> flat,
              bit_idx)
    end.

(** The body of [for idx in order] in [embed_bits]. *)
Definition embed_pixel (depth_map encoded_bits : list Z) (idx : nat)
    (st : list Z * nat) : step (list Z * nat) (list Z) :=
  match depth_map !! idx with
  | None => Fail IndexError
  | Some depth =>
      if (depth <=? 0)%Z then Next st
      else for_each (seq 0 3) (embed_channel encoded_bits depth idx) st
  end.

Definition embed_bits `{Hashlib} `{NumpyRandom} (arr : image) (bits : list Z)
    (passphrase : string) : result image :=
  let h := height arr in
  let w := width arr in
  let depth_map := compute_edge_depth_map arr in
  let capacity_bits := (np_sum depth_map * 3)%Z in
  let encoded_bits := np_repeat bits REDUNDANCY in
  if (capacity_bits <? Z.of_nat (length encoded_bits))%Z
  then Raise (ValueError "Payload too large for this image.")
  else
    let flat := pixels arr in
    let order := traversal_order h w passphrase in
    match for_each order (embed_pixel depth_map encoded_bits) (flat, 0) with
    | Next (flat, _) | Return flat => Ok {| height := h; width := w; pixels := flat |}
    | Fail e => Raise e
    end.

(** The body of [for ch in range(3)] in [extract_bits]; the loop state is
    the buffer [raw_bits] and the cursor [bit_idx]. *)
Definition extract_channel (flat : list Z) (depth : Z) (idx ch : nat)
    (st : list Z * nat) : step (list Z * nat) (list Z) :=
  let '(raw_bits, bit_idx) := st in
  if length raw_bits <=? bit_idx then Return (decode_redundancy raw_bits)
  else
    let take_ := Z.to_nat (Z.min depth (Z.of_nat (length raw_bits - bit_idx))) in
    let mask := (Z.shiftl 1 (Z.of_nat take_) - 1)%Z in
    match channel_at flat idx ch with
    | None => Fail IndexError
    | Some x =>
        let value := Z.land x mask in
        let bits := last_n take_ (unpackbits8 value) in
        match slice_assign raw_bits bit_idx (bit_idx + take_) bits with
        | Raise e => Fail e
        | Ok raw_bits => Next (raw_bits, bit_idx + take_)
        end
    end.

Definition extract_pixel (depth_map flat : list Z) (idx : nat)
    (st : list Z * nat) : step (list Z * nat) (list Z) :=
  match depth_map !! idx with
  | None => Fail IndexError
  | Some depth =>
      if (depth <=? 0)%Z then Next st
      else for_each (seq 0 3) (extract_channel flat depth idx) st
  end.

(** The buffer [raw_bits] as [extract_bits] leaves it, before the vote. *)
Definition extract_raw `{Hashlib} `{NumpyRandom} (arr : image) (total_bits : nat)
    (passphrase : string) : step (list Z * nat) (list Z) :=
  let h := height arr in
  let w := width arr in
  let depth_map := compute_edge_depth_map arr in
  let flat := pixels arr in
  let order := traversal_order h w passphrase in
  let raw_bits := replicate (total_bits * REDUNDANCY) 0%Z in
  for_each order (extract_pixel depth_map flat) (raw_bits, 0).

Definition extract_bits `{Hashlib} `{NumpyRandom} (arr : image) (total_bits : nat)
    (passphrase : string) : result (list Z) :=
  match extract_raw arr total_bits passphrase with
  | Next (raw_bits, _) => Ok (decode_redundancy raw_bits)
  | Return bits => Ok bits
  | Fail e => Raise e
  end.

(** ** Fidelity metrics *)

(** [psnr] is [inf] when the mean squared error is zero, and
    [20 * log10(255 / sqrt(mse))] otherwise; the logarithm is kept symbolic. *)
Inductive psnr_value : Type :=
| PsnrInf
| PsnrDecibel (mse : Q).

Record Metrics : Type := {
  mse : Q;
  psnr : psnr_value;
  capacity_bytes : nat;
  used_bytes : nat
}.

(** [np.mean(np.square(original - stego))], in exact rationals. *)
Definition mean_square_diff (original stego : list Z) : Q :=
  let sq := zip_with (fun o s => ((o - s) * (o - s))%Z) original stego in
  inject_Z (np_sum sq) / inject_Z (Z.of_nat (length sq)).

Definition compute_metrics (original stego : image) (used_bits : nat) : Metrics :=
  let mse := mean_square_diff (pixels original) (pixels stego) in
  let psnr := if Qeq_bool mse 0 then PsnrInf else PsnrDecibel mse in
  let depth_map := compute_edge_depth_map original in
  let capacity_bits := Z.to_nat (np_sum depth_map * 3) in
  let effective_bits := capacity_bits / REDUNDANCY in
  let capacity_bytes := effective_bits / 8 in
  let used_bytes := used_bits / 8 in
  {| mse := mse; psnr := psnr; capacity_bytes := capacity_bytes; used_bytes := used_bytes |}.

(** The tail of the [/api/embed] handler, from the framed [payload]
    (header and ciphertext) on: the bits, the stego array, the metrics. *)
Definition embed `{Hashlib} `{NumpyRandom} (arr : image) (payload : list Z)
    (key : string) : result (image * Metrics) :=
  let bits := bits_from_bytes payload in
  stego ← embed_bits arr bits key;
  let metrics := compute_metrics arr stego (length bits) in
  mret (stego, metrics).

(** [frame depth_map flat0 flat]: the working copy [flat] holds bytes and
    agrees with the original [flat0] on every bit of every channel from
    position [depth_map[pixel]] upwards. *)
Definition frame (depth_map flat0 flat : list Z) : Prop :=
  forall idx ch depth x y,
    ch < 3 -> depth_map !! idx = Some depth ->
    channel_at flat0 idx ch = Some x -> channel_at flat idx ch = Some y ->
    is_byte y /\ Z.shiftr y depth = Z.shiftr x depth.

(** The loop invariant of [embed_bits] over an image of [n] pixels: the
    working copy keeps its shape and, when the stream holds bits, stays
    within the frame of the cover. *)
Definition embed_inv (n : nat) (depth_map flat0 encoded_bits : list Z)
    (flat : list Z) : Prop :=
  length flat = n * 3 /\
  (Forall is_bit encoded_bits -> frame depth_map flat0 flat).

(** The loop invariant of [extract_bits] for a buffer of [total] raw bits:
    the buffer keeps its length and is still zero from the cursor on. *)
Definition extract_inv (total : nat) (st : list Z * nat) : Prop :=
  length st.1 = total /\ drop st.2 st.1 = replicate (total - st.2) 0%Z.

(** What [extract_bits] may return: the vote over a full buffer that the
    pixels visited so far could supply within [budget] raw bits. *)
Definition extract_post (total budget : nat) (bits : list Z) : Prop :=
  exists raw_bits, bits = decode_redundancy raw_bits /\
                   length raw_bits = total /\ total <= budget.

(** Raw bits that a pixel of the given depth supplies: [depth] per channel. *)
Definition pixel_cost (depth_map : list Z) (idx : nat) : nat :=
  3 * Z.to_nat (match depth_map !! idx with Some depth => depth | None => 0%Z end).

(** ** The traversal as a list of slots *)

(** A slot is one visit of the engine: pixel, channel, depth.  The nested
    loops of [embed_bits] and [extract_bits] visit the slots of the pixels
    of the traversal one after the other. *)
Definition slot : Type := nat * nat * Z.

Definition slot_pos (s : slot) : nat := s.1.1 * 3 + s.1.2.
Definition slot_depth (s : slot) : nat := Z.to_nat s.2.

Definition pixel_slots (depth_map : list Z) (idx : nat) : list slot :=
  match depth_map !! idx with
  | Some depth => map (fun ch => (idx, ch, depth)) (seq 0 3)
  | None => []
  end.

Definition embed_slot (encoded_bits : list Z) (s : slot) (st : list Z * nat)
  : step (list Z * nat) (list Z) :=
  embed_channel encoded_bits s.2 s.1.1 s.1.2 st.

Definition extract_slot (flat : list Z) (s : slot) (st : list Z * nat)
  : step (list Z * nat) (list Z) :=
  extract_channel flat s.2 s.1.1 s.1.2 st.

(** What extraction over the same slots must produce for a given outcome
    of embedding: the same kind of exit, with the whole stream in the
    buffer. *)
Definition mirrors (encoded_bits : list Z)
    (embedded : step (list Z * nat) (list Z))
    (extracted : step (list Z * nat) (list Z)) : Prop :=
  match embedded with
  | Next (_, bit_idx) => extracted = Next (encoded_bits, bit_idx)
  | Return _ => extracted = Return (decode_redundancy encoded_bits)
  | Fail _ => True
  end.

(** The array an embedding outcome carries, if any. *)
Definition embedded_flat (embedded : step (list Z * nat) (list Z)) : option (list Z) :=
  match embedded with
  | Next (flat, _) => Some flat
  | Return flat => Some flat
  | Fail _ => None
  end.

(** The number of bits one visit moves, [take] in the source, and the
    byte [embed_bits] stores over the channel value [x]. *)
Definition chunk_size (total : nat) (depth : Z) (bit_idx : nat) : nat :=
  Z.to_nat (Z.min depth (Z.of_nat (total - bit_idx))).

Definition stored_byte (encoded_bits : list Z) (depth : Z) (bit_idx : nat) (x : Z) : Z :=
  let take_ := chunk_size (length encoded_bits) depth bit_idx in
  let value := pack_msb_first (slice encoded_bits bit_idx (bit_idx + take_)) in
  let mask := (Z.shiftl 1 (Z.of_nat take_) - 1)%Z in
  to_uint8 (Z.lor (Z.land x (Z.lnot mask)) value).

(** The error kinds of the specification, as the exceptions that carry them. *)
Definition PayloadMalformed (e : exn) : Prop :=
  e = ValueError "Payload too small." \/ e = ValueError "Invalid payload name length.".
Definition DecompressError : exn := ZlibError.
Definition CapacityExceeded : exn := ValueError "Payload too large for this image.".

(** The name length field of an inner payload, bytes 32 and 33. *)
Definition name_len_of (payload : list Z) : nat := snd (unpack_32sH (take 34 payload)).

(** [ceil(n / 8)] *)
Definition ceil_div8 (n : nat) : nat := (n + 7) / 8.

(** ** Sample instances and inputs *)

(** Stand-ins for the libraries, used to run the definitions: a digest of
    32 zero bytes, a generator that leaves the order as it is, a
    decompressor that accepts only the empty stream and a decoder that
    reads bytes as characters. *)
Definition sample_hashlib : Hashlib := {| sha256 := fun _ => replicate 32 0%Z |}.
Definition sample_rng : NumpyRandom := {| rng_shuffle := fun _ order => order |}.
Definition sample_codecs : Codecs :=
  {| zlib_decompress := fun c => match c with [] => Some [] | _ => None end;
     utf8_decode_replace := fun b =>
       string_of_list_ascii (map (fun x => Ascii.ascii_of_N (Z.to_N x)) b) |}.

(** A uniform [h x w] image. *)
Definition solid (h w : nat) (v : Z) : image :=
  {| height := h; width := w; pixels := replicate (h * w * 3) v |}.

(** The uniform cover [solid 4 4 0] after the bits [1; 0] went in along a
    traversal that starts at pixel [i]: the three channels of pixel [i]
    hold the three copies of the 1, the copies of the 0 change nothing. *)
Definition marked_flat (i : nat) : list Z :=
  <[i * 3 + 2 := 1%Z]> (<[i * 3 + 1 := 1%Z]> (<[i * 3 := 1%Z]> (replicate 48 0%Z))).

Definition marked (i : nat) : image :=
  {| height := 4; width := 4; pixels := marked_flat i |}.

(** ** Floating point *)

(** The [float64] values of NumPy: a finite number, an infinity with its
    sign, or NaN.  Finite arithmetic is exact (no rounding, no signed
    zero); the special values follow IEEE 754. *)
Inductive float64 : Type :=
| Finite (x : R)
| Infinity (negative : bool)
| NaN.

Definition is_negative (x : R) : bool := if Rlt_dec x 0 then true else false.

Definition fadd (a b : float64) : float64 :=
  match a, b with
  | NaN, _ | _, NaN => NaN
  | Infinity s, Infinity t => if Bool.eqb s t then Infinity s else NaN
  | Infinity s, Finite _ | Finite _, Infinity s => Infinity s
  | Finite x, Finite y => Finite (x + y)
  end.

Definition fneg (a : float64) : float64 :=
  match a with
  | Finite x => Finite (- x)
  | Infinity s => Infinity (negb s)
  | NaN => NaN
  end.

Definition fsub (a b : float64) : float64 := fadd a (fneg b).

Definition fmul (a b : float64) : float64 :=
  match a, b with
  | NaN, _ | _, NaN => NaN
  | Infinity s, Infinity t => Infinity (xorb s t)
  | Infinity s, Finite x | Finite x, Infinity s =>
      if Req_dec_T x 0 then NaN else Infinity (xorb s (is_negative x))
  | Finite x, Finite y => Finite (x * y)
  end.

Definition fdiv (a b : float64) : float64 :=
  match a, b with
  | NaN, _ | _, NaN => NaN
  | Infinity _, Infinity _ => NaN
  | Infinity s, Finite x => Infinity (xorb s (is_negative x))
  | Finite _, Infinity _ => Finite 0
  | Finite x, Finite y =>
      if Req_dec_T y 0
      then if Req_dec_T x 0 then NaN else Infinity (is_negative x)
      else Finite (x / y)
  end.

Definition fabs (a : float64) : float64 :=
  match a with
  | Finite x => Finite (Rabs x)
  | Infinity _ => Infinity false
  | NaN => NaN
  end.

Definition fsqrt (a : float64) : float64 :=
  match a with
  | Finite x => if Rlt_dec x 0 then NaN else Finite (sqrt x)
  | Infinity false => Infinity false
  | Infinity true => NaN
  | NaN => NaN
  end.

Definition flog2 (a : float64) : float64 :=
  match a with
  | Finite x =>
      if Rlt_dec 0 x then Finite (ln x / ln 2)
      else if Req_dec_T x 0 then Infinity true else NaN
  | Infinity false => Infinity false
  | Infinity true => NaN
  | NaN => NaN
  end.

(** [a >= b]; every comparison with NaN is false. *)
Definition fge (a b : float64) : bool :=
  match a, b with
  | NaN, _ | _, NaN => false
  | Finite x, Finite y => if Rle_dec y x then true else false
  | Infinity s, Finite _ => negb s
  | Finite _, Infinity t => t
  | Infinity s, Infinity t => negb s || t
  end.

(** [np.clip(a, lo, hi)] *)
Definition fclip (a : float64) (lo hi : R) : float64 :=
  match a with
  | Finite x => Finite (Rmin (Rmax x lo) hi)
  | Infinity true => Finite lo
  | Infinity false => Finite hi
  | NaN => NaN
  end.

Definition float_of_Z (v : Z) : float64 := Finite (IZR v).
Definition float_of_nat (n : nat) : float64 := Finite (INR n).

(** [np.sum] and [np.mean] of a [float64] array. *)
Definition fsum (a : list float64) : float64 := fold_left fadd a (Finite 0).

Definition fmean (a : list float64) : float64 := fdiv (fsum a) (float_of_nat (length a)).

(** [np.corrcoef(x, y)[0, 1]]: the covariance matrix with [ddof = 1],
    divided by the two standard deviations and clipped to [-1, 1]. *)
Definition np_corrcoef_01 (x y : list Z) : float64 :=
  let x := map float_of_Z x in
  let y := map float_of_Z y in
  let avg_x := fmean x in
  let avg_y := fmean y in
  let xm := map (fun v => fsub v avg_x) x in
  let ym := map (fun v => fsub v avg_y) y in
  let fact := if length x <=? 1 then Finite 0 else float_of_nat (length x - 1) in
  let scale := fdiv (Finite 1) fact in
  let c_xx := fmul (fsum (zip_with fmul xm xm)) scale in
  let c_xy := fmul (fsum (zip_with fmul xm ym)) scale in
  let c_yy := fmul (fsum (zip_with fmul ym ym)) scale in
  let stddev_x := fsqrt c_xx in
  let stddev_y := fsqrt c_yy in
  fclip (fdiv (fdiv c_xy stddev_x) stddev_y) (-1) 1.

(** ** Steganalysis scorer *)

(** [(arr[:, :, i] & 1).flatten()] *)
Definition lsb_plane (arr : image) (i : nat) : list Z :=
  map (fun idx => Z.land (nth (idx * 3 + i) (pixels arr) 0%Z) 1)
      (seq 0 (height arr * width arr)).

(** [np.bincount(lsb, minlength=2).astype(np.float64)] on an array of bits. *)
Definition bincount2 (lsb : list Z) : list float64 :=
  [float_of_nat (length (filter (fun b => b = 0%Z) lsb));
   float_of_nat (length (filter (fun b => b = 1%Z) lsb))].

Definition lsb_entropy (counts : list float64) : float64 :=
  let total := fadd (fsum counts) (Finite (/ 1000000000)) in
  let p := map (fun c => fdiv c total) counts in
  fneg (fsum (map (fun pi => fmul pi (flog2 (fadd pi (Finite (/ 1000000000000))))) p)).

Definition lsb_chi (counts : list float64) : float64 :=
  let expected := fdiv (fsum counts) (Finite 2) in
  fsum (map (fun c => fdiv (fmul (fsub c expected) (fsub c expected))
                           (fadd expected (Finite (/ 1000000000))))
            counts).

Definition lsb_corr (lsb : list Z) : float64 :=
  if 1 <? length lsb
  then np_corrcoef_01 (take (length lsb - 1) lsb) (drop 1 lsb)
  else Finite 0.

Definition detect_steg (arr : image) : float64 * string :=
  let channels := map (lsb_plane arr) (seq 0 3) in
  let entropies := map (fun lsb => lsb_entropy (bincount2 lsb)) channels in
  let chis := map (fun lsb => lsb_chi (bincount2 lsb)) channels in
  let corrs := map lsb_corr channels in
  let entropy_avg := fdiv (fmean entropies) (Finite 1) in
  let chi_norm := fdiv (fmean chis) (Finite 5) in
  let corr_avg := fmean (map fabs corrs) in
  let score :=
    fadd (fadd (fmul (Finite (55 / 100)) entropy_avg)
               (fmul (Finite (25 / 100)) (fdiv (Finite 1) (fadd (Finite 1) chi_norm))))
         (fmul (Finite (20 / 100)) (fsub (Finite 1) corr_avg)) in
  let label :=
    if fge score (Finite (62 / 100))
    then "Likely contains hidden data"%string else "Likely clean image"%string in
  (score, label).

(** A score lies in the unit interval when it is a number between 0 and 1. *)
Definition in_unit_interval (score : float64) : Prop :=
  exists x : R, score = Finite x /\ (0 <= x <= 1)%R.

(** ** Extraction of a prefix *)

(** What extraction with a buffer of [total] raw bits may produce from an
    array that holds the stream [encoded_bits]: it ends by either exit
    with a full buffer of bits that agrees with the stream except,
    possibly, at its last position. *)
Definition prefix_post (encoded_bits : list Z) (total : nat)
    (extracted : step (list Z * nat) (list Z)) : Prop :=
  exists raw_f,
    (extracted = Return (decode_redundancy raw_f) \/
     exists b_f, extracted = Next (raw_f, b_f)) /\
    length raw_f = total /\ Forall is_bit raw_f /\
    take (total - 1) raw_f = take (total - 1) encoded_bits.

(** An [h x w] checkerboard of black and white pixels.  For even sizes
    every Laplacian has magnitude 1020, so every depth is 2 and stays 2
    when low bits change. *)
Definition checker (h w : nat) : image :=
  {| height := h; width := w;
     pixels := flat_map (fun idx => if Nat.even (idx / w + idx mod w)
                                    then [0; 0; 0]%Z else [255; 255; 255]%Z)
                        (seq 0 (h * w)) |}.

(** ** Errors of the request handlers *)

(** What can end a request besides a result: an exception of the codec,
    [cryptography.exceptions.InvalidTag], [struct.error], or an
    [HTTPException] raised by the handler itself. *)
Inductive error : Type :=
| Exception (e : exn)
| InvalidTag
| StructError
| HTTPException (status_code : nat) (detail : string).

Inductive response (A : Type) : Type :=
| Done (a : A)
| Abort (e : error).
Arguments Done {A} a.
Arguments Abort {A} e.

#[global] Instance response_ret : MRet response := fun A a => Done a.

#[global] Instance response_bind : MBind response := fun A B k r =>
  match r with
  | Done a => k a
  | Abort e => Abort e
  end.

(** A codec call inside a handler: its exception propagates. *)
Definition lift {A} (r : result A) : response A :=
  match r with
  | Ok a => Done a
  | Raise e => Abort (Exception e)
  end.

(** ** [struct] framing *)

Definition MAGIC : list Z := [83; 84; 71; 49]%Z.

(** The format [Ns]: the bytes cut or padded with zero bytes to [n]. *)
Definition pack_bytes (n : nat) (b : list Z) : list Z :=
  take n (b ++ replicate n 0%Z).

(** Big-endian unsigned formats [H] (2 bytes) and [I] (4 bytes);
    [struct.error] when the value does not fit. *)
Fixpoint int_to_bytes_big (n : nat) (v : Z) : list Z :=
  match n with
  | O => []
  | S n' => int_to_bytes_big n' (v / 256) ++ [v mod 256]%Z
  end.

Definition pack_uint (n : nat) (v : Z) : response (list Z) :=
  if ((0 <=? v) && (v <? 256 ^ Z.of_nat n))%Z
  then Done (int_to_bytes_big n v) else Abort StructError.

(** [struct.pack(">32sH", data_hash, name_len)] *)
Definition pack_32sH (data_hash : list Z) (name_len : nat) : response (list Z) :=
  len ← pack_uint 2 (Z.of_nat name_len);
  mret (pack_bytes 32 data_hash ++ len).

(** [struct.pack(HEADER_FMT, magic, payload_len, salt, nonce)] *)
Definition pack_header (magic : list Z) (payload_len : nat) (salt nonce : list Z)
  : response (list Z) :=
  len ← pack_uint 4 (Z.of_nat payload_len);
  mret (pack_bytes 4 magic ++ len ++ pack_bytes 16 salt ++ pack_bytes 12 nonce).

(** [struct.unpack(HEADER_FMT, header)]; [struct.error] unless the
    buffer has exactly [HEADER_LEN] bytes. *)
Definition unpack_header (header : list Z) : response (list Z * nat * list Z * list Z) :=
  if length header =? HEADER_LEN
  then Done (slice header 0 4, Z.to_nat (int_from_bytes_big (slice header 4 8)),
             slice header 8 24, slice header 24 36)
  else Abort StructError.

(** ** Key derivation and authenticated encryption *)

Definition PBKDF2_ITERS : Z := 200000%Z.

(** [hashlib.pbkdf2_hmac("sha256", password, salt, iterations, dklen)];
    [AESGCM(key).encrypt(nonce, data, None)]; [AESGCM(key).decrypt], [None]
    when it raises [InvalidTag]; [zlib.compress(data, level=9)]. *)
Class Crypto := {
  pbkdf2_hmac_sha256 : list Z -> list Z -> Z -> nat -> list Z;
  aesgcm_encrypt : list Z -> list Z -> list Z -> list Z;
  aesgcm_decrypt : list Z -> list Z -> list Z -> option (list Z)
}.

Class Compressor := { zlib_compress : list Z -> list Z }.

(** Decryption under the same key and nonce undoes encryption. *)
Definition aead_correct `{Crypto} : Prop :=
  forall key nonce plaintext,
    aesgcm_decrypt key nonce (aesgcm_encrypt key nonce plaintext) = Some plaintext.

(** Decompression undoes compression; decoding undoes encoding. *)
Definition zlib_correct `{Codecs} `{Compressor} : Prop :=
  forall data, zlib_decompress (zlib_compress data) = Some data.

Definition utf8_correct `{Codecs} (s : string) : Prop :=
  utf8_decode_replace (encode_utf8 s) = s.

(** [not s] for a Python string. *)
Definition str_empty (s : string) : bool :=
  match s with EmptyString => true | _ => false end.

Definition derive_key `{Crypto} (passphrase : string) (salt : list Z) : result (list Z) :=
  if str_empty passphrase then Raise (ValueError "Key is required.")
  else Ok (pbkdf2_hmac_sha256 (encode_utf8 passphrase) salt PBKDF2_ITERS 32).

(** [salt] and [nonce] stand for the results of [os.urandom(16)] and
    [os.urandom(12)]. *)
Definition encrypt_payload `{Crypto} (plaintext : list Z) (passphrase : string)
    (salt nonce : list Z) : result (list Z * list Z * list Z) :=
  key ← derive_key passphrase salt;
  let ciphertext := aesgcm_encrypt key nonce plaintext in
  mret (ciphertext, salt, nonce).

Definition decrypt_payload `{Crypto} (ciphertext : list Z) (passphrase : string)
    (salt nonce : list Z) : response (list Z) :=
  key ← lift (derive_key passphrase salt);
  match aesgcm_decrypt key nonce ciphertext with
  | Some plaintext => Done plaintext
  | None => Abort InvalidTag
  end.

Definition build_inner_payload `{Hashlib} `{Compressor} (data : list Z) (filename : string)
  : response (list Z) :=
  let data_hash := sha256 data in
  let name_bytes := if str_empty filename then [] else encode_utf8 filename in
  if (65535 <? Z.of_nat (length name_bytes))%Z
  then Abort (Exception (ValueError "Filename too long."))
  else
    let compressed := zlib_compress data in
    header ← pack_32sH data_hash (length name_bytes);
    mret (header ++ name_bytes ++ compressed).

(** ** Request handlers *)

(** [/api/embed] from the secret on: lines 270 to 276.  The PNG encoding
    of the result is left to the imaging library. *)
Definition embed_handler `{Hashlib} `{NumpyRandom} `{Crypto} `{Compressor}
    (arr : image) (key : string) (data : list Z) (filename : string)
    (salt nonce : list Z) : response (image * Metrics) :=
  inner ← build_inner_payload data filename;
  encrypted ← lift (encrypt_payload inner key salt nonce);
  let '(ciphertext, salt, nonce) := encrypted in
  header ← pack_header MAGIC (length ciphertext) salt nonce;
  let payload := header ++ ciphertext in
  lift (embed arr payload key).

(** The body of the JSON answer of [/api/extract]; [data] and [sha256]
    are sent as base64 and hexadecimal text. *)
Record Extracted : Type := {
  out_filename : string;
  out_data : list Z;
  out_verified : bool;
  out_sha256 : list Z
}.

Definition extract_handler `{Hashlib} `{NumpyRandom} `{Crypto} `{Codecs}
    (arr : image) (key : string) : response Extracted :=
  header_bits ← lift (extract_bits arr (HEADER_LEN * 8) key);
  header ← lift (bytes_from_bits header_bits);
  unpacked ← unpack_header header;
  let '(magic, payload_len, salt, nonce) := unpacked in
  if negb (bool_decide (magic = MAGIC))
  then Abort (HTTPException 400 "No hidden data found or wrong key.")
  else
    let total_bits := (HEADER_LEN + payload_len) * 8 in
    all_bits ← lift (extract_bits arr total_bits key);
    all_bytes ← lift (bytes_from_bits all_bits);
    let payload_bytes := drop HEADER_LEN all_bytes in
    plaintext ← decrypt_payload payload_bytes key salt nonce;
    parsed ← lift (parse_inner_payload plaintext);
    let '(expected_hash, filename, data) := parsed in
    let actual_hash := sha256 data in
    let verified := bool_decide (expected_hash = actual_hash) in
    mret {| out_filename := if str_empty filename then "extracted.bin"%string else filename;
            out_data := data;
            out_verified := verified;
            out_sha256 := actual_hash |}.

(** Stand-ins that store data as it is: no compression, no encryption, a
    key of zero bytes, characters for bytes. *)
Definition plain_codecs : Codecs :=
  {| zlib_decompress := fun c => Some c;
     utf8_decode_replace := fun b =>
       string_of_list_ascii (map (fun x => Ascii.ascii_of_N (Z.to_N x)) b) |}.
Definition plain_compressor : Compressor := {| zlib_compress := fun data => data |}.
Definition plain_crypto : Crypto :=
  {| pbkdf2_hmac_sha256 := fun _ _ _ dklen => replicate dklen 0%Z;
     aesgcm_encrypt := fun _ _ plaintext => plaintext;
     aesgcm_decrypt := fun _ _ ciphertext => Some ciphertext |}.

(** The ciphertext of an embed request is a byte string. *)
Definition ciphertext_is_bytes `{Hashlib} `{Crypto} `{Compressor}
    (key : string) (data : list Z) (filename : string) (salt nonce : list Z) : Prop :=
  forall inner ciphertext,
    build_inner_payload data filename = Done inner ->
    encrypt_payload inner key salt nonce = Ok (ciphertext, salt, nonce) ->
    Forall is_byte ciphertext.

(** ** Arrays as objects *)

(** A NumPy array is a mutable object with an identity.  The store lists
    the arrays that are alive; the identity of an array is its position
    in the store, and a new array takes the next position. *)
Abbreviation loc := nat (only parsing).
Abbreviation store := (list image) (only parsing).

Definition set_pixels (a : image) (px : list Z) : image :=
  {| height := height a; width := width a; pixels := px |}.

(** [a.copy()]: a new object that holds what [a] holds. *)
Definition np_copy (mem : store) (a : image) : loc * store :=
  (length mem, mem ++ [a]).

(** [flat[idx, ch]] and [flat[idx, ch] = v] on the object [flat]. *)
Definition getitem (mem : store) (flat : loc) (idx ch : nat) : option Z :=
  a ← mem !! flat; channel_at (pixels a) idx ch.

Definition setitem (mem : store) (flat : loc) (idx ch : nat) (v : Z) : store :=
  match mem !! flat with
  | Some a => <[flat := set_pixels a (<[idx * 3 + ch := v]> (pixels a))]> mem
  | None => mem
  end.

(** [embed_bits] on objects.  The loop state is the store and the cursor
    [bit_idx]; every write goes to the object [flat], and [return] leaves
    with the store as it is. *)
Definition embed_channel_obj (flat : loc) (encoded_bits : list Z) (depth : Z)
    (idx ch : nat) (st : store * nat) : step (store * nat) store :=
  let '(mem, bit_idx) := st in
  if length encoded_bits <=? bit_idx then Return mem
  else
    let take_ := Z.to_nat (Z.min depth (Z.of_nat (length encoded_bits - bit_idx))) in
    let bit_chunk := slice encoded_bits bit_idx (bit_idx + take_) in
    let bit_idx := bit_idx + take_ in
    let value := pack_msb_first bit_chunk in
    let mask := (Z.shiftl 1 (Z.of_nat take_) - 1)%Z in
    match getitem mem flat idx ch with
    | None => Fail IndexError
    | Some x =>
        Next (setitem mem flat idx ch (to_uint8 (Z.lor (Z.land x (Z.lnot mask)) value)),
              bit_idx)
    end.

Definition embed_pixel_obj (flat : loc) (depth_map encoded_bits : list Z) (idx : nat)
    (st : store * nat) : step (store * nat) store :=
  match depth_map !! idx with
  | None => Fail IndexError
  | Some depth =>
      if (depth <=? 0)%Z then Next st
      else for_each (seq 0 3) (embed_channel_obj flat encoded_bits depth idx) st
  end.

(** A call [embed_bits(arr, bits, passphrase)] in a store where [arr]
    names the cover: the identity of the array it returns and the store
    it leaves.  [flat = arr.reshape(-1, 3).copy()] is the only array the
    loop writes to, and [flat.reshape(h, w, 3)] is a view of it.  A name
    that a Python program holds is alive, so the first branch is not one
    the program takes. *)
Definition embed_bits_obj `{Hashlib} `{NumpyRandom} (mem : store) (arr : loc)
    (bits : list Z) (passphrase : string) : result (loc * store) :=
  match mem !! arr with
  | None => Raise IndexError
  | Some cover =>
      let h := height cover in
      let w := width cover in
      let depth_map := compute_edge_depth_map cover in
      let capacity_bits := (np_sum depth_map * 3)%Z in
      let encoded_bits := np_repeat bits REDUNDANCY in
      if (capacity_bits <? Z.of_nat (length encoded_bits))%Z
      then Raise (ValueError "Payload too large for this image.")
      else
        let '(flat, mem) := np_copy mem cover in
        let order := traversal_order h w passphrase in
        match for_each order (embed_pixel_obj flat depth_map encoded_bits) (mem, 0) with
        | Next (mem, _) | Return mem => Ok (flat, mem)
        | Fail e => Raise e
        end
  end.

(** The store [mem0] in which the object [flat] holds the pixels [px],
    and a state of the loop on values as the state of the loop on objects. *)
Definition holding (mem0 : store) (flat : loc) (a0 : image) (px : list Z) : store :=
  <[flat := set_pixels a0 px]> mem0.

Definition lifted (mem0 : store) (flat : loc) (a0 : image) (st : list Z * nat)
  : store * nat :=
  (holding mem0 flat a0 st.1, st.2).

(** A loop outcome seen through a change of state. *)
Definition step_map {S R S' R'} (f : S -> S') (g : R -> R') (o : step S R)
  : step S' R' :=
  match o with
  | Next s => Next (f s)
  | Return r => Return (g r)
  | Fail e => Fail e
  end.

(** The big-endian unsigned value of eight bytes. *)
Definition big_endian_64 (b0 b1 b2 b3 b4 b5 b6 b7 : Z) : Z :=
  (b0 * 2 ^ 56 + b1 * 2 ^ 48 + b2 * 2 ^ 40 + b3 * 2 ^ 32
   + b4 * 2 ^ 24 + b5 * 2 ^ 16 + b6 * 2 ^ 8 + b7)%Z.

(** Stand-ins that depend on their input: a digest whose first eight
    bytes hold the length of the message and whose last byte holds the
    sum of its bytes, and a generator that rotates the array by its
    seed. *)
Definition keyed_hashlib : Hashlib :=
  {| sha256 := fun m => replicate 7 0%Z ++ [Z.of_nat (length m) mod 256]%Z
                        ++ replicate 23 0%Z ++ [np_sum m mod 256]%Z |}.
Definition rotating_rng : NumpyRandom :=
  {| rng_shuffle := fun seed order =>
       let k := Z.to_nat (seed mod Z.of_nat (length order)) in
       drop k order ++ take k order |}.

(** * Properties *)

(** ** Redundancy coding *)

Lemma decode_redundancy_cons3 (x y z : Z) (raw : list Z) :
  decode_redundancy (x :: y :: z :: raw)
  = (if (2 <=? x + y + z)%Z then 1%Z else 0%Z) :: decode_redundancy raw.
Proof.
  unfold decode_redundancy, reshape_rows, REDUNDANCY.
  cbn [length].
  replace (S (S (S (length raw))) mod 3) with (length raw mod 3)
    by (change (S (S (S (length raw)))) with (3 + length raw);
        rewrite <- Nat.Div0.add_mod_idemp_l; reflexivity).
  pose proof (Nat.Div0.mod_le (length raw) 3) as Hm.
  assert (Hrows : forall l : list Z,
             rows (length (x :: y :: z :: l) / 3) 3 (x :: y :: z :: l)
             = [x; y; z] :: rows (length l / 3) 3 l).
  { intros l. cbn [length].
    replace (S (S (S (length l))) / 3) with (S (length l / 3)).
    - reflexivity.
    - change (S (S (S (length l)))) with (1 * 3 + length l).
      rewrite Nat.div_add_l by lia. reflexivity. }
  destruct (length raw mod 3 =? 0) eqn:E; cbn [negb].
  - rewrite Hrows. cbn [map np_sum foldr].
    change (Z.of_nat (3 / 2 + 1)) with 2%Z.
    rewrite Z.add_0_r, !Z.add_assoc. reflexivity.
  - replace (S (S (S (length raw))) - length raw mod 3)
      with (S (S (S (length raw - length raw mod 3)))) by lia.
    cbn [take]. rewrite Hrows. cbn [map np_sum foldr].
    change (Z.of_nat (3 / 2 + 1)) with 2%Z.
    rewrite Z.add_0_r, !Z.add_assoc. reflexivity.
Qed.

Lemma decode_redundancy_nil : decode_redundancy [] = [].
Proof. reflexivity. Qed.

Lemma decode_redundancy_repeat (b : list Z) :
  Forall is_bit b -> decode_redundancy (np_repeat b REDUNDANCY) = b.
Proof.
  induction 1 as [|x b Hx _ IH]; [reflexivity|].
  cbn [np_repeat REDUNDANCY replicate app].
  rewrite decode_redundancy_cons3. fold REDUNDANCY. rewrite IH.
  destruct Hx; subst x; reflexivity.
Qed.

Lemma at_most_one_flip_cons (s : Z) (b : list Z) (x y z : Z) (raw : list Z) :
  at_most_one_flip (s :: b) (x :: y :: z :: raw) ->
  flips s [x; y; z] <= 1 /\ is_bit x /\ is_bit y /\ is_bit z /\
  at_most_one_flip b raw.
Proof.
  intros (Hlen & Hbits & Hflips).
  apply Forall_cons_1 in Hbits as [Hx Hbits].
  apply Forall_cons_1 in Hbits as [Hy Hbits].
  apply Forall_cons_1 in Hbits as [Hz Hbits].
  split; [exact (Hflips 0 s eq_refl)|].
  repeat split; trivial.
  - simpl in Hlen. lia.
  - intros i t Hi. specialize (Hflips (S i) t Hi).
    unfold copies_of in *.
    replace (3 * S i) with (S (S (S (3 * i)))) in Hflips by lia.
    exact Hflips.
Qed.

Lemma decode_redundancy_one_flip (b raw : list Z) :
  Forall is_bit b -> at_most_one_flip b raw -> decode_redundancy raw = b.
Proof.
  intros Hb. revert raw.
  induction Hb as [|s b Hs _ IH]; intros raw Hr.
  - destruct Hr as (Hlen & _). destruct raw; [reflexivity | discriminate].
  - destruct raw as [|x [|y [|z raw]]];
      try (destruct Hr as (Hlen & _); cbn [length] in Hlen; lia).
    apply at_most_one_flip_cons in Hr as (Hf & Hx & Hy & Hz & Hr).
    rewrite decode_redundancy_cons3, (IH _ Hr). f_equal.
    unfold flips in Hf.
    destruct Hs, Hx, Hy, Hz; subst; try reflexivity;
      exfalso; revert Hf; vm_compute; lia.
Qed.

(** C5: tripling every bit and taking the majority of each row of three
    gives the bit vector back, and it still does when at most one of the
    three copies of each source bit has been flipped. *)
Theorem redundancy_roundtrip (b : list Z) :
  Forall is_bit b ->
  decode_redundancy (np_repeat b REDUNDANCY) = b /\
  forall raw, at_most_one_flip b raw -> decode_redundancy raw = b.
Proof.
  intros Hb. split.
  - apply decode_redundancy_repeat, Hb.
  - intros raw. apply decode_redundancy_one_flip, Hb.
Qed.

Lemma redundancy_roundtrip_witness :
  decode_redundancy (np_repeat [1; 0; 1]%Z REDUNDANCY) = [1; 0; 1]%Z /\
  decode_redundancy [1; 0; 1; 0; 0; 1; 1; 1; 0]%Z = [1; 0; 1]%Z.
Proof.
  assert (Hb : Forall is_bit [1; 0; 1]%Z)
    by (repeat constructor; unfold is_bit; lia).
  destruct (redundancy_roundtrip [1; 0; 1]%Z Hb) as [H1 H2].
  split; [exact H1|]. apply H2.
  split; [reflexivity|]. split.
  - repeat constructor; unfold is_bit; lia.
  - intros [|[|[|i]]] s Hs; vm_compute in Hs; try discriminate;
      injection Hs as <-; vm_compute; lia.
Defined.

(** ** Bit I/O *)

Example bits_from_bytes_S : bits_from_bytes [83]%Z = [0; 1; 0; 1; 0; 0; 1; 1]%Z.
Proof. reflexivity. Qed.

Example bytes_from_bits_roundtrip :
  bytes_from_bits (bits_from_bytes [83; 84; 71; 49]%Z) = Ok [83; 84; 71; 49]%Z.
Proof. reflexivity. Qed.

Example bytes_from_bits_ragged :
  bytes_from_bits [1; 0; 1]%Z = Raise (ValueError "Bit length must be multiple of 8.").
Proof. reflexivity. Qed.

Example decode_redundancy_ragged : decode_redundancy [1; 1; 0; 0; 0; 1; 1]%Z = [1; 0]%Z.
Proof. reflexivity. Qed.

(** ** Inner payload parser *)

Example parse_inner_payload_short :
  @parse_inner_payload sample_codecs (replicate 33 0%Z)
  = Raise (ValueError "Payload too small.").
Proof. reflexivity. Qed.

Example parse_inner_payload_long_name :
  @parse_inner_payload sample_codecs (replicate 32 7%Z ++ [0; 3; 97; 98]%Z)
  = Raise (ValueError "Invalid payload name length.").
Proof. reflexivity. Qed.

Example parse_inner_payload_bad_tail :
  @parse_inner_payload sample_codecs (replicate 32 7%Z ++ [0; 2; 97; 98; 1]%Z)
  = Raise ZlibError.
Proof. reflexivity. Qed.

Example parse_inner_payload_ok :
  @parse_inner_payload sample_codecs (replicate 32 7%Z ++ [0; 2; 97; 98]%Z)
  = Ok (replicate 32 7%Z, "ab"%string, []).
Proof. reflexivity. Qed.


Lemma parse_inner_payload_cases `{Codecs} (p : list Z) :
  parse_inner_payload p =
    if length p <? 34 then Raise (ValueError "Payload too small.")
    else if length p <? 34 + name_len_of p
         then Raise (ValueError "Invalid payload name length.")
         else match zlib_decompress (drop (34 + name_len_of p) p) with
              | Some data =>
                  Ok (take 32 p,
                      utf8_decode_replace (slice p 34 (34 + name_len_of p)), data)
              | None => Raise ZlibError
              end.
Proof.
  unfold parse_inner_payload, name_len_of, unpack_32sH. cbn [snd].
  rewrite take_take. reflexivity.
Qed.

(** C7: the parser fails with PayloadMalformed exactly on a boundary
    violation (fewer than 34 bytes, or a name that runs past the end);
    otherwise the name is the lossy UTF-8 decoding of its bytes and the
    parser fails with DecompressError exactly when the tail does not
    decompress. *)
Theorem parse_inner_payload_errors `{Codecs} (p : list Z) :
  let malformed := length p < 34 \/ length p < 34 + name_len_of p in
  let tail := drop (34 + name_len_of p) p in
  ((exists e, parse_inner_payload p = Raise e /\ PayloadMalformed e) <-> malformed) /\
  (parse_inner_payload p = Raise DecompressError <->
     ~ malformed /\ zlib_decompress tail = None) /\
  (forall data, ~ malformed -> zlib_decompress tail = Some data ->
     parse_inner_payload p =
       Ok (take 32 p, utf8_decode_replace (slice p 34 (34 + name_len_of p)), data)).
Proof.
  cbn zeta. rewrite parse_inner_payload_cases. unfold PayloadMalformed, DecompressError.
  destruct (Nat.ltb_spec (length p) 34) as [H1|H1].
  { split; [|split].
    - split; [intros _; left; exact H1|]. intros _. eexists. split; [reflexivity|]. now left.
    - split; [discriminate|]. intros [Hn _]. exfalso. apply Hn. now left.
    - intros data Hn. exfalso. apply Hn. now left. }
  destruct (Nat.ltb_spec (length p) (34 + name_len_of p)) as [H2|H2].
  { split; [|split].
    - split; [intros _; right; exact H2|]. intros _. eexists. split; [reflexivity|]. now right.
    - split; [discriminate|]. intros [Hn _]. exfalso. apply Hn. now right.
    - intros data Hn. exfalso. apply Hn. now right. }
  assert (Hn : ~ (length p < 34 \/ length p < 34 + name_len_of p)) by lia.
  destruct (zlib_decompress _) as [data|] eqn:Ez.
  - split; [|split].
    + split; [|intros Hm; contradiction].
      intros (e & He & _). discriminate.
    + split; [discriminate|]. intros [_ Hd]. discriminate.
    + intros data' _ [= <-]. reflexivity.
  - split; [|split].
    + split; [|intros Hm; contradiction].
      intros (e & [= <-] & [Hp|Hp]); discriminate.
    + split; [intros _; split; [exact Hn | reflexivity] | reflexivity].
    + intros data' _ Hd. discriminate.
Qed.

(** ** Metrics *)

Lemma length_unpackbits8 (v : Z) : length (unpackbits8 v) = 8.
Proof. reflexivity. Qed.

Lemma length_bits_from_bytes (data : list Z) :
  length (bits_from_bytes data) = 8 * length data.
Proof.
  unfold bits_from_bytes. induction data as [|v data IH]; [reflexivity|].
  cbn [flat_map]. rewrite length_app, IH, length_unpackbits8. cbn [length]. lia.
Qed.

(** C8: for every embed, the reported [used_bytes] is the ceiling of
    [used_bits / 8], where [used_bits] is the number of bits of the
    payload frame; it is the number of bytes of the frame. *)
Theorem embed_used_bytes `{Hashlib} `{NumpyRandom} (arr : image) (payload : list Z)
    (key : string) (stego : image) (metrics : Metrics) :
  embed arr payload key = Ok (stego, metrics) ->
  let used_bits := length (bits_from_bytes payload) in
  metrics = compute_metrics arr stego used_bits /\
  used_bytes metrics = ceil_div8 used_bits /\
  used_bytes metrics = length payload.
Proof.
  intros Hembed used_bits. unfold embed in Hembed.
  destruct (embed_bits arr (bits_from_bytes payload) key) as [stego'|e] eqn:E;
    cbn in Hembed; [|discriminate].
  injection Hembed as <- <-. subst used_bits.
  split; [reflexivity|]. cbn [compute_metrics used_bytes]. unfold ceil_div8.
  rewrite length_bits_from_bytes.
  split.
  - rewrite (Nat.mul_comm 8), Nat.div_mul by lia.
    rewrite Nat.add_comm, Nat.div_add by lia. reflexivity.
  - rewrite (Nat.mul_comm 8), Nat.div_mul by lia. reflexivity.
Qed.

Lemma embed_used_bytes_witness :
  exists stego metrics,
    @embed sample_hashlib sample_rng (solid 4 4 0%Z) [65%Z] "k" = Ok (stego, metrics) /\
    used_bytes metrics = ceil_div8 8 /\ used_bytes metrics = 1.
Proof.
  destruct (@embed sample_hashlib sample_rng (solid 4 4 0%Z) [65%Z] "k")
    as [[stego metrics]|e] eqn:E; [|vm_compute in E; discriminate].
  exists stego, metrics. split; [reflexivity|].
  exact (proj2 (@embed_used_bytes sample_hashlib sample_rng _ _ _ _ _ E)).
Defined.

(** [compute_metrics] itself rounds down: on a bit count that is not a
    multiple of eight it reports the floor, not the ceiling. *)
Example compute_metrics_rounds_down :
  used_bytes (compute_metrics (solid 1 1 0%Z) (solid 1 1 0%Z) 9) = 1 /\ ceil_div8 9 = 2.
Proof. split; reflexivity. Qed.

(** ** Edge-depth map *)

Lemma length_Laplacian (h w : nat) (gray : list Z) :
  length (Laplacian h w gray) = h * w.
Proof. unfold Laplacian. rewrite length_map, length_seq. reflexivity. Qed.

Lemma length_edge_norm (arr : image) :
  length (edge_norm arr) = height arr * width arr.
Proof. unfold edge_norm. rewrite !length_map. apply length_Laplacian. Qed.

Lemma length_compute_edge_depth_map (arr : image) :
  length (compute_edge_depth_map arr) = height arr * width arr.
Proof. unfold compute_edge_depth_map. rewrite length_map. apply length_edge_norm. Qed.

Lemma depth_of_norm_cases (norm : Q) :
  (depth_of_norm norm = 2%Z /\ (1 # 4 < norm)%Q) \/
  (depth_of_norm norm = 1%Z /\ (norm <= 1 # 4)%Q).
Proof.
  unfold depth_of_norm. destruct (Qle_bool norm (1 # 4)) eqn:E; cbn [negb].
  - right. split; [reflexivity|]. apply Qle_bool_iff, E.
  - left. split; [reflexivity|]. apply Qnot_le_lt. intros Hle.
    apply Qle_bool_iff in Hle. congruence.
Qed.

(** On integer magnitudes the threshold has a whole unit of margin: the
    quotient exceeds 0.25 exactly when [4 * mag > max_val], so the rounding
    of the floating-point division cannot change the comparison. *)
Lemma norm_gt_quarter (max_val mag : Z) :
  (0 <= max_val)%Z -> ((1 # 4 < norm_of max_val mag)%Q <-> (max_val < 4 * mag)%Z).
Proof.
  intros Hmax. unfold norm_of.
  assert (Hden : (0 < inject_Z max_val + (1 # 1000000))%Q).
  { unfold Qlt, Qplus, inject_Z. cbn. lia. }
  split.
  - intros Hlt. apply (Qmult_lt_r _ _ _ Hden) in Hlt.
    unfold Qdiv in Hlt.
    rewrite <- Qmult_assoc, (Qmult_comm (/ _)), Qmult_inv_r, Qmult_1_r in Hlt.
    2:{ intros Heq. rewrite Heq in Hden. discriminate. }
    unfold Qlt, Qmult, Qplus, inject_Z in Hlt. cbn in Hlt.
    destruct (max_val * 1000000 + 1)%Z eqn:E; lia.
  - intros Hlt. apply Qlt_shift_div_l; [exact Hden|].
    unfold Qlt, Qmult, Qplus, inject_Z. cbn.
    destruct (max_val * 1000000 + 1)%Z eqn:E; lia.
Qed.

Lemma depth_map_lookup (arr : image) (idx : nat) (depth : Z) :
  compute_edge_depth_map arr !! idx = Some depth ->
  exists norm, edge_norm arr !! idx = Some norm /\ depth = depth_of_norm norm.
Proof.
  unfold compute_edge_depth_map. rewrite list_lookup_fmap.
  destruct (edge_norm arr !! idx) as [norm|]; [|discriminate].
  intros [= <-]. exists norm. split; reflexivity.
Qed.

Lemma depth_map_one_or_two (arr : image) (idx : nat) (depth : Z) :
  compute_edge_depth_map arr !! idx = Some depth -> depth = 1%Z \/ depth = 2%Z.
Proof.
  intros (norm & _ & ->)%depth_map_lookup.
  destruct (depth_of_norm_cases norm) as [[-> _]|[-> _]]; [right | left]; reflexivity.
Qed.

(** C4: every entry of the depth map is 1 or 2, it is 2 exactly when the
    normalized Laplacian magnitude of the pixel exceeds 0.25, and the
    map has an entry for each of the h*w pixels; so the test
    [depth <= 0] of the engine is false at every pixel and the loop
    bodies of [embed_bits] and [extract_bits] never take the [continue]
    branch. *)
Theorem depth_map_range (arr : image) (idx : nat) (depth : Z) :
  compute_edge_depth_map arr !! idx = Some depth ->
  (depth = 1%Z \/ depth = 2%Z) /\
  (exists norm, edge_norm arr !! idx = Some norm /\
                (depth = 2%Z <-> (1 # 4 < norm)%Q)) /\
  length (compute_edge_depth_map arr) = height arr * width arr /\
  (depth <=? 0)%Z = false /\
  (forall encoded_bits st,
      embed_pixel (compute_edge_depth_map arr) encoded_bits idx st
      = for_each (seq 0 3) (embed_channel encoded_bits depth idx) st) /\
  (forall flat st,
      extract_pixel (compute_edge_depth_map arr) flat idx st
      = for_each (seq 0 3) (extract_channel flat depth idx) st).
Proof.
  intros Hd.
  pose proof (depth_map_one_or_two _ _ _ Hd) as H12.
  assert (Hpos : (depth <=? 0)%Z = false) by (apply Z.leb_gt; lia).
  split; [exact H12|]. split; [|split; [|split; [|split]]].
  - destruct (depth_map_lookup _ _ _ Hd) as (norm & Hn & ->).
    exists norm. split; [exact Hn|].
    destruct (depth_of_norm_cases norm) as [[-> Hlt]|[-> Hle]].
    + split; [intros _; exact Hlt | reflexivity].
    + split; [discriminate|]. intros Hlt. exfalso.
      exact (Qlt_not_le _ _ Hlt Hle).
  - apply length_compute_edge_depth_map.
  - exact Hpos.
  - intros encoded_bits st. unfold embed_pixel. rewrite Hd, Hpos. reflexivity.
  - intros flat st. unfold extract_pixel. rewrite Hd, Hpos. reflexivity.
Qed.

Lemma depth_map_range_witness :
  compute_edge_depth_map (solid 4 4 0%Z) !! 5 = Some 1%Z /\
  ((1 <=? 0)%Z = false).
Proof.
  assert (Hd : compute_edge_depth_map (solid 4 4 0%Z) !! 5 = Some 1%Z)
    by (vm_compute; reflexivity).
  split; [exact Hd|].
  exact (proj1 (proj2 (proj2 (proj2 (depth_map_range _ _ _ Hd))))).
Defined.

(** ** Keyed traversal *)

Lemma int_from_bytes_big_snoc (b : list Z) (x : Z) :
  int_from_bytes_big (b ++ [x]) = (int_from_bytes_big b * 256 + x)%Z.
Proof. unfold int_from_bytes_big. rewrite fold_left_app. reflexivity. Qed.

Lemma int_from_bytes_big_range (b : list Z) :
  Forall is_byte b -> (0 <= int_from_bytes_big b < 256 ^ Z.of_nat (length b))%Z.
Proof.
  induction b as [|x b IH] using rev_ind; intros Hb.
  - cbn. lia.
  - apply Forall_app in Hb as [Hb Hx]. apply Forall_cons_1 in Hx as [Hx _].
    specialize (IH Hb). unfold is_byte in Hx.
    rewrite int_from_bytes_big_snoc, length_app. cbn [length].
    replace (Z.of_nat (length b + 1)) with (Z.succ (Z.of_nat (length b))) by lia.
    rewrite Z.pow_succ_r by lia. lia.
Qed.

(** X1: the seed.  When the digest is a byte string, the seed that
    [seed_from_key] hands to the generator is an unsigned 64-bit integer. *)
Lemma seed_from_key_range `{Hashlib} (passphrase : string) :
  Forall is_byte (sha256 (encode_utf8 passphrase)) ->
  (0 <= seed_from_key passphrase < 2 ^ 64)%Z.
Proof.
  intros Hb. unfold seed_from_key.
  pose proof (int_from_bytes_big_range (take 8 (sha256 (encode_utf8 passphrase)))
                (Forall_take _ _ _ Hb)) as [Hlo Hhi].
  split; [exact Hlo|].
  eapply Z.lt_le_trans; [exact Hhi|].
  change (2 ^ 64)%Z with (256 ^ 8)%Z.
  apply Z.pow_le_mono_r; [lia|]. rewrite length_take. lia.
Qed.

(** The seed is the big-endian value of the first eight digest bytes. *)
Lemma seed_from_key_big_endian `{Hashlib} (passphrase : string)
    (b0 b1 b2 b3 b4 b5 b6 b7 : Z) (rest : list Z) :
  sha256 (encode_utf8 passphrase) = b0 :: b1 :: b2 :: b3 :: b4 :: b5 :: b6 :: b7 :: rest ->
  seed_from_key passphrase
  = (b0 * 2 ^ 56 + b1 * 2 ^ 48 + b2 * 2 ^ 40 + b3 * 2 ^ 32
     + b4 * 2 ^ 24 + b5 * 2 ^ 16 + b6 * 2 ^ 8 + b7)%Z.
Proof.
  intros Hd. unfold seed_from_key. rewrite Hd.
  cbn [firstn]. unfold int_from_bytes_big. rewrite take_0. cbn [fold_left]. lia.
Qed.

(** Big-endian reading is one-to-one on byte strings of one length. *)
Lemma int_from_bytes_big_inj (a b : list Z) :
  Forall is_byte a -> Forall is_byte b -> length a = length b ->
  int_from_bytes_big a = int_from_bytes_big b -> a = b.
Proof.
  revert b. induction a as [|x a IH] using rev_ind; intros b Ha Hb Hlen Heq.
  - destruct b; [reflexivity | discriminate].
  - destruct b as [|y b _] using rev_ind;
      [rewrite length_app in Hlen; cbn in Hlen; lia|].
    rewrite !length_app in Hlen. cbn [length] in Hlen.
    apply Forall_app in Ha as [Ha Hx]. apply Forall_cons_1 in Hx as [Hx _].
    apply Forall_app in Hb as [Hb Hy]. apply Forall_cons_1 in Hy as [Hy _].
    rewrite !int_from_bytes_big_snoc in Heq. unfold is_byte in Hx, Hy.
    assert (x = y /\ int_from_bytes_big a = int_from_bytes_big b) as [-> Hv] by lia.
    f_equal. apply IH; [assumption | assumption | lia | exact Hv].
Qed.

Lemma int_from_bytes_big_8 (b0 b1 b2 b3 b4 b5 b6 b7 : Z) :
  int_from_bytes_big [b0; b1; b2; b3; b4; b5; b6; b7]
  = big_endian_64 b0 b1 b2 b3 b4 b5 b6 b7.
Proof. unfold int_from_bytes_big, big_endian_64. cbn [fold_left]. lia. Qed.

(** ** Calls on objects *)

Lemma for_each_step_map {A S R S' R'} (f : S -> S') (g : R -> R')
    (body : A -> S -> step S R) (body' : A -> S' -> step S' R') (xs : list A) :
  (forall x s, body' x (f s) = step_map f g (body x s)) ->
  forall s, for_each xs body' (f s) = step_map f g (for_each xs body s).
Proof.
  intros Hbody. induction xs as [|x xs IH]; intros s; cbn [for_each]; [reflexivity|].
  rewrite Hbody. destruct (body x s) as [s'|r|e]; cbn [step_map];
    [apply IH | reflexivity | reflexivity].
Qed.

Section Objects.
Variables (mem0 : store) (flat : loc) (a0 : image).
Hypothesis Hflat : flat < length mem0.

Lemma embed_channel_obj_pure (encoded_bits : list Z) (depth : Z) (idx ch : nat)
    (st : list Z * nat) :
  embed_channel_obj flat encoded_bits depth idx ch (lifted mem0 flat a0 st)
  = step_map (lifted mem0 flat a0) (holding mem0 flat a0)
      (embed_channel encoded_bits depth idx ch st).
Proof.
  destruct st as [px bit_idx]. unfold lifted, holding. cbn [fst snd].
  unfold embed_channel_obj, embed_channel.
  destruct (length encoded_bits <=? bit_idx); [reflexivity|].
  unfold getitem, setitem. rewrite list_lookup_insert_eq by exact Hflat.
  cbn [mbind option_bind set_pixels pixels].
  destruct (channel_at px idx ch) as [x|]; [|reflexivity].
  cbn [step_map fst snd]. rewrite list_insert_insert_eq. reflexivity.
Qed.

Lemma embed_pixel_obj_pure (depth_map encoded_bits : list Z) (idx : nat)
    (st : list Z * nat) :
  embed_pixel_obj flat depth_map encoded_bits idx (lifted mem0 flat a0 st)
  = step_map (lifted mem0 flat a0) (holding mem0 flat a0)
      (embed_pixel depth_map encoded_bits idx st).
Proof.
  unfold embed_pixel_obj, embed_pixel.
  destruct (depth_map !! idx) as [depth|]; [|reflexivity].
  destruct (depth <=? 0)%Z; [reflexivity|].
  apply for_each_step_map. intros ch s. apply embed_channel_obj_pure.
Qed.

Lemma embed_loop_obj_pure (depth_map encoded_bits : list Z) (order : list nat)
    (st : list Z * nat) :
  for_each order (embed_pixel_obj flat depth_map encoded_bits) (lifted mem0 flat a0 st)
  = step_map (lifted mem0 flat a0) (holding mem0 flat a0)
      (for_each order (embed_pixel depth_map encoded_bits) st).
Proof.
  apply for_each_step_map. intros idx s. apply embed_pixel_obj_pure.
Qed.
End Objects.

(** A call on objects returns a new array that holds what the function
    on values returns, and leaves every array of the store as it was. *)
Lemma embed_bits_obj_pure `{Hashlib} `{NumpyRandom} (mem : store) (arr : loc)
    (cover : image) (bits : list Z) (passphrase : string) :
  mem !! arr = Some cover ->
  embed_bits_obj mem arr bits passphrase
  = match embed_bits cover bits passphrase with
    | Ok stego => Ok (length mem, mem ++ [stego])
    | Raise e => Raise e
    end.
Proof.
  intros Hcover. unfold embed_bits_obj, embed_bits. rewrite Hcover.
  destruct (_ <? _)%Z; [reflexivity|].
  unfold np_copy.
  assert (Hflat : length mem < length (mem ++ [cover]))
    by (rewrite length_app; cbn; lia).
  assert (Hhold : forall px,
             <[length mem := set_pixels cover px]> (mem ++ [cover])
             = mem ++ [set_pixels cover px]).
  { intros px. rewrite <- (Nat.add_0_r (length mem)) at 1.
    rewrite insert_app_r. reflexivity. }
  pose proof (embed_loop_obj_pure (mem ++ [cover]) (length mem) cover Hflat
                (compute_edge_depth_map cover) (np_repeat bits REDUNDANCY)
                (traversal_order (height cover) (width cover) passphrase)
                (pixels cover, 0)) as Hloop.
  unfold lifted, holding in Hloop. cbn [fst snd] in Hloop. rewrite Hhold in Hloop.
  replace (set_pixels cover (pixels cover)) with cover in Hloop
    by (destruct cover; reflexivity).
  rewrite Hloop.
  destruct (for_each _ (embed_pixel _ _) _) as [[px bit_idx]|px|e];
    cbn [step_map fst snd]; rewrite ?Hhold; reflexivity.
Qed.

(** C3: the embedding engine is deterministic, and the passphrase enters
    it through the seed alone.  The seed is the big-endian unsigned value
    of the first eight bytes of SHA-256(passphrase), a number below 2^64;
    the traversal is the shuffle of [arange(h * w)] by the generator
    seeded with that value; a second passphrase has the same seed exactly
    when its digest starts with the same eight bytes, and then it gives
    the same stego array.  A call leaves the cover object as it was and
    returns a new array, so a second call with the same cover, bits and
    passphrase returns another new array that is bit-identical to the
    first. *)
Theorem embed_bits_deterministic `{Hashlib} `{NumpyRandom} (mem : store) (arr : loc)
    (cover : image) (bits : list Z) (passphrase : string)
    (b0 b1 b2 b3 b4 b5 b6 b7 : Z) (rest : list Z) :
  mem !! arr = Some cover ->
  sha256 (encode_utf8 passphrase) = b0 :: b1 :: b2 :: b3 :: b4 :: b5 :: b6 :: b7 :: rest ->
  Forall is_byte [b0; b1; b2; b3; b4; b5; b6; b7] ->
  let seed := big_endian_64 b0 b1 b2 b3 b4 b5 b6 b7 in
  seed_from_key passphrase = seed /\ (0 <= seed < 2 ^ 64)%Z /\
  traversal_order (height cover) (width cover) passphrase
  = rng_shuffle seed (seq 0 (height cover * width cover)) /\
  (forall passphrase',
      Forall is_byte (sha256 (encode_utf8 passphrase')) ->
      8 <= length (sha256 (encode_utf8 passphrase')) ->
      (seed_from_key passphrase' = seed <->
       take 8 (sha256 (encode_utf8 passphrase')) = [b0; b1; b2; b3; b4; b5; b6; b7])) /\
  (forall passphrase',
      take 8 (sha256 (encode_utf8 passphrase')) = [b0; b1; b2; b3; b4; b5; b6; b7] ->
      seed_from_key passphrase' = seed /\
      traversal_order (height cover) (width cover) passphrase'
      = traversal_order (height cover) (width cover) passphrase /\
      embed_bits cover bits passphrase' = embed_bits cover bits passphrase /\
      embed_bits_obj mem arr bits passphrase' = embed_bits_obj mem arr bits passphrase) /\
  (forall e,
      embed_bits cover bits passphrase = Raise e ->
      embed_bits_obj mem arr bits passphrase = Raise e) /\
  (forall stego,
      embed_bits cover bits passphrase = Ok stego ->
      exists stego1 mem1 stego2 mem2,
        embed_bits_obj mem arr bits passphrase = Ok (stego1, mem1) /\
        embed_bits_obj mem1 arr bits passphrase = Ok (stego2, mem2) /\
        stego1 <> arr /\ stego2 <> arr /\ stego2 <> stego1 /\
        mem1 !! arr = Some cover /\ mem2 !! arr = Some cover /\
        (forall l a, mem !! l = Some a -> mem1 !! l = Some a /\ mem2 !! l = Some a) /\
        mem1 !! stego1 = Some stego /\
        mem2 !! stego1 = Some stego /\ mem2 !! stego2 = Some stego).
Proof.
  intros Hcover Hd Hb seed.
  assert (Htake : take 8 (sha256 (encode_utf8 passphrase))
                  = [b0; b1; b2; b3; b4; b5; b6; b7]) by (rewrite Hd; reflexivity).
  assert (Hseed : seed_from_key passphrase = seed).
  { unfold seed_from_key. rewrite Htake. apply int_from_bytes_big_8. }
  assert (Hsame : forall passphrase',
             take 8 (sha256 (encode_utf8 passphrase')) = [b0; b1; b2; b3; b4; b5; b6; b7] ->
             seed_from_key passphrase' = seed).
  { intros passphrase' Htake'. unfold seed_from_key. rewrite Htake'.
    apply int_from_bytes_big_8. }
  split; [exact Hseed|]. split.
  { pose proof (int_from_bytes_big_range _ Hb) as Hrange.
    rewrite int_from_bytes_big_8 in Hrange. exact Hrange. }
  split; [unfold traversal_order; rewrite Hseed; reflexivity|].
  split; [|split; [|split]].
  - intros passphrase' Hb' Hlen'. split; [|apply Hsame].
    intros Heq. apply int_from_bytes_big_inj.
    + apply Forall_take, Hb'.
    + exact Hb.
    + rewrite length_take. cbn [length]. lia.
    + rewrite int_from_bytes_big_8. exact Heq.
  - intros passphrase' Htake'.
    assert (Horder : forall h w,
               traversal_order h w passphrase' = traversal_order h w passphrase).
    { intros h w. unfold traversal_order. rewrite (Hsame _ Htake'), Hseed. reflexivity. }
    assert (Hvalue : embed_bits cover bits passphrase' = embed_bits cover bits passphrase)
      by (unfold embed_bits; rewrite Horder; reflexivity).
    split; [apply Hsame, Htake'|]. split; [apply Horder|]. split; [exact Hvalue|].
    rewrite !(embed_bits_obj_pure mem arr cover) by exact Hcover.
    rewrite Hvalue. reflexivity.
  - intros e Hvalue. rewrite (embed_bits_obj_pure mem arr cover) by exact Hcover.
    rewrite Hvalue. reflexivity.
  - intros stego Hvalue.
    pose proof (lookup_lt_Some _ _ _ Hcover) as Harr.
    assert (Hcover1 : (mem ++ [stego]) !! arr = Some cover)
      by (rewrite lookup_app_l by exact Harr; exact Hcover).
    assert (Hheld : (mem ++ [stego]) !! length mem = Some stego)
      by (apply list_lookup_middle; reflexivity).
    exists (length mem), (mem ++ [stego]),
           (length (mem ++ [stego])), ((mem ++ [stego]) ++ [stego]).
    split; [rewrite (embed_bits_obj_pure mem arr cover), Hvalue by exact Hcover;
            reflexivity|].
    split; [rewrite (embed_bits_obj_pure (mem ++ [stego]) arr cover), Hvalue
              by exact Hcover1; reflexivity|].
    rewrite length_app. cbn [length].
    split; [lia|]. split; [lia|]. split; [lia|].
    split; [exact Hcover1|].
    split; [rewrite lookup_app_l by (rewrite length_app; cbn; lia); exact Hcover1|].
    split.
    { intros l a Hl. split; [|apply lookup_app_l_Some]; apply lookup_app_l_Some, Hl. }
    split; [exact Hheld|].
    split; [rewrite lookup_app_l by (rewrite length_app; cbn; lia); exact Hheld|].
    apply list_lookup_middle. rewrite length_app. reflexivity.
Qed.

Lemma keyed_hashlib_digest (m : list Z) :
  Forall is_byte (@sha256 keyed_hashlib m) /\ length (@sha256 keyed_hashlib m) = 32.
Proof.
  cbn [sha256 keyed_hashlib]. split.
  - repeat (apply Forall_app; split);
      try (apply Forall_replicate; unfold is_byte; lia);
      apply List.Forall_cons; try apply List.Forall_nil;
      unfold is_byte; apply Z.mod_pos_bound; lia.
  - rewrite !length_app, !length_replicate. reflexivity.
Qed.

Lemma embed_bits_deterministic_witness :
  @seed_from_key keyed_hashlib "k" = 1%Z /\
  @traversal_order keyed_hashlib rotating_rng 4 4 "k"
  = @rng_shuffle rotating_rng 1 (seq 0 16) /\
  @sha256 keyed_hashlib (encode_utf8 "j") <> @sha256 keyed_hashlib (encode_utf8 "k") /\
  @embed_bits keyed_hashlib rotating_rng (checker 4 4) [1; 0]%Z "j"
  = @embed_bits keyed_hashlib rotating_rng (checker 4 4) [1; 0]%Z "k" /\
  @seed_from_key keyed_hashlib "key" <> 1%Z /\
  @embed_bits keyed_hashlib rotating_rng (checker 4 4) [1; 0]%Z "key"
  <> @embed_bits keyed_hashlib rotating_rng (checker 4 4) [1; 0]%Z "k" /\
  exists stego stego1 mem1 stego2 mem2,
    stego <> checker 4 4 /\
    @embed_bits_obj keyed_hashlib rotating_rng [checker 4 4] 0 [1; 0]%Z "k"
    = Ok (stego1, mem1) /\
    @embed_bits_obj keyed_hashlib rotating_rng mem1 0 [1; 0]%Z "k" = Ok (stego2, mem2) /\
    stego2 <> stego1 /\ mem2 !! 0 = Some (checker 4 4) /\
    mem2 !! stego1 = Some stego /\ mem2 !! stego2 = Some stego.
Proof.
  assert (Hb : Forall is_byte [0; 0; 0; 0; 0; 0; 0; 1]%Z)
    by (repeat (apply List.Forall_cons; [unfold is_byte; lia|]); apply List.Forall_nil).
  destruct (@embed_bits_deterministic keyed_hashlib rotating_rng [checker 4 4] 0
              (checker 4 4) [1; 0]%Z "k" 0 0 0 0 0 0 0 1
              (replicate 23 0%Z ++ [107]%Z) eq_refl eq_refl Hb)
    as (Hseed & _ & Horder & Hinj & Hsame & _ & Hruns).
  split; [exact Hseed|]. split; [exact Horder|].
  split; [vm_compute; discriminate|].
  split; [exact (proj1 (proj2 (proj2 (Hsame "j"%string eq_refl))))|].
  split.
  { intros Heq. apply (Hinj "key"%string) in Heq.
    - vm_compute in Heq. discriminate.
    - apply keyed_hashlib_digest.
    - rewrite (proj2 (keyed_hashlib_digest _)). lia. }
  split; [vm_compute; discriminate|].
  destruct (@embed_bits keyed_hashlib rotating_rng (checker 4 4) [1; 0]%Z "k")
    as [stego|e] eqn:Hvalue; [|vm_compute in Hvalue; discriminate].
  destruct (Hruns stego eq_refl)
    as (stego1 & mem1 & stego2 & mem2 & Hrun1 & Hrun2 & _ & _ & Hnew & _ & Hcover
        & _ & _ & Hheld1 & Hheld2).
  exists stego, stego1, mem1, stego2, mem2.
  split; [vm_compute in Hvalue; injection Hvalue as <-; vm_compute; discriminate|].
  split; [exact Hrun1|]. split; [exact Hrun2|]. split; [exact Hnew|].
  split; [exact Hcover|]. split; [exact Hheld1 | exact Hheld2].
Defined.

(** ** Loops *)

(** Invariant rule for [for_each]: a body that keeps [I], returns only
    results in [Q] and does not raise on the elements of the list gives a
    loop that does the same. *)
Lemma for_each_invariant {A S R} (P : A -> Prop) (I : S -> Prop) (Q : R -> Prop)
    (body : A -> S -> step S R) :
  (forall x s, P x -> I s ->
     match body x s with Next s' => I s' | Return r => Q r | Fail _ => False end) ->
  forall xs s, Forall P xs -> I s ->
    match for_each xs body s with Next s' => I s' | Return r => Q r | Fail _ => False end.
Proof.
  intros Hbody xs. induction xs as [|x xs IH]; intros s Hxs Hs; cbn [for_each].
  - exact Hs.
  - apply Forall_cons_1 in Hxs as [Hx Hxs].
    specialize (Hbody x s Hx Hs).
    destruct (body x s) as [s'|r|e]; [apply IH; assumption | exact Hbody | exact Hbody].
Qed.

Lemma for_each_app_return {A S R} (xs ys : list A) (body : A -> S -> step S R)
    (s : S) (r : R) :
  for_each xs body s = Return r -> for_each (xs ++ ys) body s = Return r.
Proof.
  revert s. induction xs as [|x xs IH]; intros s; cbn [for_each app].
  - discriminate.
  - destruct (body x s) as [s'| |]; [apply IH | trivial | trivial].
Qed.

(** ** Bit packing *)

Lemma testbit_above (v n k : Z) :
  (0 <= v < 2 ^ n)%Z -> (0 <= n <= k)%Z -> Z.testbit v k = false.
Proof.
  intros Hv Hk. rewrite <- (Z.mod_small v (2 ^ n)) by exact Hv.
  apply Z.mod_pow2_bits_high. lia.
Qed.

Lemma lor_double_bit (v bit : Z) :
  is_bit bit -> Z.lor (Z.shiftl v 1) bit = (2 * v + bit)%Z.
Proof.
  intros Hb. rewrite Z.shiftl_mul_pow2 by lia. change (2 ^ 1)%Z with 2%Z.
  rewrite (Z.mul_comm v 2).
  destruct Hb as [-> | ->].
  - rewrite Z.lor_0_r. lia.
  - apply Z.bits_inj'. intros k Hk. rewrite Z.lor_spec.
    destruct (Z.eq_dec k 0%Z) as [-> | Hne].
    + rewrite Z.testbit_odd_0. apply orb_true_r.
    + rewrite (testbit_above 1 1 k) by lia. rewrite orb_false_r.
      replace k with (Z.succ (k - 1)%Z) by lia.
      rewrite Z.testbit_even_succ, Z.testbit_odd_succ by lia. reflexivity.
Qed.

Lemma pack_msb_first_snoc (bits : list Z) (bit : Z) :
  pack_msb_first (bits ++ [bit]) = Z.lor (Z.shiftl (pack_msb_first bits) 1) bit.
Proof. unfold pack_msb_first. rewrite fold_left_app. reflexivity. Qed.

Lemma pack_msb_first_range (bits : list Z) :
  Forall is_bit bits -> (0 <= pack_msb_first bits < 2 ^ Z.of_nat (length bits))%Z.
Proof.
  induction bits as [|bit bits IH] using rev_ind; intros Hb.
  - cbn. lia.
  - apply Forall_app in Hb as [Hb Hx]. apply Forall_cons_1 in Hx as [Hx _].
    specialize (IH Hb).
    rewrite pack_msb_first_snoc, lor_double_bit, length_app by exact Hx.
    cbn [length].
    replace (Z.of_nat (length bits + 1)) with (Z.succ (Z.of_nat (length bits))) by lia.
    rewrite Z.pow_succ_r by lia. destruct Hx; subst; lia.
Qed.

(** The store of [embed_bits]: clearing the low [take] bits of a byte and
    or-ing in a value below [2^take] leaves a byte with the same bits at
    and above any position [depth >= take]. *)
Lemma embed_store_frame (y value : Z) (take_ : nat) (depth : Z) :
  is_byte y -> (0 <= value < 2 ^ Z.of_nat take_)%Z -> (Z.of_nat take_ <= depth)%Z ->
  let mask := (Z.shiftl 1 (Z.of_nat take_) - 1)%Z in
  let y' := to_uint8 (Z.lor (Z.land y (Z.lnot mask)) value) in
  is_byte y' /\ Z.shiftr y' depth = Z.shiftr y depth.
Proof.
  intros Hy Hv Hd mask y'. split.
  - subst y'. unfold to_uint8, is_byte. apply Z.mod_pos_bound. lia.
  - apply Z.bits_inj'. intros k Hk.
    rewrite !Z.shiftr_spec by lia.
    subst y'. unfold to_uint8. change 256%Z with (2 ^ 8)%Z.
    destruct (Z_lt_ge_dec (k + depth)%Z 8%Z) as [Hlt|Hge].
    + rewrite Z.mod_pow2_bits_low by lia.
      rewrite Z.lor_spec, Z.land_spec, Z.lnot_spec by lia.
      subst mask. change (Z.shiftl 1 (Z.of_nat take_) - 1)%Z with (Z.ones (Z.of_nat take_)).
      rewrite Z.ones_spec_high by lia.
      rewrite (testbit_above value (Z.of_nat take_)) by lia.
      cbn [negb]. rewrite andb_true_r, orb_false_r. reflexivity.
    + rewrite Z.mod_pow2_bits_high by lia.
      symmetry. apply (testbit_above y 8%Z); [exact Hy | lia].
Qed.

(** ** The embedding loop *)

Lemma length_np_repeat (bits : list Z) (n : nat) :
  length (np_repeat bits n) = n * length bits.
Proof.
  induction bits as [|b bits IH]; cbn [np_repeat length]; [lia|].
  rewrite length_app, length_replicate, IH. lia.
Qed.

Lemma Forall_np_repeat (P : Z -> Prop) (bits : list Z) (n : nat) :
  Forall P bits -> Forall P (np_repeat bits n).
Proof.
  induction 1 as [|b bits Hb _ IH]; cbn [np_repeat]; [constructor|].
  apply Forall_app. split; [|exact IH]. apply Forall_replicate, Hb.
Qed.

Lemma length_slice {A} (a : list A) (i j : nat) :
  j <= length a -> length (slice a i j) = j - i.
Proof. intros Hj. unfold slice. rewrite length_take, length_drop. lia. Qed.

Lemma Forall_slice {A} (P : A -> Prop) (a : list A) (i j : nat) :
  Forall P a -> Forall P (slice a i j).
Proof. intros Ha. unfold slice. apply Forall_take, Forall_drop, Ha. Qed.

Lemma channel_index_inj (idx ch idx' ch' : nat) :
  ch < 3 -> ch' < 3 -> idx * 3 + ch = idx' * 3 + ch' -> idx = idx' /\ ch = ch'.
Proof. lia. Qed.

Section EmbedLoop.
Variables (n : nat) (depth_map flat0 encoded_bits : list Z).
Hypothesis Hdepth_map : length depth_map = n.
Hypothesis Hbytes0 : Forall is_byte flat0.

Lemma embed_inv_init : length flat0 = n * 3 -> embed_inv n depth_map flat0 encoded_bits flat0.
Proof.
  intros Hlen. split; [exact Hlen|]. intros _ idx ch depth x y _ _ Hx Hy.
  unfold channel_at in *. rewrite Hx in Hy. injection Hy as <-.
  split; [|reflexivity].
  exact (proj1 (Forall_lookup _ _) Hbytes0 _ _ Hx).
Qed.

Lemma embed_channel_inv (depth : Z) (idx ch : nat) (flat : list Z) (bit_idx : nat) :
  idx < n -> ch < 3 -> depth_map !! idx = Some depth -> (0 < depth)%Z ->
  embed_inv n depth_map flat0 encoded_bits flat ->
  match embed_channel encoded_bits depth idx ch (flat, bit_idx) with
  | Next (flat', _) => embed_inv n depth_map flat0 encoded_bits flat'
  | Return flat' => embed_inv n depth_map flat0 encoded_bits flat'
  | Fail _ => False
  end.
Proof.
  intros Hidx Hch Hd Hpos [Hlen Hframe]. unfold embed_channel.
  destruct (Nat.leb_spec (length encoded_bits) bit_idx) as [Hdone|Hmore];
    [split; assumption|].
  set (take_ := Z.to_nat (Z.min depth (Z.of_nat (length encoded_bits - bit_idx)))).
  assert (Htake : 0 < take_ /\ bit_idx + take_ <= length encoded_bits /\
                  (Z.of_nat take_ <= depth)%Z) by (subst take_; lia).
  destruct Htake as (Htake0 & Htake1 & Htake2).
  unfold channel_at at 1.
  destruct (lookup_lt_is_Some_2 flat (idx * 3 + ch) ltac:(lia)) as [y Hy].
  rewrite Hy. split; [rewrite length_insert; exact Hlen|].
  intros Hbits idx' ch' depth' x y' Hch' Hd' Hx Hy'.
  specialize (Hframe Hbits). unfold channel_at in Hy'.
  destruct (decide (idx * 3 + ch = idx' * 3 + ch')) as [Heq|Hne].
  - destruct (channel_index_inj _ _ _ _ Hch Hch' Heq) as [<- <-].
    rewrite list_lookup_insert_eq in Hy' by lia. injection Hy' as <-.
    assert (depth' = depth) as -> by congruence.
    destruct (Hframe idx ch depth x y Hch Hd Hx Hy) as [Hyb Hyx].
    pose proof (pack_msb_first_range (slice encoded_bits bit_idx (bit_idx + take_))
                  (Forall_slice _ _ _ _ Hbits)) as Hvalue.
    rewrite length_slice in Hvalue by lia.
    replace (bit_idx + take_ - bit_idx) with take_ in Hvalue by lia.
    rewrite <- Hyx. apply embed_store_frame; [exact Hyb | exact Hvalue | exact Htake2].
  - rewrite list_lookup_insert_ne in Hy' by exact Hne.
    exact (Hframe idx' ch' depth' x y' Hch' Hd' Hx Hy').
Qed.

Lemma embed_pixel_inv (idx : nat) (st : list Z * nat) :
  idx < n -> embed_inv n depth_map flat0 encoded_bits st.1 ->
  match embed_pixel depth_map encoded_bits idx st with
  | Next st' => embed_inv n depth_map flat0 encoded_bits st'.1
  | Return flat' => embed_inv n depth_map flat0 encoded_bits flat'
  | Fail _ => False
  end.
Proof.
  intros Hidx Hinv. unfold embed_pixel.
  destruct (lookup_lt_is_Some_2 depth_map idx ltac:(lia)) as [depth Hd].
  rewrite Hd. destruct (Z.leb_spec depth 0) as [_|Hpos]; [exact Hinv|].
  apply (for_each_invariant (fun ch => ch < 3) (fun st => embed_inv n depth_map flat0 encoded_bits st.1)
           (embed_inv n depth_map flat0 encoded_bits));
    [| apply Forall_seq; intros; lia | exact Hinv].
  intros ch [flat bit_idx] Hch Hflat.
  pose proof (embed_channel_inv depth idx ch flat bit_idx Hidx Hch Hd Hpos Hflat) as Hc.
  destruct (embed_channel _ _ _ _ _) as [[flat' bit_idx']| |]; exact Hc.
Qed.

Lemma embed_loop_inv (order : list nat) :
  Forall (fun idx => idx < n) order -> length flat0 = n * 3 ->
  match for_each order (embed_pixel depth_map encoded_bits) (flat0, 0) with
  | Next st' => embed_inv n depth_map flat0 encoded_bits st'.1
  | Return flat' => embed_inv n depth_map flat0 encoded_bits flat'
  | Fail _ => False
  end.
Proof.
  intros Horder Hlen.
  apply (for_each_invariant (fun idx => idx < n) (fun st => embed_inv n depth_map flat0 encoded_bits st.1)
           (embed_inv n depth_map flat0 encoded_bits));
    [| exact Horder | apply embed_inv_init, Hlen].
  intros idx st Hidx Hst. apply embed_pixel_inv; assumption.
Qed.
End EmbedLoop.

Lemma traversal_order_bound `{Hashlib} `{NumpyRandom} (h w : nat) (passphrase : string) :
  shuffle_permutes ->
  Forall (fun idx => idx < h * w) (traversal_order h w passphrase).
Proof.
  intros Hperm. unfold traversal_order.
  eapply Permutation_Forall; [symmetry; apply Hperm|].
  apply Forall_seq. intros; lia.
Qed.

(** With a well-formed cover and a generator that permutes, [embed_bits]
    either refuses the payload up front or returns an array of the shape
    of the cover that satisfies the loop invariant. *)
Lemma embed_bits_cases `{Hashlib} `{NumpyRandom} (arr : image) (bits : list Z)
    (passphrase : string) :
  wf_image arr -> shuffle_permutes ->
  let depth_map := compute_edge_depth_map arr in
  let encoded_bits := np_repeat bits REDUNDANCY in
  if (np_sum depth_map * 3 <? Z.of_nat (length encoded_bits))%Z
  then embed_bits arr bits passphrase = Raise CapacityExceeded
  else exists flat,
      embed_bits arr bits passphrase
      = Ok {| height := height arr; width := width arr; pixels := flat |} /\
      embed_inv (height arr * width arr) depth_map (pixels arr) encoded_bits flat.
Proof.
  intros (Hh & Hw & Hlen & Hbytes) Hperm depth_map encoded_bits.
  unfold embed_bits. fold depth_map. fold encoded_bits.
  destruct (_ <? _)%Z; [reflexivity|].
  pose proof (embed_loop_inv (height arr * width arr) depth_map (pixels arr)
                encoded_bits (length_compute_edge_depth_map arr) Hbytes
                (traversal_order (height arr) (width arr) passphrase)
                (traversal_order_bound _ _ _ Hperm) Hlen) as Hloop.
  destruct (for_each _ _ _) as [[flat bit_idx]|flat|e]; [| |contradiction];
    exists flat; split; trivial.
Qed.

Lemma wf_image_solid (h w : nat) (v : Z) :
  0 < h -> 0 < w -> is_byte v -> wf_image (solid h w v).
Proof.
  intros Hh Hw Hv. unfold wf_image, solid. cbn [height width pixels].
  split; [exact Hh|]. split; [exact Hw|]. split; [apply length_replicate|].
  apply Forall_replicate, Hv.
Qed.

Lemma sample_rng_permutes : @shuffle_permutes sample_rng.
Proof. intros seed order. reflexivity. Qed.

Lemma np_sum_depth_map_nonneg (arr : image) :
  (0 <= np_sum (compute_edge_depth_map arr))%Z.
Proof.
  assert (Hall : Forall (fun d => d = 1%Z \/ d = 2%Z) (compute_edge_depth_map arr)).
  { apply Forall_lookup. intros idx d Hd. exact (depth_map_one_or_two _ _ _ Hd). }
  induction Hall as [|d l Hd _ IH]; cbn [np_sum foldr]; [lia|].
  unfold np_sum in IH. lia.
Qed.

(** C2: [embed_bits] raises CapacityExceeded exactly when the tripled bit
    stream is longer than [sum(depth_map) * 3], and otherwise returns an
    array; the test precedes the copy and the loop, so a refused payload
    touches no pixel.  Hence a frame of exactly [capacity_bytes] bytes is
    embedded and a frame of [capacity_bytes + 1] bytes is refused. *)
Theorem embed_bits_capacity_check `{Hashlib} `{NumpyRandom} (arr : image)
    (bits : list Z) (passphrase : string) :
  wf_image arr -> shuffle_permutes ->
  let capacity_bits := (np_sum (compute_edge_depth_map arr) * 3)%Z in
  (embed_bits arr bits passphrase = Raise CapacityExceeded <->
     (capacity_bits < Z.of_nat (length (np_repeat bits REDUNDANCY)))%Z) /\
  (~ (capacity_bits < Z.of_nat (length (np_repeat bits REDUNDANCY)))%Z ->
     exists stego, embed_bits arr bits passphrase = Ok stego) /\
  (forall (stego : image) (used_bits : nat) (payload : list Z),
      let limit := capacity_bytes (compute_metrics arr stego used_bits) in
      (length payload = limit ->
         exists stego', embed_bits arr (bits_from_bytes payload) passphrase = Ok stego') /\
      (length payload = limit + 1 ->
         embed_bits arr (bits_from_bytes payload) passphrase = Raise CapacityExceeded)).
Proof.
  intros Hwf Hperm capacity_bits.
  assert (Hcases : forall b,
             ((capacity_bits < Z.of_nat (length (np_repeat b REDUNDANCY)))%Z ->
              embed_bits arr b passphrase = Raise CapacityExceeded) /\
             (~ (capacity_bits < Z.of_nat (length (np_repeat b REDUNDANCY)))%Z ->
              exists stego, embed_bits arr b passphrase = Ok stego)).
  { intros b. pose proof (embed_bits_cases arr b passphrase Hwf Hperm) as Hc.
    cbn zeta in Hc. fold capacity_bits in Hc.
    destruct (Z.ltb_spec capacity_bits (Z.of_nat (length (np_repeat b REDUNDANCY))))
      as [Hlt|Hge].
    - split; [intros _; exact Hc | intros Hn; contradiction].
    - split; [intros Hlt; lia|]. intros _. destruct Hc as (flat & Hflat & _).
      eexists. exact Hflat. }
  split; [|split].
  - split; [|apply Hcases].
    intros Hraise.
    destruct (Z_lt_ge_dec capacity_bits (Z.of_nat (length (np_repeat bits REDUNDANCY))))
      as [Hlt|Hge]; [exact Hlt|].
    destruct (proj2 (Hcases bits) ltac:(lia)) as [stego Hok]. congruence.
  - apply Hcases.
  - intros stego used_bits payload limit.
    pose proof (np_sum_depth_map_nonneg arr) as Hsum.
    assert (Hcb : limit = Z.to_nat (np_sum (compute_edge_depth_map arr)) / 8).
    { subst limit. cbn [compute_metrics capacity_bytes].
      unfold REDUNDANCY. f_equal.
      rewrite Z2Nat.inj_mul by lia. apply Nat.div_mul. lia. }
    set (total := Z.to_nat (np_sum (compute_edge_depth_map arr))) in *.
    assert (Hcap : capacity_bits = Z.of_nat (3 * total))
      by (subst capacity_bits total; lia).
    pose proof (Nat.div_mod_eq total 8) as Hdiv.
    pose proof (Nat.mod_upper_bound total 8 ltac:(lia)) as Hmod.
    split; intros Hlen; apply Hcases;
      rewrite length_np_repeat, length_bits_from_bytes, Hlen, Hcb, Hcap;
      unfold REDUNDANCY; lia.
Qed.

Lemma embed_bits_capacity_check_witness :
  (exists stego, @embed_bits sample_hashlib sample_rng (solid 4 4 0%Z)
                   (bits_from_bytes [83; 84]%Z) "k" = Ok stego) /\
  @embed_bits sample_hashlib sample_rng (solid 4 4 0%Z)
    (bits_from_bytes [83; 84; 71]%Z) "k" = Raise CapacityExceeded.
Proof.
  assert (Hwf : wf_image (solid 4 4 0%Z))
    by (apply wf_image_solid; unfold is_byte; lia).
  pose proof sample_rng_permutes as Hperm.
  destruct (@embed_bits_capacity_check sample_hashlib sample_rng (solid 4 4 0%Z)
              [] "k" Hwf Hperm) as (_ & _ & Hboundary).
  split.
  - exact (proj1 (Hboundary (solid 4 4 0%Z) 0 [83; 84]%Z) eq_refl).
  - exact (proj2 (Hboundary (solid 4 4 0%Z) 0 [83; 84; 71]%Z) eq_refl).
Defined.

(** C6: a successful embed returns an array of the shape of the cover in
    which every channel is a byte that agrees with the cover on all bits
    from position [depth[pixel]] upwards, where the depth is at most 2:
    only the lowest one or two bits of a channel can differ. *)
Theorem embed_bits_frame `{Hashlib} `{NumpyRandom} (arr : image) (bits : list Z)
    (passphrase : string) (stego : image) :
  wf_image arr -> shuffle_permutes -> Forall is_bit bits ->
  embed_bits arr bits passphrase = Ok stego ->
  height stego = height arr /\ width stego = width arr /\
  length (pixels stego) = length (pixels arr) /\
  forall idx ch depth x,
    ch < 3 -> compute_edge_depth_map arr !! idx = Some depth ->
    channel_at (pixels arr) idx ch = Some x ->
    exists y, channel_at (pixels stego) idx ch = Some y /\ is_byte y /\
              (1 <= depth <= 2)%Z /\
              Z.shiftr y depth = Z.shiftr x depth /\
              forall k, (depth <= k)%Z -> Z.testbit y k = Z.testbit x k.
Proof.
  intros Hwf Hperm Hbits Hok.
  pose proof (embed_bits_cases arr bits passphrase Hwf Hperm) as Hc. cbn zeta in Hc.
  destruct (_ <? _)%Z; [unfold CapacityExceeded in Hc; congruence|].
  destruct Hc as (flat & Hflat & Hlen & Hframe).
  rewrite Hflat in Hok. injection Hok as <-. cbn [height width pixels].
  destruct Hwf as (_ & _ & Hlen0 & _).
  split; [reflexivity|]. split; [reflexivity|]. split; [lia|].
  intros idx ch depth x Hch Hd Hx.
  specialize (Hframe (Forall_np_repeat _ _ _ Hbits)).
  assert (Hi : idx * 3 + ch < length flat).
  { apply lookup_lt_Some in Hx. lia. }
  destruct (lookup_lt_is_Some_2 flat _ Hi) as [y Hy].
  exists y. split; [exact Hy|].
  destruct (Hframe idx ch depth x y Hch Hd Hx Hy) as [Hyb Hshift].
  split; [exact Hyb|]. split; [pose proof (depth_map_one_or_two _ _ _ Hd); lia|].
  split; [exact Hshift|].
  intros k Hk.
  assert (Hdepth : (0 <= depth)%Z) by (pose proof (depth_map_one_or_two _ _ _ Hd); lia).
  replace k with ((k - depth) + depth)%Z by lia.
  rewrite <- !Z.shiftr_spec by lia. rewrite Hshift. reflexivity.
Qed.

Lemma embed_bits_frame_witness :
  exists stego,
    @embed_bits sample_hashlib sample_rng (solid 4 4 255%Z) [0; 1]%Z "k" = Ok stego /\
    height stego = 4 /\ width stego = 4 /\ length (pixels stego) = 48.
Proof.
  assert (Hwf : wf_image (solid 4 4 255%Z))
    by (apply wf_image_solid; unfold is_byte; lia).
  pose proof sample_rng_permutes as Hperm.
  assert (Hbits : Forall is_bit [0; 1]%Z) by (repeat constructor; unfold is_bit; lia).
  destruct (@embed_bits sample_hashlib sample_rng (solid 4 4 255%Z) [0; 1]%Z "k")
    as [stego|e] eqn:E; [|vm_compute in E; discriminate].
  exists stego. split; [reflexivity|].
  destruct (@embed_bits_frame sample_hashlib sample_rng _ _ _ _ Hwf Hperm Hbits E)
    as (Hh & Hw & Hl & _).
  split; [exact Hh|]. split; [exact Hw|]. exact Hl.
Defined.

(** ** The extraction loop *)

(** Invariant rule with a budget: every iteration may advance the measure
    [m] by at most its cost, and a [return] is judged against the budget
    spent so far. *)
Lemma for_each_budget {A S R} (P : A -> Prop) (I : S -> Prop) (Q : nat -> R -> Prop)
    (cost : A -> nat) (m : S -> nat) (body : A -> S -> step S R) :
  (forall b b' r, b <= b' -> Q b r -> Q b' r) ->
  (forall x s, P x -> I s ->
     match body x s with
     | Next s' => I s' /\ m s' <= m s + cost x
     | Return r => Q (m s + cost x) r
     | Fail _ => False
     end) ->
  forall xs s, Forall P xs -> I s ->
    match for_each xs body s with
    | Next s' => I s' /\ m s' <= m s + sum_list (cost <$> xs)
    | Return r => Q (m s + sum_list (cost <$> xs)) r
    | Fail _ => False
    end.
Proof.
  intros Hmono Hbody xs. induction xs as [|x xs IH]; intros s Hxs Hs.
  - cbn. split; [exact Hs | lia].
  - apply Forall_cons_1 in Hxs as [Hx Hxs].
    specialize (Hbody x s Hx Hs).
    rewrite fmap_cons. cbn [for_each].
    change (sum_list (cost x :: (cost <$> xs)))
      with (cost x + sum_list (cost <$> xs)).
    destruct (body x s) as [s'|r|e].
    + destruct Hbody as [Hs' Hm]. specialize (IH s' Hxs Hs').
      destruct (for_each xs body s') as [s''|r|e]; [| |exact IH].
      * destruct IH as [Hs'' Hm']. split; [exact Hs''|]. lia.
      * eapply Hmono; [|exact IH]. lia.
    + eapply Hmono; [|exact Hbody]. lia.
    + exact Hbody.
Qed.

Lemma length_last_n_unpackbits8 (take_ : nat) (v : Z) :
  0 < take_ <= 8 -> length (last_n take_ (unpackbits8 v)) = take_.
Proof.
  intros Ht. unfold last_n. destruct (Nat.eqb_spec take_ 0) as [->|_]; [lia|].
  rewrite length_drop, length_unpackbits8. lia.
Qed.

Lemma slice_assign_exact (a v : list Z) (i j : nat) :
  i <= j -> j <= length a -> length v = j - i ->
  slice_assign a i j v = Ok (take i a ++ v ++ drop j a).
Proof.
  intros Hij Hj Hv. unfold slice_assign.
  replace (i `min` length a) with i by lia.
  replace (i `max` (j `min` length a)) with j by lia.
  rewrite Hv, Nat.eqb_refl. reflexivity.
Qed.

Lemma extract_post_mono (total b b' : nat) (bits : list Z) :
  b <= b' -> extract_post total b bits -> extract_post total b' bits.
Proof.
  intros Hb (raw & Hbits & Hlen & Htotal). exists raw. repeat split; trivial. lia.
Qed.

Section ExtractLoop.
Variables (n total : nat) (depth_map flat : list Z).
Hypothesis Hdepth_map : length depth_map = n.
Hypothesis Hdepth : forall idx d, depth_map !! idx = Some d -> d = 1%Z \/ d = 2%Z.
Hypothesis Hflat : length flat = n * 3.

Lemma extract_channel_inv (depth : Z) (idx ch : nat) (st : list Z * nat) :
  idx < n -> ch < 3 -> depth = 1%Z \/ depth = 2%Z -> extract_inv total st ->
  match extract_channel flat depth idx ch st with
  | Next st' => extract_inv total st' /\ st'.2 <= st.2 + Z.to_nat depth
  | Return bits => extract_post total (st.2 + Z.to_nat depth) bits
  | Fail _ => False
  end.
Proof.
  destruct st as [raw_bits bit_idx]. intros Hidx Hch Hd [Hlen Hzero].
  cbn [fst snd] in *. unfold extract_channel.
  destruct (Nat.leb_spec (length raw_bits) bit_idx) as [Hdone|Hmore].
  { exists raw_bits. repeat split; trivial. lia. }
  set (take_ := Z.to_nat (Z.min depth (Z.of_nat (length raw_bits - bit_idx)))).
  assert (Htake : 0 < take_ <= 8 /\ bit_idx + take_ <= length raw_bits /\
                  take_ <= Z.to_nat depth) by (subst take_; lia).
  destruct Htake as (Htake0 & Htake1 & Htake2).
  unfold channel_at.
  destruct (lookup_lt_is_Some_2 flat (idx * 3 + ch) ltac:(lia)) as [x Hx].
  rewrite Hx.
  rewrite slice_assign_exact
    by (rewrite ?length_last_n_unpackbits8; lia).
  cbn [fst snd]. split; [|lia]. split; cbn [fst snd].
  - rewrite !length_app, length_take, length_drop, length_last_n_unpackbits8; lia.
  - rewrite app_assoc, drop_app_length'
      by (rewrite length_app, length_take, length_last_n_unpackbits8; lia).
    rewrite <- drop_drop, Hzero, drop_replicate.
    f_equal. lia.
Qed.

Lemma extract_pixel_inv (idx : nat) (st : list Z * nat) :
  idx < n -> extract_inv total st ->
  match extract_pixel depth_map flat idx st with
  | Next st' => extract_inv total st' /\ st'.2 <= st.2 + pixel_cost depth_map idx
  | Return bits => extract_post total (st.2 + pixel_cost depth_map idx) bits
  | Fail _ => False
  end.
Proof.
  intros Hidx Hinv. unfold extract_pixel, pixel_cost.
  destruct (lookup_lt_is_Some_2 depth_map idx ltac:(lia)) as [depth Hd].
  rewrite Hd.
  pose proof (Hdepth _ _ Hd) as H12.
  destruct (Z.leb_spec depth 0) as [Hle|_]; [lia|].
  pose proof (for_each_budget (fun ch => ch < 3) (extract_inv total)
                (extract_post total) (fun _ => Z.to_nat depth) snd
                (extract_channel flat depth idx) (extract_post_mono total)) as Hrule.
  specialize (Hrule (fun ch s Hch Hs => extract_channel_inv depth idx ch s Hidx Hch H12 Hs)
                    (seq 0 3) st ltac:(apply Forall_seq; intros; lia) Hinv).
  cbn [seq fmap list_fmap sum_list] in Hrule.
  replace (Z.to_nat depth + (Z.to_nat depth + (Z.to_nat depth + 0)))
    with (3 * Z.to_nat depth) in Hrule by lia.
  exact Hrule.
Qed.

Lemma extract_loop_inv (order : list nat) :
  Forall (fun idx => idx < n) order ->
  match for_each order (extract_pixel depth_map flat) (replicate total 0%Z, 0) with
  | Next st' => extract_inv total st' /\
                st'.2 <= sum_list (pixel_cost depth_map <$> order)
  | Return bits => extract_post total (sum_list (pixel_cost depth_map <$> order)) bits
  | Fail _ => False
  end.
Proof.
  intros Horder.
  apply (for_each_budget (fun idx => idx < n) (extract_inv total)
           (extract_post total) (pixel_cost depth_map) snd
           (extract_pixel depth_map flat) (extract_post_mono total)
           extract_pixel_inv order (replicate total 0%Z, 0) Horder).
  split; cbn [fst snd]; [apply length_replicate|].
  rewrite drop_0, Nat.sub_0_r. reflexivity.
Qed.
End ExtractLoop.

Lemma sum_pixel_cost_from (pre depth_map : list Z) :
  Forall (fun d => (0 <= d)%Z) depth_map ->
  sum_list (pixel_cost (pre ++ depth_map) <$> seq (length pre) (length depth_map))
  = 3 * Z.to_nat (np_sum depth_map).
Proof.
  intros Hpos. revert pre.
  induction Hpos as [|d depth_map Hd Hpos IH]; intros pre; [reflexivity|].
  cbn [length seq]. rewrite fmap_cons.
  change (sum_list (?x :: ?l)) with (x + sum_list l).
  unfold pixel_cost at 1. rewrite list_lookup_middle by reflexivity.
  specialize (IH (pre ++ [d])).
  rewrite <- app_assoc, length_app, Nat.add_1_r in IH. cbn [app] in IH.
  rewrite IH. cbn [np_sum foldr]. fold (np_sum depth_map).
  assert (0 <= np_sum depth_map)%Z.
  { clear -Hpos. induction Hpos as [|x l Hx _ IHl]; cbn [np_sum foldr]; [lia|].
    fold (np_sum l). lia. }
  lia.
Qed.

Lemma sum_pixel_cost (depth_map : list Z) (order : list nat) :
  Forall (fun d => (0 <= d)%Z) depth_map ->
  Permutation order (seq 0 (length depth_map)) ->
  sum_list (pixel_cost depth_map <$> order) = 3 * Z.to_nat (np_sum depth_map).
Proof.
  intros Hpos Hperm. rewrite Hperm. exact (sum_pixel_cost_from [] depth_map Hpos).
Qed.

Lemma length_decode_redundancy (k : nat) (raw : list Z) :
  length raw = k * 3 -> length (decode_redundancy raw) = k.
Proof.
  revert raw. induction k as [|k IH]; intros raw Hlen.
  - destruct raw; [reflexivity | discriminate].
  - destruct raw as [|x [|y [|z raw]]]; cbn [length] in Hlen; try lia.
    rewrite decode_redundancy_cons3. cbn [length]. rewrite IH; lia.
Qed.

Lemma decode_redundancy_zero (i k : nat) (raw : list Z) :
  length raw = k * 3 -> i < k ->
  (forall j, i * 3 <= j < i * 3 + 3 -> raw !! j = Some 0%Z) ->
  decode_redundancy raw !! i = Some 0%Z.
Proof.
  revert k raw. induction i as [|i IH]; intros k raw Hlen Hi Hzero;
    (destruct raw as [|x [|y [|z raw]]]; cbn [length] in Hlen; try lia);
    rewrite decode_redundancy_cons3.
  - pose proof (Hzero 0 ltac:(lia)) as H0. pose proof (Hzero 1 ltac:(lia)) as H1.
    pose proof (Hzero 2 ltac:(lia)) as H2. cbn in H0, H1, H2.
    injection H0 as ->. injection H1 as ->. injection H2 as ->. reflexivity.
  - cbn [lookup list_lookup]. apply (IH (k - 1)); [lia | lia |].
    intros j Hj. specialize (Hzero (3 + j) ltac:(lia)). exact Hzero.
Qed.

Lemma extract_inv_zero_tail (total : nat) (raw_bits : list Z) (bit_idx j : nat) :
  extract_inv total (raw_bits, bit_idx) -> bit_idx <= j < total ->
  raw_bits !! j = Some 0%Z.
Proof.
  intros [Hlen Hzero] Hj. cbn [fst snd] in *.
  replace j with (bit_idx + (j - bit_idx)) by lia.
  rewrite <- lookup_drop, Hzero. apply lookup_replicate_2. lia.
Qed.

(** C10: on a well-formed image [extract_bits] never raises and returns
    exactly [total_bits] bits, whatever the requested count.  When the
    loop runs out of pixels first, the buffer is left as it is: the
    positions from the cursor on, and so every position at or beyond the
    raw capacity [sum(depth_map) * 3], still hold the initial 0, and the
    decoded bits that lie entirely beyond the capacity are 0. *)
Theorem extract_bits_total `{Hashlib} `{NumpyRandom} (arr : image) (total_bits : nat)
    (passphrase : string) :
  wf_image arr -> shuffle_permutes ->
  let capacity_bits := Z.to_nat (np_sum (compute_edge_depth_map arr) * 3) in
  match extract_raw arr total_bits passphrase with
  | Next (raw_bits, supplied) =>
      length raw_bits = total_bits * REDUNDANCY /\ supplied <= capacity_bits /\
      forall j, supplied <= j < total_bits * REDUNDANCY -> raw_bits !! j = Some 0%Z
  | Return _ => total_bits * REDUNDANCY <= capacity_bits
  | Fail _ => False
  end /\
  exists bits,
    extract_bits arr total_bits passphrase = Ok bits /\ length bits = total_bits /\
    forall i, capacity_bits <= i * REDUNDANCY -> i < total_bits -> bits !! i = Some 0%Z.
Proof.
  intros (Hh & Hw & Hlen & Hbytes) Hperm capacity_bits.
  pose proof (extract_loop_inv (height arr * width arr) (total_bits * REDUNDANCY)
                (compute_edge_depth_map arr) (pixels arr)
                (length_compute_edge_depth_map arr) (depth_map_one_or_two arr) Hlen
                (traversal_order (height arr) (width arr) passphrase)
                (traversal_order_bound _ _ _ Hperm)) as Hloop.
  rewrite sum_pixel_cost in Hloop.
  2:{ apply Forall_lookup. intros idx d Hd.
      pose proof (depth_map_one_or_two _ _ _ Hd). lia. }
  2:{ rewrite length_compute_edge_depth_map. apply Hperm. }
  pose proof (np_sum_depth_map_nonneg arr) as Hsum.
  replace (3 * Z.to_nat (np_sum (compute_edge_depth_map arr))) with capacity_bits
    in Hloop by (subst capacity_bits; lia).
  unfold extract_bits, extract_raw.
  destruct (for_each _ _ _) as [[raw_bits supplied]|bits|e]; [| |contradiction].
  - destruct Hloop as [Hinv Hsupplied]. cbn [fst snd] in Hsupplied.
    split.
    + split; [exact (proj1 Hinv)|]. split; [exact Hsupplied|].
      intros j Hj. exact (extract_inv_zero_tail _ _ _ _ Hinv Hj).
    + exists (decode_redundancy raw_bits). split; [reflexivity|].
      split; [apply length_decode_redundancy; exact (proj1 Hinv)|].
      intros i Hcap Hi.
      apply (decode_redundancy_zero i total_bits); [exact (proj1 Hinv) | exact Hi |].
      intros j Hj. apply (extract_inv_zero_tail _ _ _ _ Hinv).
      unfold REDUNDANCY in *. lia.
  - destruct Hloop as (raw_bits & -> & Hraw & Hfull). cbn [fst snd] in Hfull.
    split; [lia|].
    exists (decode_redundancy raw_bits). split; [reflexivity|].
    split; [apply length_decode_redundancy; exact Hraw|].
    intros i Hcap Hi. unfold REDUNDANCY in *. lia.
Qed.

Lemma extract_bits_total_witness :
  exists bits,
    @extract_bits sample_hashlib sample_rng (solid 4 4 7%Z) 20 "k" = Ok bits /\
    length bits = 20 /\ bits !! 16 = Some 0%Z /\ bits !! 19 = Some 0%Z.
Proof.
  assert (Hwf : wf_image (solid 4 4 7%Z))
    by (apply wf_image_solid; unfold is_byte; lia).
  destruct (@extract_bits_total sample_hashlib sample_rng (solid 4 4 7%Z) 20 "k"
              Hwf sample_rng_permutes) as (_ & bits & Hok & Hlen & Hzero).
  exists bits. split; [exact Hok|]. split; [exact Hlen|]. split.
  - apply Hzero; [vm_compute; lia | lia].
  - apply Hzero; [vm_compute; lia | lia].
Defined.

(** ** The round trip on a uniform cover *)

Ltac below16 i tac :=
  do 16 (destruct i as [|i]; [tac|]); exfalso; lia.

Lemma for_each_next {A S R} (x : A) (xs : list A) (body : A -> S -> step S R) (s s' : S) :
  body x s = Next s' -> for_each (x :: xs) body s = for_each xs body s'.
Proof. intros Hx. cbn [for_each]. rewrite Hx. reflexivity. Qed.

Lemma for_each_return {A S R} (x : A) (xs : list A) (body : A -> S -> step S R)
    (s : S) (r : R) :
  body x s = Return r -> for_each (x :: xs) body s = Return r.
Proof. intros Hx. cbn [for_each]. rewrite Hx. reflexivity. Qed.

(** Once the stream is exhausted the next pixel returns. *)
Lemma embed_pixel_done (depth_map encoded_bits flat : list Z) (idx bit_idx : nat)
    (depth : Z) :
  depth_map !! idx = Some depth -> (0 < depth)%Z -> length encoded_bits <= bit_idx ->
  embed_pixel depth_map encoded_bits idx (flat, bit_idx) = Return flat.
Proof.
  intros Hd Hpos Hdone. unfold embed_pixel. rewrite Hd.
  destruct (Z.leb_spec depth 0) as [Hle|_]; [lia|].
  cbn [seq for_each embed_channel].
  destruct (Nat.leb_spec (length encoded_bits) bit_idx) as [_|Hlt]; [reflexivity | lia].
Qed.

Lemma extract_pixel_done (depth_map flat raw_bits : list Z) (idx bit_idx : nat)
    (depth : Z) :
  depth_map !! idx = Some depth -> (0 < depth)%Z -> length raw_bits <= bit_idx ->
  extract_pixel depth_map flat idx (raw_bits, bit_idx)
  = Return (decode_redundancy raw_bits).
Proof.
  intros Hd Hpos Hdone. unfold extract_pixel. rewrite Hd.
  destruct (Z.leb_spec depth 0) as [Hle|_]; [lia|].
  cbn [seq for_each extract_channel].
  destruct (Nat.leb_spec (length raw_bits) bit_idx) as [_|Hlt]; [reflexivity | lia].
Qed.

Lemma depth_map_lookup_pos (arr : image) (idx : nat) :
  idx < height arr * width arr ->
  exists depth, compute_edge_depth_map arr !! idx = Some depth /\ (0 < depth)%Z.
Proof.
  intros Hidx.
  destruct (lookup_lt_is_Some_2 (compute_edge_depth_map arr) idx) as [depth Hd].
  { rewrite length_compute_edge_depth_map. exact Hidx. }
  exists depth. split; [exact Hd|].
  pose proof (depth_map_one_or_two _ _ _ Hd). lia.
Qed.

(** The first pixel of the traversal takes the three copies of the 1. *)
Lemma embed_first_pixel (i : nat) :
  i < 16 ->
  embed_pixel (compute_edge_depth_map (solid 4 4 0%Z)) (np_repeat [1; 0]%Z REDUNDANCY) i
    (pixels (solid 4 4 0%Z), 0)
  = Next (marked_flat i, 3).
Proof. intros Hi. below16 i ltac:(vm_compute; reflexivity). Qed.

(** The second pixel takes the three copies of the 0 and keeps its value. *)
Lemma embed_second_pixel (i j : nat) :
  i < 16 -> j < 16 -> i <> j ->
  embed_pixel (compute_edge_depth_map (solid 4 4 0%Z)) (np_repeat [1; 0]%Z REDUNDANCY) j
    (marked_flat i, 3)
  = Next (marked_flat i, 6).
Proof.
  intros Hi Hj Hij.
  below16 i ltac:(below16 j ltac:(first [contradiction | vm_compute; reflexivity])).
Qed.

(** In the stego image the Laplacian no longer vanishes: the marked pixel
    has magnitude 4, the largest, and is promoted to depth 2. *)
Lemma marked_depth (i : nat) :
  i < 16 ->
  compute_edge_depth_map (marked i) !! i = Some 2%Z /\
  compute_edge_depth_map (solid 4 4 0%Z) !! i = Some 1%Z.
Proof. intros Hi. below16 i ltac:(vm_compute; split; reflexivity). Qed.

(** Extraction therefore reads two bits from each channel of the first
    pixel and fills the whole buffer from it. *)
Lemma extract_first_pixel (i : nat) :
  i < 16 ->
  extract_pixel (compute_edge_depth_map (marked i)) (marked_flat i) i
    (replicate (2 * REDUNDANCY) 0%Z, 0)
  = Next ([0; 1; 0; 1; 0; 1]%Z, 6).
Proof. intros Hi. below16 i ltac:(vm_compute; reflexivity). Qed.

Lemma traversal_order_16 `{Hashlib} `{NumpyRandom} (passphrase : string) :
  shuffle_permutes ->
  exists i j k rest,
    traversal_order 4 4 passphrase = i :: j :: k :: rest /\
    i < 16 /\ j < 16 /\ k < 16 /\ i <> j.
Proof.
  intros Hperm.
  pose proof (traversal_order_bound 4 4 passphrase Hperm) as Hbound.
  assert (Hp : Permutation (traversal_order 4 4 passphrase) (seq 0 16)) by apply Hperm.
  pose proof (Permutation_length Hp) as Hlen.
  assert (Hnodup : NoDup (traversal_order 4 4 passphrase)).
  { rewrite Hp. apply NoDup_seq. }
  destruct (traversal_order 4 4 passphrase) as [|i [|j [|k rest]]];
    try discriminate Hlen.
  apply Forall_cons_1 in Hbound as [Hi Hbound].
  apply Forall_cons_1 in Hbound as [Hj Hbound].
  apply Forall_cons_1 in Hbound as [Hk _].
  exists i, j, k, rest. repeat split; trivial.
  intros ->. apply NoDup_cons_1_1 in Hnodup.
  apply Hnodup. left.
Qed.

(** C1 (the round trip fails): on the uniform 4x4 cover, with the two
    payload bits [1; 0] and any passphrase, embedding succeeds, the depth
    map recomputed from the stego image differs from the depth map of the
    cover at the first pixel of the traversal (2 instead of 1), and
    extraction returns [0; 1] instead of [1; 0]. *)
Theorem roundtrip_fails_on_uniform_cover `{Hashlib} `{NumpyRandom} (passphrase : string) :
  shuffle_permutes ->
  exists stego,
    embed_bits (solid 4 4 0%Z) [1; 0]%Z passphrase = Ok stego /\
    compute_edge_depth_map stego <> compute_edge_depth_map (solid 4 4 0%Z) /\
    extract_bits stego 2 passphrase = Ok [0; 1]%Z /\
    extract_bits stego 2 passphrase <> Ok [1; 0]%Z.
Proof.
  intros Hperm.
  destruct (traversal_order_16 passphrase Hperm)
    as (i & j & k & rest & Horder & Hi & Hj & Hk & Hij).
  exists (marked i).
  assert (Hembed : embed_bits (solid 4 4 0%Z) [1; 0]%Z passphrase = Ok (marked i)).
  { unfold embed_bits.
    change (np_sum (compute_edge_depth_map (solid 4 4 0%Z)) * 3
            <? Z.of_nat (length (np_repeat [1; 0]%Z REDUNDANCY)))%Z with false.
    cbv iota. change (height (solid 4 4 0%Z)) with 4. change (width (solid 4 4 0%Z)) with 4.
    rewrite Horder.
    rewrite (for_each_next _ _ _ _ _ (embed_first_pixel i Hi)).
    rewrite (for_each_next _ _ _ _ _ (embed_second_pixel i j Hi Hj Hij)).
    destruct (depth_map_lookup_pos (solid 4 4 0%Z) k Hk) as (depth & Hd & Hpos).
    rewrite (for_each_return _ _ _ _ _
               (embed_pixel_done _ (np_repeat [1; 0]%Z REDUNDANCY) _ k 6 depth
                  Hd Hpos ltac:(cbn; lia))).
    reflexivity. }
  assert (Hextract : extract_bits (marked i) 2 passphrase = Ok [0; 1]%Z).
  { unfold extract_bits, extract_raw.
    change (height (marked i)) with 4. change (width (marked i)) with 4.
    change (pixels (marked i)) with (marked_flat i).
    rewrite Horder.
    rewrite (for_each_next _ _ _ _ _ (extract_first_pixel i Hi)).
    destruct (depth_map_lookup_pos (marked i) j Hj) as (depth & Hd & Hpos).
    rewrite (for_each_return _ _ _ _ _
               (extract_pixel_done _ _ [0; 1; 0; 1; 0; 1]%Z j 6 depth
                  Hd Hpos ltac:(cbn; lia))).
    reflexivity. }
  split; [exact Hembed|]. split; [|split; [exact Hextract|]].
  - intros Heq. destruct (marked_depth i Hi) as [H2 H1].
    rewrite Heq in H2. congruence.
  - rewrite Hextract. discriminate.
Qed.

Lemma roundtrip_fails_on_uniform_cover_witness :
  exists stego,
    @embed_bits sample_hashlib sample_rng (solid 4 4 0%Z) [1; 0]%Z "k" = Ok stego /\
    @extract_bits sample_hashlib sample_rng stego 2 "k" = Ok [0; 1]%Z.
Proof.
  destruct (@roundtrip_fails_on_uniform_cover sample_hashlib sample_rng "k"
              sample_rng_permutes) as (stego & Hembed & _ & Hextract & _).
  exists stego. split; [exact Hembed | exact Hextract].
Defined.

(** ** Steganalysis scorer *)

Lemma fadd_NaN_r (a : float64) : fadd a NaN = NaN.
Proof. destruct a; reflexivity. Qed.

Lemma fmul_NaN_r (a : float64) : fmul a NaN = NaN.
Proof. destruct a; reflexivity. Qed.

Lemma fdiv_NaN_l (a : float64) : fdiv NaN a = NaN.
Proof. reflexivity. Qed.

Lemma fold_left_fadd_NaN (a : list float64) : fold_left fadd a NaN = NaN.
Proof. induction a as [|x a IH]; [reflexivity | exact IH]. Qed.

Lemma fsum_NaN (a : list float64) : In NaN a -> fsum a = NaN.
Proof.
  unfold fsum. generalize (Finite 0). induction a as [|x a IH]; intros acc Hin.
  - destruct Hin.
  - cbn [fold_left]. destruct Hin as [-> | Hin].
    + rewrite fadd_NaN_r. apply fold_left_fadd_NaN.
    + apply IH, Hin.
Qed.

Lemma fmean_NaN (a : list float64) : In NaN a -> fmean a = NaN.
Proof. intros Hin. unfold fmean. rewrite (fsum_NaN a Hin). reflexivity. Qed.

Lemma fold_left_fadd_finite (a : list R) (acc : R) :
  fold_left fadd (map Finite a) (Finite acc) = Finite (fold_left Rplus a acc).
Proof.
  revert acc. induction a as [|x a IH]; intros acc; [reflexivity|].
  cbn [map fold_left fadd]. apply IH.
Qed.

Lemma fold_left_Rplus_replicate (m : nat) (v acc : R) :
  fold_left Rplus (replicate m v) acc = (acc + INR m * v)%R.
Proof.
  revert acc. induction m as [|m IH]; intros acc.
  - cbn. ring.
  - cbn [replicate fold_left]. rewrite IH, S_INR. ring.
Qed.

Lemma map_replicate {A B} (f : A -> B) (m : nat) (x : A) :
  map f (replicate m x) = replicate m (f x).
Proof. induction m as [|m IH]; [reflexivity|]. cbn [replicate map]. rewrite IH. reflexivity. Qed.

Lemma INR_pos_neq (m : nat) : 0 < m -> INR m <> 0%R.
Proof. intros Hm. apply not_0_INR. lia. Qed.

(** The mean of a non-empty constant array is its entry. *)
Lemma fmean_replicate (m : nat) (v : R) :
  0 < m -> fmean (replicate m (Finite v)) = Finite v.
Proof.
  intros Hm. unfold fmean, fsum, float_of_nat.
  rewrite length_replicate, <- (map_replicate Finite).
  rewrite fold_left_fadd_finite, fold_left_Rplus_replicate.
  cbn [fdiv]. destruct (Req_dec_T (INR m) 0) as [H0|_].
  - exfalso. exact (INR_pos_neq m Hm H0).
  - f_equal. field. apply INR_pos_neq, Hm.
Qed.

(** The mean of a non-empty array of numbers is a number. *)
Lemma fmean_finite (a : list R) :
  0 < length a -> exists v, fmean (map Finite a) = Finite v.
Proof.
  intros Hm. unfold fmean, fsum, float_of_nat.
  rewrite fold_left_fadd_finite, length_map. cbn [fdiv].
  destruct (Req_dec_T (INR (length a)) 0) as [H0|_].
  - exfalso. exact (INR_pos_neq _ Hm H0).
  - eexists. reflexivity.
Qed.

(** Products with deviations that are all zero sum to zero. *)
Lemma fsum_zero_products (m : nat) (ym : list R) :
  fsum (zip_with fmul (replicate m (Finite 0)) (map Finite ym)) = Finite 0.
Proof.
  unfold fsum. revert ym. induction m as [|m IH]; intros ym; [reflexivity|].
  destruct ym as [|y ym]; [reflexivity|].
  cbn [replicate map zip_with fold_left fmul fadd].
  replace (0 + 0 * y)%R with 0%R by ring. apply IH.
Qed.

(** A zero covariance over a zero standard deviation is NaN, whether the
    scale [1 / fact] is a number or, with a single sample, infinite. *)
Lemma zero_over_zero_deviation (m : nat) :
  let fact := if m <=? 1 then Finite 0 else float_of_nat (m - 1) in
  let scale := fdiv (Finite 1) fact in
  fdiv (fmul (Finite 0) scale) (fsqrt (fmul (Finite 0) scale)) = NaN.
Proof.
  cbv zeta. destruct (Nat.leb_spec m 1) as [Hle|Hgt].
  - cbn [fdiv]. destruct (Req_dec_T 0 0) as [_|Hne]; [|contradiction].
    destruct (Req_dec_T 1 0) as [H10|_]; [lra|].
    cbn [fmul]. destruct (Req_dec_T 0 0) as [_|Hne]; [|contradiction].
    reflexivity.
  - unfold float_of_nat. cbn [fdiv].
    destruct (Req_dec_T (INR (m - 1)) 0) as [H0|_].
    { exfalso. apply (INR_pos_neq (m - 1)); [lia | exact H0]. }
    cbn [fmul fsqrt]. rewrite Rmult_0_l.
    destruct (Rlt_dec 0 0) as [Hlt|_]; [lra|].
    rewrite sqrt_0. cbn [fdiv].
    destruct (Req_dec_T 0 0) as [_|Hne]; [|contradiction].
    reflexivity.
Qed.

(** The deviations of a constant array from its mean are all zero. *)
Lemma deviations_replicate (m : nat) (b : Z) :
  0 < m ->
  map (fun v => fsub v (fmean (map float_of_Z (replicate m b))))
      (map float_of_Z (replicate m b))
  = replicate m (Finite 0).
Proof.
  intros Hm. rewrite (map_replicate float_of_Z). unfold float_of_Z.
  rewrite fmean_replicate by exact Hm.
  rewrite (map_replicate (fun v => fsub v (Finite (IZR b)))). cbn [fsub fneg fadd].
  f_equal. f_equal. ring.
Qed.

(** The deviations of a non-empty array of bytes are numbers. *)
Lemma deviations_finite (y : list Z) :
  0 < length y ->
  exists ym : list R,
    map (fun v => fsub v (fmean (map float_of_Z y))) (map float_of_Z y) = map Finite ym.
Proof.
  intros Hy.
  assert (Hyf : map float_of_Z y = map Finite (map IZR y))
    by (rewrite map_map; reflexivity).
  rewrite Hyf.
  destruct (fmean_finite (map IZR y) ltac:(rewrite length_map; exact Hy)) as [avg Havg].
  rewrite Havg. exists (map (fun v => (v + - avg)%R) (map IZR y)).
  rewrite !map_map. reflexivity.
Qed.

(** [np.corrcoef] divides by the standard deviations: when the first
    array is constant its covariances and its deviation are 0 (or, with a
    single sample, already NaN), and the quotient is NaN. *)
Lemma np_corrcoef_01_constant (m : nat) (b : Z) (y : list Z) :
  0 < m -> length y = m -> np_corrcoef_01 (replicate m b) y = NaN.
Proof.
  intros Hm Hy. unfold np_corrcoef_01. cbv zeta.
  rewrite (deviations_replicate m b Hm).
  destruct (deviations_finite y ltac:(lia)) as [ym ->].
  rewrite (fsum_zero_products m ym).
  replace (replicate m (Finite 0)) with (map Finite (replicate m 0%R)) at 2
    by apply (map_replicate Finite).
  rewrite (fsum_zero_products m).
  rewrite length_map, length_replicate.
  rewrite (zero_over_zero_deviation m). reflexivity.
Qed.

Lemma lsb_corr_constant (n : nat) (b : Z) :
  2 <= n -> lsb_corr (replicate n b) = NaN.
Proof.
  intros Hn. unfold lsb_corr. rewrite length_replicate.
  destruct (Nat.ltb_spec 1 n) as [_|Hle]; [|lia].
  rewrite take_replicate, drop_replicate.
  replace ((n - 1) `min` n) with (n - 1) by lia.
  apply np_corrcoef_01_constant; [lia | apply length_replicate].
Qed.

(** The guard [len(lsb) > 1] lets two samples through, which leave one
    pair: the correlation is NaN there too. *)
Lemma lsb_corr_two_samples (a b : Z) : lsb_corr [a; b] = NaN.
Proof.
  unfold lsb_corr. cbn [length Nat.ltb Nat.leb Nat.sub take drop].
  apply (np_corrcoef_01_constant 1 a [b]); [lia | reflexivity].
Qed.

(** The label is decided by the test [score >= 0.62] alone. *)
Lemma detect_steg_label (arr : image) :
  (detect_steg arr).2 = "Likely contains hidden data"%string <->
  fge (detect_steg arr).1 (Finite (62 / 100)) = true.
Proof.
  unfold detect_steg. cbn [fst snd].
  destruct (fge _ _); split; intros Heq; try reflexivity; discriminate.
Qed.

Lemma lsb_plane_solid (h w : nat) (v : Z) (i : nat) :
  i < 3 -> lsb_plane (solid h w v) i = replicate (h * w) (Z.land v 1).
Proof.
  intros Hi. unfold lsb_plane, solid. cbn [height width pixels].
  apply list_eq. intros k.
  change (map ?f ?l) with (f <$> l). rewrite list_lookup_fmap.
  destruct (Nat.lt_ge_cases k (h * w)) as [Hk|Hk].
  - rewrite lookup_seq_lt by exact Hk. cbn [fmap option_fmap option_map].
    rewrite lookup_replicate_2 by exact Hk. f_equal. f_equal.
    apply nth_lookup_Some. apply lookup_replicate_2. lia.
  - rewrite lookup_seq_ge by exact Hk. symmetry. apply lookup_replicate_None. lia.
Qed.

(** C9 (the score is not always a number in [0, 1]): when the LSB plane
    of one channel is constant and the image has at least two pixels, the
    correlation term is NaN, so the score is NaN, which lies in no
    interval, and the image is labelled clean because the test
    [score >= 0.62] is false. *)
Theorem detect_steg_constant_plane (arr : image) (c : nat) (b : Z) :
  c < 3 -> 2 <= height arr * width arr ->
  lsb_plane arr c = replicate (height arr * width arr) b ->
  detect_steg arr = (NaN, "Likely clean image"%string) /\
  ~ in_unit_interval (detect_steg arr).1.
Proof.
  intros Hc Hn Hplane.
  assert (Hscore : detect_steg arr = (NaN, "Likely clean image"%string)).
  { unfold detect_steg. cbn [seq map].
    assert (Hcorr : fmean [fabs (lsb_corr (lsb_plane arr 0));
                           fabs (lsb_corr (lsb_plane arr 1));
                           fabs (lsb_corr (lsb_plane arr 2))] = NaN).
    { apply fmean_NaN.
      pose proof (lsb_corr_constant (height arr * width arr) b Hn) as Hnan.
      rewrite <- Hplane in Hnan.
      destruct c as [|[|[|c]]]; [| | |lia]; rewrite Hnan; cbn; tauto. }
    rewrite Hcorr. change (fsub (Finite 1) NaN) with NaN.
    rewrite fmul_NaN_r, fadd_NaN_r. reflexivity. }
  split; [exact Hscore|].
  rewrite Hscore. intros (x & Hx & _). discriminate.
Qed.

Lemma detect_steg_constant_plane_witness :
  detect_steg (solid 128 128 255%Z) = (NaN, "Likely clean image"%string).
Proof.
  refine (proj1 (detect_steg_constant_plane (solid 128 128 255%Z) 0 1%Z _ _ _)).
  - lia.
  - cbn [solid height width]. lia.
  - exact (lsb_plane_solid 128 128 255%Z 0 ltac:(lia)).
Defined.

(** ** The round trip when the depth map is stable *)

Lemma for_each_app {A S R} (xs ys : list A) (body : A -> S -> step S R) (s : S) :
  for_each (xs ++ ys) body s
  = match for_each xs body s with
    | Next s' => for_each ys body s'
    | Return r => Return r
    | Fail e => Fail e
    end.
Proof.
  revert s. induction xs as [|x xs IH]; intros s; cbn [for_each app]; [reflexivity|].
  destruct (body x s) as [s'| |]; [apply IH | reflexivity | reflexivity].
Qed.

(** A loop whose body is itself a loop over the items of each element is
    the loop over all the items. *)
Lemma for_each_flat_map {A B S R} (f : A -> list B) (inner : B -> S -> step S R)
    (outer : A -> S -> step S R) (xs : list A) (s : S) :
  Forall (fun x => forall s, outer x s = for_each (f x) inner s) xs ->
  for_each xs outer s = for_each (flat_map f xs) inner s.
Proof.
  intros Hxs. revert s. induction Hxs as [|x xs Hx _ IH]; intros s; [reflexivity|].
  cbn [for_each flat_map]. rewrite for_each_app, Hx.
  destruct (for_each (f x) inner s) as [s'| |]; [apply IH | reflexivity | reflexivity].
Qed.

Lemma for_each_map {A B S R} (g : A -> B) (body : B -> S -> step S R)
    (xs : list A) (s : S) :
  for_each (map g xs) body s = for_each xs (fun x => body (g x)) s.
Proof.
  revert s. induction xs as [|x xs IH]; intros s; cbn [for_each map]; [reflexivity|].
  destruct (body (g x) s) as [s'| |]; [apply IH | reflexivity | reflexivity].
Qed.

Lemma embed_pixel_slots (depth_map encoded_bits : list Z) (idx : nat) (depth : Z)
    (st : list Z * nat) :
  depth_map !! idx = Some depth -> (0 < depth)%Z ->
  embed_pixel depth_map encoded_bits idx st
  = for_each (pixel_slots depth_map idx) (embed_slot encoded_bits) st.
Proof.
  intros Hd Hpos. unfold embed_pixel, pixel_slots. rewrite Hd.
  destruct (Z.leb_spec depth 0) as [Hle|_]; [lia|].
  rewrite for_each_map. reflexivity.
Qed.

Lemma extract_pixel_slots (depth_map flat : list Z) (idx : nat) (depth : Z)
    (st : list Z * nat) :
  depth_map !! idx = Some depth -> (0 < depth)%Z ->
  extract_pixel depth_map flat idx st
  = for_each (pixel_slots depth_map idx) (extract_slot flat) st.
Proof.
  intros Hd Hpos. unfold extract_pixel, pixel_slots. rewrite Hd.
  destruct (Z.leb_spec depth 0) as [Hle|_]; [lia|].
  rewrite for_each_map. reflexivity.
Qed.

Section Slots.
Variables (n : nat) (depth_map : list Z).
Hypothesis Hdepth_map : length depth_map = n.
Hypothesis Hdepth : forall idx d, depth_map !! idx = Some d -> d = 1%Z \/ d = 2%Z.

Lemma embed_loop_slots (encoded_bits : list Z) (order : list nat) (st : list Z * nat) :
  Forall (fun idx => idx < n) order ->
  for_each order (embed_pixel depth_map encoded_bits) st
  = for_each (flat_map (pixel_slots depth_map) order) (embed_slot encoded_bits) st.
Proof.
  intros Horder. apply for_each_flat_map.
  eapply List.Forall_impl; [|exact Horder]. intros idx Hidx s. cbn beta in Hidx.
  destruct (lookup_lt_is_Some_2 depth_map idx ltac:(lia)) as [d Hd].
  apply (embed_pixel_slots _ _ _ d); [exact Hd|].
  pose proof (Hdepth _ _ Hd). lia.
Qed.

Lemma extract_loop_slots (flat : list Z) (order : list nat) (st : list Z * nat) :
  Forall (fun idx => idx < n) order ->
  for_each order (extract_pixel depth_map flat) st
  = for_each (flat_map (pixel_slots depth_map) order) (extract_slot flat) st.
Proof.
  intros Horder. apply for_each_flat_map.
  eapply List.Forall_impl; [|exact Horder]. intros idx Hidx s. cbn beta in Hidx.
  destruct (lookup_lt_is_Some_2 depth_map idx ltac:(lia)) as [d Hd].
  apply (extract_pixel_slots _ _ _ d); [exact Hd|].
  pose proof (Hdepth _ _ Hd). lia.
Qed.

(** Every slot of the traversal lies in the array and has depth 1 or 2. *)
Lemma slots_in_range (order : list nat) :
  Forall (fun idx => idx < n) order ->
  Forall (fun s => slot_pos s < n * 3 /\ (s.2 = 1%Z \/ s.2 = 2%Z) /\ s.1.1 < n /\
                   s.1.2 < 3)
         (flat_map (pixel_slots depth_map) order).
Proof.
  intros Horder. induction Horder as [|idx order Hidx _ IH]; [constructor|].
  cbn [flat_map]. apply Forall_app. split; [|exact IH].
  unfold pixel_slots.
  destruct (depth_map !! idx) as [d|] eqn:Hd; [|constructor].
  pose proof (Hdepth _ _ Hd) as H12.
  cbn [seq map].
  apply List.Forall_cons;
    [|apply List.Forall_cons; [|apply List.Forall_cons; [|apply List.Forall_nil]]];
    unfold slot_pos; cbn [fst snd]; (split; [lia|]; split; [exact H12|]; lia).
Qed.

End Slots.

Lemma slot_pos_pixel (depth_map : list Z) (order : list nat) (p : nat) :
  In p (map slot_pos (flat_map (pixel_slots depth_map) order)) -> In (p / 3) order.
Proof.
  induction order as [|idx order IH]; [intros []|].
  cbn [flat_map]. rewrite map_app, in_app_iff. intros [Hin|Hin].
  - left. unfold pixel_slots in Hin. destruct (depth_map !! idx); [|destruct Hin].
    cbn [seq map] in Hin. unfold slot_pos in Hin. cbn [fst snd In] in Hin.
    destruct Hin as [<-|[<-|[<-|[]]]];
      rewrite Nat.div_add_l, Nat.div_small by lia; lia.
  - right. apply IH, Hin.
Qed.

(** Distinct pixels give distinct slots. *)
Lemma slots_NoDup (depth_map : list Z) (order : list nat) :
  List.NoDup order -> List.NoDup (map slot_pos (flat_map (pixel_slots depth_map) order)).
Proof.
  induction 1 as [|idx order Hnotin _ IH]; [constructor|].
  cbn [flat_map]. rewrite map_app.
  assert (Hhere : forall p, In p (map slot_pos (pixel_slots depth_map idx)) -> p / 3 = idx).
  { intros p Hp. pose proof (slot_pos_pixel depth_map [idx] p) as Hpix.
    cbn [flat_map] in Hpix. rewrite app_nil_r in Hpix.
    destruct (Hpix Hp) as [Heq|[]]. symmetry. exact Heq. }
  apply List.NoDup_app.
  - unfold pixel_slots. destruct (depth_map !! idx); [|constructor].
    cbn [seq map]. unfold slot_pos. cbn [fst snd].
    repeat constructor; cbn [In]; lia.
  - exact IH.
  - intros p Hp Hp'. apply Hnotin.
    rewrite <- (Hhere p Hp). apply (slot_pos_pixel depth_map), Hp'.
Qed.

Lemma sum_slot_depth (depth_map : list Z) (order : list nat) :
  sum_list (slot_depth <$> flat_map (pixel_slots depth_map) order)
  = sum_list (pixel_cost depth_map <$> order).
Proof.
  induction order as [|idx order IH]; [reflexivity|].
  cbn [flat_map]. rewrite fmap_app, sum_list_with_app, fmap_cons, IH.
  change (sum_list (?x :: ?l)) with (x + sum_list l). f_equal.
  unfold pixel_cost, pixel_slots. destruct (depth_map !! idx) as [d|]; [|reflexivity].
  cbn. unfold slot_depth. cbn [snd]. lia.
Qed.

(** What was stored is read back: the low [take] bits of the stored byte,
    most significant first, are the chunk that went in. *)
Lemma stored_low_bits (x value : Z) (take_ : nat) :
  (0 <= value < 2 ^ Z.of_nat take_)%Z -> take_ <= 8 ->
  let mask := (Z.shiftl 1 (Z.of_nat take_) - 1)%Z in
  Z.land (to_uint8 (Z.lor (Z.land x (Z.lnot mask)) value)) mask = value.
Proof.
  intros Hv Ht mask. subst mask.
  change (Z.shiftl 1 (Z.of_nat take_) - 1)%Z with (Z.ones (Z.of_nat take_)).
  apply Z.bits_inj'. intros k Hk. rewrite Z.land_spec.
  destruct (Z_lt_ge_dec k (Z.of_nat take_)) as [Hlt|Hge].
  - rewrite Z.ones_spec_low by lia. rewrite andb_true_r.
    unfold to_uint8. change 256%Z with (2 ^ 8)%Z.
    rewrite Z.mod_pow2_bits_low by lia.
    rewrite Z.lor_spec, Z.land_spec, Z.lnot_spec by lia.
    rewrite Z.ones_spec_low by lia. cbn [negb]. rewrite andb_false_r. reflexivity.
  - rewrite Z.ones_spec_high by lia. rewrite andb_false_r.
    symmetry. apply (testbit_above value (Z.of_nat take_)); lia.
Qed.

Lemma unpack_packed_chunk (chunk : list Z) :
  Forall is_bit chunk -> 1 <= length chunk <= 2 ->
  last_n (length chunk) (unpackbits8 (pack_msb_first chunk)) = chunk.
Proof.
  intros Hbits Hlen.
  destruct chunk as [|a [|b [|c chunk]]]; cbn [length] in Hlen; try lia.
  - apply Forall_cons_1 in Hbits as [[-> | ->] _]; reflexivity.
  - apply Forall_cons_1 in Hbits as [[-> | ->] Hbits];
      apply Forall_cons_1 in Hbits as [[-> | ->] _]; reflexivity.
Qed.

Lemma embed_slots_frame (encoded_bits : list Z) (sl : list slot) (p : nat) :
  ~ In p (map slot_pos sl) ->
  forall flat bit_idx flat_f,
    embedded_flat (for_each sl (embed_slot encoded_bits) (flat, bit_idx)) = Some flat_f ->
    flat_f !! p = flat !! p.
Proof.
  induction sl as [|s sl IH]; intros Hp flat bit_idx flat_f.
  - cbn. intros [= <-]. reflexivity.
  - cbn [map In] in Hp. cbn [for_each]. unfold embed_slot at 1, embed_channel.
    destruct (length encoded_bits <=? bit_idx).
    { cbn. intros [= <-]. reflexivity. }
    unfold channel_at. fold (slot_pos s).
    destruct (flat !! slot_pos s) as [x|]; [|discriminate].
    intros Hf. rewrite (IH ltac:(tauto) _ _ _ Hf).
    apply list_lookup_insert_ne. tauto.
Qed.

Lemma embed_slot_done (encoded_bits : list Z) (s : slot) (flat : list Z) (bit_idx : nat) :
  length encoded_bits <= bit_idx ->
  embed_slot encoded_bits s (flat, bit_idx) = Return flat.
Proof.
  intros Hdone. unfold embed_slot, embed_channel.
  destruct (Nat.leb_spec (length encoded_bits) bit_idx); [reflexivity | lia].
Qed.

Lemma embed_slot_step (encoded_bits : list Z) (s : slot) (flat : list Z)
    (bit_idx : nat) (x : Z) :
  bit_idx < length encoded_bits -> flat !! slot_pos s = Some x ->
  embed_slot encoded_bits s (flat, bit_idx)
  = Next (<[slot_pos s := stored_byte encoded_bits s.2 bit_idx x]> flat,
          bit_idx + chunk_size (length encoded_bits) s.2 bit_idx).
Proof.
  intros Hmore Hx. unfold embed_slot, embed_channel.
  destruct (Nat.leb_spec (length encoded_bits) bit_idx); [lia|].
  unfold channel_at. fold (slot_pos s). rewrite Hx. reflexivity.
Qed.

Lemma extract_slot_done (flat : list Z) (s : slot) (raw_bits : list Z) (bit_idx : nat) :
  length raw_bits <= bit_idx ->
  extract_slot flat s (raw_bits, bit_idx) = Return (decode_redundancy raw_bits).
Proof.
  intros Hdone. unfold extract_slot, extract_channel.
  destruct (Nat.leb_spec (length raw_bits) bit_idx); [reflexivity | lia].
Qed.

(** Reading a slot that holds the stored byte appends the chunk that was
    written there. *)
Lemma extract_slot_step (encoded_bits flat : list Z) (s : slot) (raw_bits : list Z)
    (bit_idx : nat) (x : Z) :
  Forall is_bit encoded_bits -> length raw_bits = length encoded_bits ->
  bit_idx < length encoded_bits -> s.2 = 1%Z \/ s.2 = 2%Z ->
  flat !! slot_pos s = Some (stored_byte encoded_bits s.2 bit_idx x) ->
  let take_ := chunk_size (length encoded_bits) s.2 bit_idx in
  extract_slot flat s (raw_bits, bit_idx)
  = Next (take bit_idx raw_bits ++ slice encoded_bits bit_idx (bit_idx + take_)
            ++ drop (bit_idx + take_) raw_bits,
          bit_idx + take_).
Proof.
  intros Hbits Hlen Hmore Hd Hx take_.
  assert (Htake : 1 <= take_ <= 2 /\ bit_idx + take_ <= length encoded_bits)
    by (subst take_; unfold chunk_size; lia).
  destruct Htake as [Htake Hfit].
  pose proof (length_slice encoded_bits bit_idx (bit_idx + take_) Hfit) as Hchunk.
  replace (bit_idx + take_ - bit_idx) with take_ in Hchunk by lia.
  unfold extract_slot, extract_channel. rewrite Hlen.
  destruct (Nat.leb_spec (length encoded_bits) bit_idx); [lia|].
  unfold channel_at. fold (slot_pos s). rewrite Hx.
  fold (chunk_size (length encoded_bits) s.2 bit_idx). fold take_.
  unfold stored_byte. fold take_.
  pose proof (pack_msb_first_range _
                (Forall_slice _ _ bit_idx (bit_idx + take_) Hbits)) as Hvalue.
  pose proof (unpack_packed_chunk _
                (Forall_slice _ _ bit_idx (bit_idx + take_) Hbits)) as Hunpack.
  rewrite Hchunk in Hvalue, Hunpack.
  rewrite stored_low_bits by (exact Hvalue || lia).
  rewrite Hunpack by exact Htake.
  rewrite slice_assign_exact by lia. reflexivity.
Qed.

(** Extraction over the same slots mirrors embedding, on any array that
    agrees with the embedding result on the slots visited. *)
Lemma roundtrip_slots (encoded_bits : list Z) :
  Forall is_bit encoded_bits ->
  forall (sl : list slot) (flat : list Z) (bit_idx : nat) (raw_bits flat' : list Z),
    List.NoDup (map slot_pos sl) ->
    Forall (fun s => slot_pos s < length flat /\ (s.2 = 1%Z \/ s.2 = 2%Z)) sl ->
    length raw_bits = length encoded_bits ->
    take bit_idx raw_bits = take bit_idx encoded_bits ->
    length encoded_bits - bit_idx <= sum_list (slot_depth <$> sl) ->
    (forall flat_f,
        embedded_flat (for_each sl (embed_slot encoded_bits) (flat, bit_idx)) = Some flat_f ->
        forall p, In p (map slot_pos sl) -> flat' !! p = flat_f !! p) ->
    mirrors encoded_bits
      (for_each sl (embed_slot encoded_bits) (flat, bit_idx))
      (for_each sl (extract_slot flat') (raw_bits, bit_idx)).
Proof.
  intros Hbits sl.
  induction sl as [|s sl IH];
    intros flat bit_idx raw_bits flat' Hnodup Hrange Hlen Hpre Hcap Hagree.
  - cbn [for_each mirrors]. cbn in Hcap.
    rewrite !take_ge in Hpre by lia. rewrite Hpre. reflexivity.
  - apply Forall_cons_1 in Hrange as [[Hpos Hd] Hrange].
    apply List.NoDup_cons_iff in Hnodup as [Hnotin Hnodup].
    rewrite fmap_cons in Hcap.
    change (sum_list (?x :: ?l)) with (x + sum_list l) in Hcap.
    destruct (Nat.le_gt_cases (length encoded_bits) bit_idx) as [Hdone|Hmore].
    { cbn [for_each].
      rewrite embed_slot_done, extract_slot_done by lia. cbn [mirrors].
      rewrite !take_ge in Hpre by lia. rewrite Hpre. reflexivity. }
    destruct (lookup_lt_is_Some_2 flat (slot_pos s) Hpos) as [x Hx].
    pose proof (embed_slot_step encoded_bits s flat bit_idx x Hmore Hx) as Hembed.
    set (take_ := chunk_size (length encoded_bits) s.2 bit_idx) in *.
    set (flat1 := <[slot_pos s := stored_byte encoded_bits s.2 bit_idx x]> flat) in *.
    assert (Htake : 1 <= take_ <= 2 /\ bit_idx + take_ <= length encoded_bits /\
                    length encoded_bits - (bit_idx + take_)
                    <= sum_list (slot_depth <$> sl))
      by (subst take_; unfold chunk_size, slot_depth in *; lia).
    destruct Htake as (Htake & Hfit & Hcap').
    set (raw1 := take bit_idx raw_bits ++ slice encoded_bits bit_idx (bit_idx + take_)
                   ++ drop (bit_idx + take_) raw_bits).
    cbn [for_each] in Hagree |- *. rewrite Hembed in Hagree |- *.
    assert (Hraw1 : length raw1 = length encoded_bits).
    { subst raw1. rewrite !length_app, length_take, length_drop, length_slice by lia. lia. }
    assert (Hpre1 : take (bit_idx + take_) raw1 = take (bit_idx + take_) encoded_bits).
    { subst raw1. rewrite app_assoc, take_app_length'
        by (rewrite length_app, length_take, length_slice; lia).
      rewrite Hpre. unfold slice.
      replace (bit_idx + take_ - bit_idx) with take_ by lia.
      apply take_take_drop. }
    specialize (IH flat1 (bit_idx + take_) raw1 flat' Hnodup).
    specialize (IH ltac:(subst flat1; rewrite length_insert; exact Hrange)
                   Hraw1 Hpre1 Hcap').
    specialize (IH (fun flat_f Hf p Hp => Hagree flat_f Hf p (or_intror Hp))).
    destruct (for_each sl (embed_slot encoded_bits) (flat1, bit_idx + take_))
      as [[flat_f b_f]|flat_f|e] eqn:Hrest; [| |exact I].
    + assert (Hread : flat' !! slot_pos s
                      = Some (stored_byte encoded_bits s.2 bit_idx x)).
      { rewrite (Hagree flat_f eq_refl (slot_pos s) (or_introl eq_refl)).
        rewrite (embed_slots_frame encoded_bits sl (slot_pos s) Hnotin
                   flat1 (bit_idx + take_) flat_f) by (rewrite Hrest; reflexivity).
        subst flat1. apply list_lookup_insert_eq. exact Hpos. }
      rewrite (extract_slot_step encoded_bits flat' s raw_bits bit_idx x
                 Hbits Hlen Hmore Hd Hread).
      exact IH.
    + assert (Hread : flat' !! slot_pos s
                      = Some (stored_byte encoded_bits s.2 bit_idx x)).
      { rewrite (Hagree flat_f eq_refl (slot_pos s) (or_introl eq_refl)).
        rewrite (embed_slots_frame encoded_bits sl (slot_pos s) Hnotin
                   flat1 (bit_idx + take_) flat_f) by (rewrite Hrest; reflexivity).
        subst flat1. apply list_lookup_insert_eq. exact Hpos. }
      rewrite (extract_slot_step encoded_bits flat' s raw_bits bit_idx x
                 Hbits Hlen Hmore Hd Hread).
      exact IH.
Qed.

Lemma traversal_order_NoDup `{Hashlib} `{NumpyRandom} (h w : nat) (passphrase : string) :
  shuffle_permutes -> List.NoDup (traversal_order h w passphrase).
Proof.
  intros Hperm. apply NoDup_ListNoDup. unfold traversal_order.
  rewrite (Hperm _ _). apply NoDup_seq.
Qed.

(** X2: the engine is a codec for every image whose depth map survives the
    embedding: if the depth map recomputed from the stego array is the
    depth map of the cover, extraction returns the embedded bits. *)
Theorem roundtrip_when_depth_map_stable `{Hashlib} `{NumpyRandom} (arr : image)
    (bits : list Z) (passphrase : string) (stego : image) :
  wf_image arr -> shuffle_permutes -> Forall is_bit bits ->
  embed_bits arr bits passphrase = Ok stego ->
  compute_edge_depth_map stego = compute_edge_depth_map arr ->
  extract_bits stego (length bits) passphrase = Ok bits.
Proof.
  intros (Hh & Hw & Hlen & Hbytes) Hperm Hbits Hok Hstable.
  set (n := height arr * width arr) in *.
  set (depth_map := compute_edge_depth_map arr) in *.
  set (encoded_bits := np_repeat bits REDUNDANCY).
  set (order := traversal_order (height arr) (width arr) passphrase).
  set (sl := flat_map (pixel_slots depth_map) order).
  pose proof (traversal_order_bound (height arr) (width arr) passphrase Hperm) as Horder.
  fold n order in Horder.
  pose proof (length_compute_edge_depth_map arr) as Hdm. fold n depth_map in Hdm.
  pose proof (depth_map_one_or_two arr) as Hdepth. fold depth_map in Hdepth.
  unfold embed_bits in Hok. fold depth_map encoded_bits order in Hok.
  destruct (Z.ltb_spec (np_sum depth_map * 3) (Z.of_nat (length encoded_bits)))
    as [Hbig|Hfits]; [discriminate|].
  rewrite (embed_loop_slots n depth_map Hdm Hdepth encoded_bits order _ Horder) in Hok.
  fold sl in Hok.
  assert (Hmirror : forall flat_f,
             embedded_flat (for_each sl (embed_slot encoded_bits) (pixels arr, 0))
             = Some flat_f ->
             mirrors encoded_bits
               (for_each sl (embed_slot encoded_bits) (pixels arr, 0))
               (for_each sl (extract_slot flat_f)
                  (replicate (length bits * REDUNDANCY) 0%Z, 0))).
  { intros flat_f Hf.
    apply roundtrip_slots.
    - apply Forall_np_repeat, Hbits.
    - apply slots_NoDup, traversal_order_NoDup, Hperm.
    - eapply List.Forall_impl;
        [|exact (slots_in_range n depth_map Hdm Hdepth order Horder)].
      intros s (Hpos & Hd & _). split; [lia | exact Hd].
    - subst encoded_bits. rewrite length_replicate, length_np_repeat. lia.
    - reflexivity.
    - subst sl. rewrite sum_slot_depth, sum_pixel_cost.
      + pose proof (np_sum_depth_map_nonneg arr). fold depth_map in H1. lia.
      + apply Forall_lookup. intros idx d Hd. pose proof (Hdepth _ _ Hd). lia.
      + rewrite Hdm. apply Hperm.
    - intros flat_f' Hf' p _. congruence. }
  assert (Hdecode : decode_redundancy encoded_bits = bits)
    by apply decode_redundancy_repeat, Hbits.
  assert (Hextract : forall flat_f,
             embedded_flat (for_each sl (embed_slot encoded_bits) (pixels arr, 0))
             = Some flat_f ->
             stego = {| height := height arr; width := width arr; pixels := flat_f |} ->
             extract_bits stego (length bits) passphrase = Ok bits).
  { intros flat_f Hf ->. specialize (Hmirror flat_f Hf).
    unfold extract_bits, extract_raw. rewrite Hstable. cbn [height width pixels].
    fold depth_map order.
    rewrite (extract_loop_slots n depth_map Hdm Hdepth flat_f order _ Horder).
    fold sl.
    destruct (for_each sl (embed_slot encoded_bits) (pixels arr, 0))
      as [[flat_e b_e]|flat_e|e]; cbn [mirrors] in Hmirror; [| |discriminate Hf];
      rewrite Hmirror, Hdecode; reflexivity. }
  destruct (for_each sl (embed_slot encoded_bits) (pixels arr, 0))
    as [[flat_f b_f]|flat_f|e] eqn:Hloop; [| |discriminate Hok];
    injection Hok as <-; apply (Hextract flat_f); reflexivity.
Qed.

(** * Further properties *)

(** ** Two-phase extraction *)

Lemma Forall_is_bit_unpackbits8 (v : Z) : Forall is_bit (unpackbits8 v).
Proof.
  unfold unpackbits8. apply Forall_map, Forall_forall. intros k _.
  unfold is_bit. destruct (Z.testbit v _); cbn; lia.
Qed.

Lemma Forall_is_bit_last_n (n : nat) (v : Z) : Forall is_bit (last_n n (unpackbits8 v)).
Proof.
  unfold last_n. destruct (n =? 0); [|apply Forall_drop];
    apply Forall_is_bit_unpackbits8.
Qed.

(** Reading a slot with the chunk size it was written with. *)
Lemma extract_slot_same (encoded_bits flat : list Z) (s : slot) (raw_bits : list Z)
    (bit_idx : nat) (x : Z) :
  Forall is_bit encoded_bits -> length raw_bits <= length encoded_bits ->
  bit_idx < length raw_bits -> s.2 = 1%Z \/ s.2 = 2%Z ->
  flat !! slot_pos s = Some (stored_byte encoded_bits s.2 bit_idx x) ->
  chunk_size (length raw_bits) s.2 bit_idx = chunk_size (length encoded_bits) s.2 bit_idx ->
  let take_ := chunk_size (length encoded_bits) s.2 bit_idx in
  extract_slot flat s (raw_bits, bit_idx)
  = Next (take bit_idx raw_bits ++ slice encoded_bits bit_idx (bit_idx + take_)
            ++ drop (bit_idx + take_) raw_bits,
          bit_idx + take_).
Proof.
  intros Hbits Hlen Hmore Hd Hx Hsame take_.
  assert (Htake : 1 <= take_ <= 2 /\ bit_idx + take_ <= length raw_bits)
    by (subst take_; rewrite <- Hsame; unfold chunk_size; lia).
  destruct Htake as [Htake Hfit].
  pose proof (length_slice encoded_bits bit_idx (bit_idx + take_) ltac:(lia)) as Hchunk.
  replace (bit_idx + take_ - bit_idx) with take_ in Hchunk by lia.
  unfold extract_slot, extract_channel.
  destruct (Nat.leb_spec (length raw_bits) bit_idx); [lia|].
  unfold channel_at. fold (slot_pos s). rewrite Hx.
  fold (chunk_size (length raw_bits) s.2 bit_idx). rewrite Hsame. fold take_.
  unfold stored_byte. fold take_.
  pose proof (pack_msb_first_range _
                (Forall_slice _ _ bit_idx (bit_idx + take_) Hbits)) as Hvalue.
  pose proof (unpack_packed_chunk _
                (Forall_slice _ _ bit_idx (bit_idx + take_) Hbits)) as Hunpack.
  rewrite Hchunk in Hvalue, Hunpack.
  rewrite stored_low_bits by (exact Hvalue || lia).
  rewrite Hunpack by exact Htake.
  rewrite slice_assign_exact by lia. reflexivity.
Qed.

(** Reading the last raw bit of a shorter buffer from a slot that holds
    more: one bit comes out and the buffer is full. *)
Lemma extract_slot_cut (flat : list Z) (s : slot) (raw_bits : list Z) (bit_idx : nat)
    (x : Z) :
  length raw_bits = bit_idx + 1 -> s.2 = 1%Z \/ s.2 = 2%Z ->
  flat !! slot_pos s = Some x ->
  exists y, is_bit y /\
    extract_slot flat s (raw_bits, bit_idx) = Next (take bit_idx raw_bits ++ [y], bit_idx + 1).
Proof.
  intros Hlen Hd Hx.
  unfold extract_slot, extract_channel.
  destruct (Nat.leb_spec (length raw_bits) bit_idx); [lia|].
  unfold channel_at. fold (slot_pos s). rewrite Hx.
  replace (Z.to_nat (Z.min s.2 (Z.of_nat (length raw_bits - bit_idx)))) with 1 by lia.
  set (value := Z.land x (Z.shiftl 1 (Z.of_nat 1) - 1)).
  exists (Z.b2z (Z.testbit value 0)). split.
  - unfold is_bit. destruct (Z.testbit value 0); cbn; lia.
  - change (last_n 1 (unpackbits8 value)) with [Z.b2z (Z.testbit value 0)].
    rewrite slice_assign_exact by (cbn [length]; lia).
    rewrite (drop_ge raw_bits) by lia. reflexivity.
Qed.

Lemma extract_slots_full (flat : list Z) (sl : list slot) (raw_bits : list Z)
    (bit_idx : nat) :
  length raw_bits <= bit_idx ->
  for_each sl (extract_slot flat) (raw_bits, bit_idx) = Return (decode_redundancy raw_bits)
  \/ for_each sl (extract_slot flat) (raw_bits, bit_idx) = Next (raw_bits, bit_idx).
Proof.
  intros Hfull. destruct sl as [|s sl]; [right; reflexivity|].
  left. cbn [for_each]. rewrite extract_slot_done by exact Hfull. reflexivity.
Qed.

Lemma take_prefix_mono {A} (k b : nat) (l1 l2 : list A) :
  k <= b -> take b l1 = take b l2 -> take k l1 = take k l2.
Proof.
  intros Hk Heq.
  replace (take k l1) with (take k (take b l1))
    by (rewrite take_take; f_equal; lia).
  replace (take k l2) with (take k (take b l2))
    by (rewrite take_take; f_equal; lia).
  rewrite Heq. reflexivity.
Qed.

(** Extraction with a shorter buffer over the slots of an embedding. *)
Lemma prefix_slots (encoded_bits : list Z) (total : nat) :
  Forall is_bit encoded_bits -> total <= length encoded_bits ->
  forall (sl : list slot) (flat : list Z) (bit_idx : nat) (raw_bits flat' : list Z),
    List.NoDup (map slot_pos sl) ->
    Forall (fun s => slot_pos s < length flat /\ (s.2 = 1%Z \/ s.2 = 2%Z)) sl ->
    length raw_bits = total -> Forall is_bit raw_bits ->
    take bit_idx raw_bits = take bit_idx encoded_bits ->
    length encoded_bits - bit_idx <= sum_list (slot_depth <$> sl) ->
    (exists flat_f,
        embedded_flat (for_each sl (embed_slot encoded_bits) (flat, bit_idx)) = Some flat_f /\
        forall p, In p (map slot_pos sl) -> flat' !! p = flat_f !! p) ->
    prefix_post encoded_bits total (for_each sl (extract_slot flat') (raw_bits, bit_idx)).
Proof.
  intros Hbits Htotal sl.
  induction sl as [|s sl IH];
    intros flat bit_idx raw_bits flat' Hnodup Hrange Hlen Hraw Hpre Hcap Hagree.
  - cbn in Hcap. exists raw_bits. split; [right; eexists; reflexivity|].
    split; [exact Hlen|]. split; [exact Hraw|].
    apply (take_prefix_mono _ bit_idx); [lia | exact Hpre].
  - destruct (Nat.le_gt_cases total bit_idx) as [Hdone|Hmore].
    { exists raw_bits. split.
      - left. cbn [for_each]. rewrite extract_slot_done by lia. reflexivity.
      - split; [exact Hlen|]. split; [exact Hraw|].
        apply (take_prefix_mono _ bit_idx); [lia | exact Hpre]. }
    apply Forall_cons_1 in Hrange as [[Hpos Hd] Hrange].
    apply List.NoDup_cons_iff in Hnodup as [Hnotin Hnodup].
    rewrite fmap_cons in Hcap.
    change (sum_list (?x :: ?l)) with (x + sum_list l) in Hcap.
    destruct (lookup_lt_is_Some_2 flat (slot_pos s) Hpos) as [x Hx].
    pose proof (embed_slot_step encoded_bits s flat bit_idx x ltac:(lia) Hx) as Hembed.
    set (take_ := chunk_size (length encoded_bits) s.2 bit_idx) in *.
    set (flat1 := <[slot_pos s := stored_byte encoded_bits s.2 bit_idx x]> flat) in *.
    destruct Hagree as (flat_f & Hflat_f & Hagree).
    cbn [for_each] in Hflat_f |- *. rewrite Hembed in Hflat_f.
    assert (Hread : flat' !! slot_pos s
                    = Some (stored_byte encoded_bits s.2 bit_idx x)).
    { rewrite (Hagree (slot_pos s) (or_introl eq_refl)).
      rewrite (embed_slots_frame encoded_bits sl (slot_pos s) Hnotin
                 flat1 (bit_idx + take_) flat_f Hflat_f).
      subst flat1. apply list_lookup_insert_eq. exact Hpos. }
    destruct (Nat.eq_dec (chunk_size total s.2 bit_idx) take_) as [Hsame|Hcut].
    + assert (Htake : 1 <= take_ <= 2 /\ bit_idx + take_ <= total /\
                      length encoded_bits - (bit_idx + take_)
                      <= sum_list (slot_depth <$> sl))
        by (rewrite <- Hsame; subst take_;
            unfold chunk_size, slot_depth in *; lia).
      destruct Htake as (Htake & Hfit & Hcap').
      rewrite <- Hlen in Hsame.
      rewrite (extract_slot_same encoded_bits flat' s raw_bits bit_idx x
                 Hbits ltac:(lia) ltac:(lia) Hd Hread Hsame).
      fold take_.
      apply (IH flat1 (bit_idx + take_)); trivial.
      * subst flat1. rewrite length_insert. exact Hrange.
      * rewrite !length_app, length_take, length_drop, length_slice by lia. lia.
      * apply Forall_app. split; [apply Forall_take, Hraw|].
        apply Forall_app. split; [apply Forall_slice, Hbits | apply Forall_drop, Hraw].
      * rewrite app_assoc, take_app_length'
          by (rewrite length_app, length_take, length_slice; lia).
        rewrite Hpre. unfold slice.
        replace (bit_idx + take_ - bit_idx) with take_ by lia.
        apply take_take_drop.
      * exists flat_f. split; [exact Hflat_f|].
        intros p Hp. apply Hagree. right. exact Hp.
    + assert (Hlast : total = bit_idx + 1)
        by (subst take_; unfold chunk_size in *; lia).
      destruct (extract_slot_cut flat' s raw_bits bit_idx _ ltac:(lia) Hd Hread)
        as (y & Hy & Hstep).
      rewrite Hstep.
      exists (take bit_idx raw_bits ++ [y]).
      split; [|split; [|split]].
      * destruct (extract_slots_full flat' sl (take bit_idx raw_bits ++ [y])
                    (bit_idx + 1)) as [Hr|Hn].
        { rewrite length_app, length_take. cbn [length]. lia. }
        { left. exact Hr. }
        { right. eexists. exact Hn. }
      * rewrite length_app, length_take. cbn [length]. lia.
      * apply Forall_app. split; [apply Forall_take, Hraw|].
        apply List.Forall_cons; [exact Hy | apply List.Forall_nil].
      * replace (total - 1) with bit_idx by lia.
        rewrite take_app_length' by (rewrite length_take; lia).
        exact Hpre.
Qed.

(** The vote over a buffer that agrees with the tripled stream except,
    possibly, at its last position gives the first bits of the stream. *)
Lemma decode_redundancy_prefix (k : nat) :
  forall bits raw : list Z,
    Forall is_bit bits -> k <= length bits ->
    length raw = k * 3 -> Forall is_bit raw ->
    take (k * 3 - 1) raw = take (k * 3 - 1) (np_repeat bits REDUNDANCY) ->
    decode_redundancy raw = take k bits.
Proof.
  induction k as [|k IH]; intros bits raw Hbits Hk Hlen Hraw Hpre.
  - destruct raw; [reflexivity | discriminate].
  - destruct bits as [|b bits]; [cbn in Hk; lia|].
    destruct raw as [|x [|y [|z raw]]]; cbn [length] in Hlen; try lia.
    apply Forall_cons_1 in Hbits as [Hb Hbits].
    apply Forall_cons_1 in Hraw as [Hx Hraw].
    apply Forall_cons_1 in Hraw as [Hy Hraw].
    apply Forall_cons_1 in Hraw as [Hz Hraw].
    cbn [np_repeat REDUNDANCY replicate app] in Hpre. fold REDUNDANCY in Hpre.
    rewrite decode_redundancy_cons3. cbn [take]. cbn [length] in Hk.
    destruct k as [|k].
    + cbn in Hpre. injection Hpre as -> ->.
      destruct raw; [|discriminate]. cbn [decode_redundancy]. rewrite take_0.
      rewrite decode_redundancy_nil.
      destruct Hb as [-> | ->], Hz as [-> | ->]; reflexivity.
    + replace (S (S k) * 3 - 1) with (S (S (S (S k * 3 - 1)))) in Hpre by lia.
      cbn [take] in Hpre. injection Hpre as -> -> -> Hpre.
      rewrite (IH bits raw Hbits ltac:(lia) ltac:(lia) Hraw Hpre).
      destruct Hb as [-> | ->]; reflexivity.
Qed.

(** When the depth map is stable, [extract_bits] returns the first [k]
    embedded bits for every [k] up to the number embedded. *)
Lemma extract_bits_take `{Hashlib} `{NumpyRandom} (arr : image) (bits : list Z)
    (passphrase : string) (stego : image) (k : nat) :
  wf_image arr -> shuffle_permutes -> Forall is_bit bits ->
  embed_bits arr bits passphrase = Ok stego ->
  compute_edge_depth_map stego = compute_edge_depth_map arr ->
  k <= length bits ->
  extract_bits stego k passphrase = Ok (take k bits).
Proof.
  intros (Hh & Hw & Hlen & Hbytes) Hperm Hbits Hok Hstable Hk.
  set (n := height arr * width arr) in *.
  set (depth_map := compute_edge_depth_map arr) in *.
  set (encoded_bits := np_repeat bits REDUNDANCY).
  set (order := traversal_order (height arr) (width arr) passphrase).
  set (sl := flat_map (pixel_slots depth_map) order).
  pose proof (traversal_order_bound (height arr) (width arr) passphrase Hperm) as Horder.
  fold n order in Horder.
  pose proof (length_compute_edge_depth_map arr) as Hdm. fold n depth_map in Hdm.
  pose proof (depth_map_one_or_two arr) as Hdepth. fold depth_map in Hdepth.
  assert (Henc : Forall is_bit encoded_bits) by apply Forall_np_repeat, Hbits.
  assert (Hlenc : length encoded_bits = 3 * length bits)
    by (subst encoded_bits; rewrite length_np_repeat; reflexivity).
  unfold embed_bits in Hok. fold depth_map encoded_bits order in Hok.
  destruct (Z.ltb_spec (np_sum depth_map * 3) (Z.of_nat (length encoded_bits)))
    as [Hbig|Hfits]; [discriminate|].
  rewrite (embed_loop_slots n depth_map Hdm Hdepth encoded_bits order _ Horder) in Hok.
  fold sl in Hok.
  assert (Hflat : exists flat_f,
             embedded_flat (for_each sl (embed_slot encoded_bits) (pixels arr, 0))
             = Some flat_f /\
             stego = {| height := height arr; width := width arr; pixels := flat_f |}).
  { destruct (for_each sl (embed_slot encoded_bits) (pixels arr, 0))
      as [[flat_f b_f]|flat_f|e]; [| |discriminate Hok];
      injection Hok as <-; exists flat_f; split; reflexivity. }
  destruct Hflat as (flat_f & Hflat_f & ->).
  assert (Hpost : prefix_post encoded_bits (k * REDUNDANCY)
                    (for_each sl (extract_slot flat_f)
                       (replicate (k * REDUNDANCY) 0%Z, 0))).
  { apply (prefix_slots encoded_bits (k * REDUNDANCY) Henc ltac:(unfold REDUNDANCY; lia)
             sl (pixels arr)).
    - apply slots_NoDup, traversal_order_NoDup, Hperm.
    - eapply List.Forall_impl;
        [|exact (slots_in_range n depth_map Hdm Hdepth order Horder)].
      intros s (Hpos & Hd & _). split; [lia | exact Hd].
    - apply length_replicate.
    - apply Forall_replicate. left. reflexivity.
    - reflexivity.
    - subst sl. rewrite sum_slot_depth, sum_pixel_cost.
      + pose proof (np_sum_depth_map_nonneg arr) as Hsum. fold depth_map in Hsum. lia.
      + apply Forall_lookup. intros idx d Hd. pose proof (Hdepth _ _ Hd). lia.
      + rewrite Hdm. apply Hperm.
    - exists flat_f. split; [exact Hflat_f | reflexivity]. }
  unfold extract_bits, extract_raw. rewrite Hstable. cbn [height width pixels].
  fold depth_map order.
  rewrite (extract_loop_slots n depth_map Hdm Hdepth flat_f order _ Horder).
  fold sl.
  destruct Hpost as (raw_f & Hout & Hraw_len & Hraw_bits & Hraw_pre).
  assert (Hdecode : decode_redundancy raw_f = take k bits).
  { apply decode_redundancy_prefix; trivial. }
  destruct Hout as [-> | [b_f ->]]; rewrite Hdecode; reflexivity.
Qed.

(** X3: extraction of a prefix.  When the depth map is stable, asking
    [extract_bits] for fewer bits than were embedded returns the first
    bits of the payload: the raw bit that a shorter buffer cuts out of a
    two-bit slot may be wrong, and the majority vote absorbs it. *)
Theorem extract_bits_prefix `{Hashlib} `{NumpyRandom} (arr : image) (bits : list Z)
    (passphrase : string) (stego : image) (k : nat) :
  wf_image arr -> shuffle_permutes -> Forall is_bit bits ->
  embed_bits arr bits passphrase = Ok stego ->
  compute_edge_depth_map stego = compute_edge_depth_map arr ->
  k <= length bits ->
  extract_bits stego k passphrase = Ok (take k bits).
Proof. apply extract_bits_take. Qed.

Lemma wf_image_checker (h w : nat) : 0 < h -> 0 < w -> wf_image (checker h w).
Proof.
  intros Hh Hw. unfold wf_image, checker. cbn [height width pixels].
  split; [exact Hh|]. split; [exact Hw|].
  assert (Hall : forall l : list nat,
             let flat := flat_map (fun idx => if Nat.even (idx / w + idx mod w)
                                              then [0; 0; 0]%Z else [255; 255; 255]%Z) l in
             length flat = length l * 3 /\ Forall is_byte flat).
  { induction l as [|idx l [IHlen IHbytes]]; [split; [reflexivity | constructor]|].
    cbn [flat_map]. split.
    - rewrite length_app, IHlen. destruct (Nat.even _); cbn [length]; lia.
    - apply Forall_app. split; [|exact IHbytes].
      destruct (Nat.even _);
        repeat (apply List.Forall_cons; [unfold is_byte; lia|]); apply List.Forall_nil. }
  destruct (Hall (seq 0 (h * w))) as [Hlen Hbytes].
  rewrite length_seq in Hlen. split; [exact Hlen | exact Hbytes].
Qed.

(** On the checkerboard the bits [1; 0] go into two-bit slots; asking for
    one bit cuts the second slot and still returns the first bit. *)
Lemma roundtrip_when_depth_map_stable_witness :
  exists stego,
    @embed_bits sample_hashlib sample_rng (checker 4 4) [1; 0]%Z "k" = Ok stego /\
    stego <> checker 4 4 /\
    @extract_bits sample_hashlib sample_rng stego 2 "k" = Ok [1; 0]%Z.
Proof.
  assert (Hbits : Forall is_bit [1; 0]%Z)
    by (repeat (apply List.Forall_cons; [unfold is_bit; lia|]); apply List.Forall_nil).
  destruct (@embed_bits sample_hashlib sample_rng (checker 4 4) [1; 0]%Z "k")
    as [stego|e] eqn:Hembed; [|vm_compute in Hembed; discriminate].
  exists stego. split; [reflexivity|]. split.
  - vm_compute in Hembed. injection Hembed as <-. vm_compute. discriminate.
  - apply (@roundtrip_when_depth_map_stable sample_hashlib sample_rng (checker 4 4)
             [1; 0]%Z "k" stego (wf_image_checker 4 4 ltac:(lia) ltac:(lia))
             sample_rng_permutes Hbits Hembed).
    vm_compute in Hembed. injection Hembed as <-. vm_compute. reflexivity.
Defined.

Lemma extract_bits_prefix_witness :
  exists stego,
    @embed_bits sample_hashlib sample_rng (checker 4 4) [1; 0]%Z "k" = Ok stego /\
    stego <> checker 4 4 /\
    @extract_bits sample_hashlib sample_rng stego 1 "k" = Ok [1]%Z.
Proof.
  assert (Hbits : Forall is_bit [1; 0]%Z)
    by (repeat (apply List.Forall_cons; [unfold is_bit; lia|]); apply List.Forall_nil).
  destruct (@embed_bits sample_hashlib sample_rng (checker 4 4) [1; 0]%Z "k")
    as [stego|e] eqn:Hembed; [|vm_compute in Hembed; discriminate].
  exists stego. split; [reflexivity|]. split.
  - vm_compute in Hembed. injection Hembed as <-. vm_compute. discriminate.
  - apply (@extract_bits_prefix sample_hashlib sample_rng (checker 4 4) [1; 0]%Z "k"
             stego 1 (wf_image_checker 4 4 ltac:(lia) ltac:(lia))
             sample_rng_permutes Hbits Hembed).
    + vm_compute in Hembed. injection Hembed as <-. vm_compute. reflexivity.
    + cbn. lia.
Defined.

(** ** Bit I/O round trips *)

Lemma packbits8_unpackbits8 (v : Z) : is_byte v -> packbits8 (unpackbits8 v) = v.
Proof.
  intros Hv.
  assert (Hall : forallb (fun n => (packbits8 (unpackbits8 (Z.of_nat n)) =? Z.of_nat n)%Z)
                         (seq 0 256) = true) by (vm_compute; reflexivity).
  rewrite forallb_forall in Hall.
  specialize (Hall (Z.to_nat v)). unfold is_byte in Hv.
  rewrite Z2Nat.id in Hall by lia. apply Z.eqb_eq, Hall, in_seq. lia.
Qed.

Lemma unpackbits8_packbits8 (bits : list Z) :
  Forall is_bit bits -> length bits = 8 -> unpackbits8 (packbits8 bits) = bits.
Proof.
  intros Hbits Hlen.
  do 8 (destruct bits as [|? bits]; [discriminate Hlen|]).
  destruct bits; [|discriminate Hlen].
  repeat (apply Forall_cons_1 in Hbits as [[-> | ->] Hbits]); reflexivity.
Qed.

Lemma Forall_is_bit_bits_from_bytes (data : list Z) :
  Forall is_bit (bits_from_bytes data).
Proof.
  unfold bits_from_bytes. induction data as [|v data IH]; [constructor|].
  cbn [flat_map]. apply Forall_app. split; [apply Forall_is_bit_unpackbits8 | exact IH].
Qed.

Lemma packbits_bits_from_bytes (data : list Z) :
  Forall is_byte data -> packbits (length data) (bits_from_bytes data) = data.
Proof.
  induction 1 as [|v data Hv _ IH]; [reflexivity|].
  unfold bits_from_bytes in *. cbn [flat_map length packbits].
  rewrite take_app_length' by apply (length_unpackbits8 v).
  rewrite drop_app_length' by apply (length_unpackbits8 v).
  rewrite packbits8_unpackbits8 by exact Hv. rewrite IH. reflexivity.
Qed.

Lemma bits_from_bytes_packbits (n : nat) (bits : list Z) :
  Forall is_bit bits -> length bits = 8 * n ->
  bits_from_bytes (packbits n bits) = bits /\
  Forall is_byte (packbits n bits) /\ length (packbits n bits) = n.
Proof.
  revert bits. induction n as [|n IH]; intros bits Hbits Hlen.
  - destruct bits; [|discriminate Hlen]. repeat split. constructor.
  - cbn [packbits].
    assert (Hhead : length (take 8 bits) = 8) by (rewrite length_take; lia).
    destruct (IH (drop 8 bits) (Forall_drop _ _ _ Hbits)
                 ltac:(rewrite length_drop; lia)) as (Hrest & Hbytes & Hn).
    split; [|split].
    + unfold bits_from_bytes in *. cbn [flat_map].
      rewrite Hrest, unpackbits8_packbits8 by (try apply Forall_take; trivial).
      apply take_drop.
    + apply List.Forall_cons; [|exact Hbytes].
      pose proof (pack_msb_first_range (take 8 bits) (Forall_take _ _ _ Hbits)) as Hr.
      rewrite Hhead in Hr. exact Hr.
    + cbn [length]. rewrite Hn. reflexivity.
Qed.

Lemma bytes_from_bits_packed (data : list Z) :
  Forall is_byte data -> bytes_from_bits (bits_from_bytes data) = Ok data.
Proof.
  intros Hdata. unfold bytes_from_bits.
  rewrite length_bits_from_bytes.
  rewrite (Nat.mul_comm 8), Nat.Div0.mod_mul, Nat.div_mul by lia.
  cbn [Nat.eqb negb]. rewrite packbits_bits_from_bytes by exact Hdata. reflexivity.
Qed.

(** X4: bytes to bits and back.  Unpacking a byte string gives eight bits
    for every byte, and packing them again returns the byte string. *)
Theorem bytes_from_bits_from_bytes (data : list Z) :
  Forall is_byte data ->
  length (bits_from_bytes data) = 8 * length data /\
  Forall is_bit (bits_from_bytes data) /\
  bytes_from_bits (bits_from_bytes data) = Ok data.
Proof.
  intros Hdata. split; [apply length_bits_from_bytes|].
  split; [apply Forall_is_bit_bits_from_bytes | apply bytes_from_bits_packed, Hdata].
Qed.

Lemma bytes_from_bits_from_bytes_witness :
  bytes_from_bits (bits_from_bytes MAGIC) = Ok MAGIC.
Proof.
  apply bytes_from_bits_from_bytes.
  repeat (apply List.Forall_cons; [unfold is_byte; lia|]). apply List.Forall_nil.
Defined.

(** X5: bits to bytes.  [bytes_from_bits] raises exactly on a bit count
    that is not a multiple of eight; otherwise it returns one byte for
    every eight bits, and unpacking them gives the bits back. *)
Theorem bytes_from_bits_spec (bits : list Z) :
  Forall is_bit bits ->
  if length bits mod 8 =? 0
  then exists data,
      bytes_from_bits bits = Ok data /\ length data = length bits / 8 /\
      Forall is_byte data /\ bits_from_bytes data = bits
  else bytes_from_bits bits = Raise (ValueError "Bit length must be multiple of 8.").
Proof.
  intros Hbits. unfold bytes_from_bits.
  destruct (Nat.eqb_spec (length bits mod 8) 0) as [Hmod|Hmod]; cbn [negb]; [|reflexivity].
  pose proof (Nat.div_mod_eq (length bits) 8) as Hdiv.
  destruct (bits_from_bytes_packbits (length bits / 8) bits Hbits ltac:(lia))
    as (Hback & Hbytes & Hlen).
  eexists. repeat split; eassumption.
Qed.

Lemma bytes_from_bits_spec_witness :
  exists data, bytes_from_bits [0; 1; 0; 1; 0; 0; 1; 1]%Z = Ok data /\
               bits_from_bytes data = [0; 1; 0; 1; 0; 0; 1; 1]%Z.
Proof.
  assert (Hbits : Forall is_bit [0; 1; 0; 1; 0; 0; 1; 1]%Z)
    by (repeat (apply List.Forall_cons; [unfold is_bit; lia|]); apply List.Forall_nil).
  destruct (bytes_from_bits_spec _ Hbits) as (data & Hok & _ & _ & Hback).
  exists data. split; assumption.
Defined.

(** ** Framing *)

Lemma length_int_to_bytes_big (n : nat) (v : Z) : length (int_to_bytes_big n v) = n.
Proof.
  revert v. induction n as [|n IH]; intros v; [reflexivity|].
  cbn [int_to_bytes_big]. rewrite length_app, IH. cbn [length]. lia.
Qed.

Lemma Forall_is_byte_int_to_bytes_big (n : nat) (v : Z) :
  Forall is_byte (int_to_bytes_big n v).
Proof.
  revert v. induction n as [|n IH]; intros v; [constructor|].
  cbn [int_to_bytes_big]. apply Forall_app. split; [apply IH|].
  apply List.Forall_cons; [|apply List.Forall_nil].
  unfold is_byte. apply Z.mod_pos_bound. lia.
Qed.

Lemma int_from_to_bytes_big (n : nat) (v : Z) :
  (0 <= v < 256 ^ Z.of_nat n)%Z -> int_from_bytes_big (int_to_bytes_big n v) = v.
Proof.
  revert v. induction n as [|n IH]; intros v Hv.
  - cbn in *. lia.
  - cbn [int_to_bytes_big]. rewrite int_from_bytes_big_snoc, IH.
    + pose proof (Z.div_mod v 256 ltac:(lia)). lia.
    + replace (Z.of_nat (S n)) with (Z.succ (Z.of_nat n)) in Hv by lia.
      rewrite Z.pow_succ_r in Hv by lia.
      split; [apply Z.div_pos; lia|].
      apply Z.div_lt_upper_bound; lia.
Qed.

Lemma pack_bytes_exact (n : nat) (b : list Z) : length b = n -> pack_bytes n b = b.
Proof. intros Hlen. unfold pack_bytes. apply take_app_length'. symmetry. exact Hlen. Qed.

Lemma length_pack_bytes (n : nat) (b : list Z) : length (pack_bytes n b) = n.
Proof.
  unfold pack_bytes. rewrite length_take, length_app, length_replicate. lia.
Qed.

Lemma pack_uint_done (n : nat) (v : Z) (b : list Z) :
  pack_uint n v = Done b ->
  (0 <= v < 256 ^ Z.of_nat n)%Z /\ b = int_to_bytes_big n v.
Proof.
  unfold pack_uint.
  destruct (Z.leb_spec 0 v); destruct (Z.ltb_spec v (256 ^ Z.of_nat n));
    cbn [andb]; intros [= <-] || discriminate.
  split; [lia | reflexivity].
Qed.

Lemma slice_app_3 {A} (a b c : list A) (i j : nat) :
  i = length a -> j = length a + length b -> slice (a ++ b ++ c) i j = b.
Proof.
  intros -> ->. unfold slice.
  rewrite drop_app_length.
  replace (length a + length b - length a) with (length b) by lia.
  apply take_app_length.
Qed.

Lemma pack_header_done (magic salt nonce header : list Z) (payload_len : nat) :
  length magic = 4 -> length salt = 16 -> length nonce = 12 ->
  pack_header magic payload_len salt nonce = Done header ->
  (Z.of_nat payload_len < 2 ^ 32)%Z /\
  header = magic ++ int_to_bytes_big 4 (Z.of_nat payload_len) ++ salt ++ nonce.
Proof.
  intros Hmagic Hsalt Hnonce. unfold pack_header.
  destruct (pack_uint 4 (Z.of_nat payload_len)) as [len|e] eqn:Hlen; [|discriminate].
  apply pack_uint_done in Hlen as [Hfit ->]. cbn. intros [= <-].
  rewrite !pack_bytes_exact by assumption.
  split; [change (2 ^ 32)%Z with (256 ^ Z.of_nat 4)%Z; lia | reflexivity].
Qed.

Lemma unpack_header_packed (magic salt nonce : list Z) (payload_len : nat) :
  length magic = 4 -> length salt = 16 -> length nonce = 12 ->
  (Z.of_nat payload_len < 2 ^ 32)%Z ->
  unpack_header (magic ++ int_to_bytes_big 4 (Z.of_nat payload_len) ++ salt ++ nonce)
  = Done (magic, payload_len, salt, nonce).
Proof.
  intros Hmagic Hsalt Hnonce Hfit.
  pose proof (length_int_to_bytes_big 4 (Z.of_nat payload_len)) as Hlen4.
  unfold unpack_header.
  rewrite !length_app, Hmagic, Hsalt, Hnonce, Hlen4. cbn [Nat.add Nat.eqb HEADER_LEN].
  f_equal. f_equal; [f_equal; [f_equal|]|].
  - apply (slice_app_3 []); [reflexivity | cbn [length]; lia].
  - rewrite (slice_app_3 magic _ _ 4 8) by lia.
    rewrite int_from_to_bytes_big by (change (256 ^ Z.of_nat 4)%Z with (2 ^ 32)%Z; lia).
    apply Nat2Z.id.
  - rewrite (app_assoc magic).
    apply slice_app_3; rewrite length_app; lia.
  - rewrite (app_assoc magic), (app_assoc (magic ++ _)).
    rewrite <- (app_nil_r nonce) at 1.
    apply slice_app_3; rewrite !length_app; lia.
Qed.

(** X6: the outer header.  Packing a header of four magic bytes, a length
    below 2^32, a 16-byte salt and a 12-byte nonce gives 36 bytes from
    which [unpack_header] reads the same four fields; a length of 2^32
    or more is refused. *)
Theorem pack_unpack_header (magic salt nonce : list Z) (payload_len : nat) :
  length magic = 4 -> length salt = 16 -> length nonce = 12 ->
  if (Z.of_nat payload_len <? 2 ^ 32)%Z
  then exists header,
      pack_header magic payload_len salt nonce = Done header /\
      length header = HEADER_LEN /\
      unpack_header header = Done (magic, payload_len, salt, nonce)
  else pack_header magic payload_len salt nonce = Abort StructError.
Proof.
  intros Hmagic Hsalt Hnonce.
  destruct (Z.ltb_spec (Z.of_nat payload_len) (2 ^ 32)) as [Hfit|Hbig].
  - destruct (pack_header magic payload_len salt nonce) as [header|e] eqn:Hpack.
    + destruct (pack_header_done _ _ _ _ _ Hmagic Hsalt Hnonce Hpack) as [_ ->].
      eexists. split; [reflexivity|]. split.
      * rewrite !length_app, Hmagic, Hsalt, Hnonce, length_int_to_bytes_big. reflexivity.
      * apply unpack_header_packed; assumption.
    + exfalso. revert Hpack. unfold pack_header, pack_uint.
      change (256 ^ Z.of_nat 4)%Z with (2 ^ 32)%Z.
      destruct (Z.leb_spec 0 (Z.of_nat payload_len)); [|lia].
      destruct (Z.ltb_spec (Z.of_nat payload_len) (2 ^ 32)); [|lia].
      discriminate.
  - unfold pack_header, pack_uint. change (256 ^ Z.of_nat 4)%Z with (2 ^ 32)%Z.
    destruct (Z.ltb_spec (Z.of_nat payload_len) (2 ^ 32)); [lia|].
    rewrite andb_false_r. reflexivity.
Qed.

Lemma pack_unpack_header_witness :
  exists header,
    pack_header MAGIC 70 (replicate 16 7%Z) (replicate 12 9%Z) = Done header /\
    unpack_header header = Done (MAGIC, 70, replicate 16 7%Z, replicate 12 9%Z).
Proof.
  pose proof (pack_unpack_header MAGIC (replicate 16 7%Z) (replicate 12 9%Z) 70
                eq_refl eq_refl eq_refl) as Hpack.
  change (Z.of_nat 70 <? 2 ^ 32)%Z with true in Hpack.
  destruct Hpack as (header & Hdone & _ & Hunpack).
  exists header. split; assumption.
Defined.

(** ** Inner payload *)

Lemma encode_utf8_empty (s : string) : str_empty s = true -> encode_utf8 s = [].
Proof. destruct s; [reflexivity | discriminate]. Qed.

Lemma build_inner_payload_done `{Hashlib} `{Compressor} (data : list Z) (filename : string)
    (inner : list Z) :
  build_inner_payload data filename = Done inner ->
  (Z.of_nat (length (encode_utf8 filename)) <= 65535)%Z /\
  inner = pack_bytes 32 (sha256 data)
            ++ int_to_bytes_big 2 (Z.of_nat (length (encode_utf8 filename)))
            ++ encode_utf8 filename ++ zlib_compress data.
Proof.
  unfold build_inner_payload.
  replace (if str_empty filename then [] else encode_utf8 filename)
    with (encode_utf8 filename)
    by (destruct (str_empty filename) eqn:E; [apply encode_utf8_empty, E | reflexivity]).
  destruct (Z.ltb_spec 65535 (Z.of_nat (length (encode_utf8 filename)))); [discriminate|].
  unfold pack_32sH, pack_uint. change (256 ^ Z.of_nat 2)%Z with 65536%Z.
  destruct (Z.leb_spec 0 (Z.of_nat (length (encode_utf8 filename)))); [|lia].
  destruct (Z.ltb_spec (Z.of_nat (length (encode_utf8 filename))) 65536); [|lia].
  cbn. intros [= <-]. split; [lia|]. rewrite <- !app_assoc. reflexivity.
Qed.

(** The parser on a well-formed inner payload. *)
Lemma parse_inner_payload_built `{Codecs} (data_hash name_bytes compressed : list Z) :
  length data_hash = 32 -> (Z.of_nat (length name_bytes) <= 65535)%Z ->
  parse_inner_payload
    (data_hash ++ int_to_bytes_big 2 (Z.of_nat (length name_bytes))
       ++ name_bytes ++ compressed)
  = match zlib_decompress compressed with
    | Some data => Ok (data_hash, utf8_decode_replace name_bytes, data)
    | None => Raise ZlibError
    end.
Proof.
  intros Hhash Hname.
  set (len2 := int_to_bytes_big 2 (Z.of_nat (length name_bytes))).
  assert (Hlen2 : length len2 = 2) by apply length_int_to_bytes_big.
  set (p := data_hash ++ len2 ++ name_bytes ++ compressed).
  assert (Hp : length p = 34 + length name_bytes + length compressed)
    by (subst p; rewrite !length_app; lia).
  assert (Hhead : take 34 p = data_hash ++ len2).
  { subst p. rewrite app_assoc. apply take_app_length'. rewrite length_app. lia. }
  assert (Hnl : name_len_of p = length name_bytes).
  { unfold name_len_of, unpack_32sH. cbn [snd]. rewrite Hhead.
    rewrite drop_app_length' by lia. subst len2.
    rewrite int_from_to_bytes_big by (change (256 ^ Z.of_nat 2)%Z with 65536%Z; lia).
    apply Nat2Z.id. }
  rewrite parse_inner_payload_cases, Hnl.
  destruct (Nat.ltb_spec (length p) 34); [lia|].
  destruct (Nat.ltb_spec (length p) (34 + length name_bytes)); [lia|].
  assert (Hdrop : drop (34 + length name_bytes) p = compressed).
  { subst p. rewrite !app_assoc. apply drop_app_length'. rewrite !length_app. lia. }
  assert (Hslice : slice p 34 (34 + length name_bytes) = name_bytes).
  { subst p. rewrite app_assoc. apply slice_app_3; rewrite length_app; lia. }
  assert (Htake : take 32 p = data_hash).
  { subst p. apply take_app_length'. lia. }
  rewrite Hdrop, Hslice, Htake. reflexivity.
Qed.

(** X7: the inner payload.  What [build_inner_payload] builds,
    [parse_inner_payload] reads back: the SHA-256 of the data, the file
    name and the data. *)
Theorem build_parse_inner_payload `{Hashlib} `{Codecs} `{Compressor}
    (data : list Z) (filename : string) (inner : list Z) :
  zlib_correct -> utf8_correct filename -> length (sha256 data) = 32 ->
  build_inner_payload data filename = Done inner ->
  parse_inner_payload inner = Ok (sha256 data, filename, data).
Proof.
  intros Hzlib Hutf8 Hhash Hbuild.
  apply build_inner_payload_done in Hbuild as [Hname ->].
  rewrite pack_bytes_exact by exact Hhash.
  rewrite parse_inner_payload_built by assumption.
  rewrite Hzlib, Hutf8. reflexivity.
Qed.

Lemma build_parse_inner_payload_witness :
  exists inner,
    @build_inner_payload sample_hashlib plain_compressor [104; 105]%Z "a.txt" = Done inner /\
    @parse_inner_payload plain_codecs inner = Ok (replicate 32 0%Z, "a.txt"%string, [104; 105]%Z).
Proof.
  destruct (@build_inner_payload sample_hashlib plain_compressor [104; 105]%Z "a.txt")
    as [inner|e] eqn:Hbuild; [|vm_compute in Hbuild; discriminate].
  exists inner. split; [reflexivity|].
  apply (@build_parse_inner_payload sample_hashlib plain_codecs plain_compressor
           [104; 105]%Z "a.txt" inner); try reflexivity.
  - intros data. reflexivity.
  - exact Hbuild.
Defined.

(** X8: file names.  [build_inner_payload] refuses exactly the names
    whose UTF-8 encoding is longer than 65535 bytes; any other name,
    the empty one included, gives a payload of 34 bytes of header, the
    name and the compressed data. *)
Theorem build_inner_payload_filename `{Hashlib} `{Compressor} (data : list Z)
    (filename : string) :
  if (65535 <? Z.of_nat (length (encode_utf8 filename)))%Z
  then build_inner_payload data filename
       = Abort (Exception (ValueError "Filename too long."))
  else exists inner,
      build_inner_payload data filename = Done inner /\
      length inner = 34 + length (encode_utf8 filename) + length (zlib_compress data) /\
      take 32 inner = pack_bytes 32 (sha256 data).
Proof.
  destruct (build_inner_payload data filename) as [inner|e] eqn:Hbuild.
  - destruct (build_inner_payload_done _ _ _ Hbuild) as [Hname ->].
    destruct (Z.ltb_spec 65535 (Z.of_nat (length (encode_utf8 filename)))); [lia|].
    eexists. split; [reflexivity|]. split.
    + rewrite !length_app, length_pack_bytes, length_int_to_bytes_big. lia.
    + apply take_app_length'. rewrite length_pack_bytes. reflexivity.
  - revert Hbuild. unfold build_inner_payload.
    replace (if str_empty filename then [] else encode_utf8 filename)
      with (encode_utf8 filename)
      by (destruct (str_empty filename) eqn:E; [apply encode_utf8_empty, E | reflexivity]).
    destruct (Z.ltb_spec 65535 (Z.of_nat (length (encode_utf8 filename))));
      [intros [= <-]; reflexivity|].
    unfold pack_32sH, pack_uint. change (256 ^ Z.of_nat 2)%Z with 65536%Z.
    destruct (Z.leb_spec 0 (Z.of_nat (length (encode_utf8 filename)))); [|lia].
    destruct (Z.ltb_spec (Z.of_nat (length (encode_utf8 filename))) 65536); [|lia].
    discriminate.
Qed.

(** ** Key derivation and encryption *)

Lemma encrypt_payload_done `{Crypto} (plaintext : list Z) (passphrase : string)
    (salt nonce ciphertext salt' nonce' : list Z) :
  encrypt_payload plaintext passphrase salt nonce = Ok (ciphertext, salt', nonce') ->
  str_empty passphrase = false /\ salt' = salt /\ nonce' = nonce /\
  ciphertext
  = aesgcm_encrypt (pbkdf2_hmac_sha256 (encode_utf8 passphrase) salt PBKDF2_ITERS 32)
      nonce plaintext.
Proof.
  unfold encrypt_payload, derive_key.
  destruct (str_empty passphrase); [discriminate|].
  cbn. intros [= <- <- <-]. repeat split.
Qed.

Lemma decrypt_payload_encrypted `{Crypto} (plaintext : list Z) (passphrase : string)
    (salt nonce : list Z) :
  aead_correct -> str_empty passphrase = false ->
  decrypt_payload
    (aesgcm_encrypt (pbkdf2_hmac_sha256 (encode_utf8 passphrase) salt PBKDF2_ITERS 32)
       nonce plaintext)
    passphrase salt nonce
  = Done plaintext.
Proof.
  intros Haead Hkey. unfold decrypt_payload, derive_key. rewrite Hkey.
  cbn. rewrite Haead. reflexivity.
Qed.

(** X9: encryption.  With a non-empty passphrase [decrypt_payload] under
    the same passphrase, salt and nonce returns what [encrypt_payload]
    encrypted; with an empty passphrase both raise "Key is required."
    before any cryptography. *)
Theorem encrypt_decrypt_payload `{Crypto} (plaintext : list Z) (passphrase : string)
    (salt nonce : list Z) :
  aead_correct ->
  if str_empty passphrase
  then encrypt_payload plaintext passphrase salt nonce
       = Raise (ValueError "Key is required.") /\
       forall ciphertext,
         decrypt_payload ciphertext passphrase salt nonce
         = Abort (Exception (ValueError "Key is required."))
  else exists ciphertext,
      encrypt_payload plaintext passphrase salt nonce = Ok (ciphertext, salt, nonce) /\
      decrypt_payload ciphertext passphrase salt nonce = Done plaintext.
Proof.
  intros Haead. destruct (str_empty passphrase) eqn:Hkey.
  - unfold encrypt_payload, decrypt_payload, derive_key. rewrite Hkey.
    split; [reflexivity | intros ciphertext; reflexivity].
  - eexists. split.
    + unfold encrypt_payload, derive_key. rewrite Hkey. reflexivity.
    + apply decrypt_payload_encrypted; assumption.
Qed.

Lemma plain_crypto_correct : @aead_correct plain_crypto.
Proof. intros key nonce plaintext. reflexivity. Qed.

Lemma encrypt_decrypt_payload_witness :
  exists ciphertext,
    @encrypt_payload plain_crypto [1; 2; 3]%Z "k" (replicate 16 7%Z) (replicate 12 9%Z)
    = Ok (ciphertext, replicate 16 7%Z, replicate 12 9%Z) /\
    @decrypt_payload plain_crypto ciphertext "k" (replicate 16 7%Z) (replicate 12 9%Z)
    = Done [1; 2; 3]%Z.
Proof.
  exact (@encrypt_decrypt_payload plain_crypto [1; 2; 3]%Z "k" (replicate 16 7%Z)
           (replicate 12 9%Z) plain_crypto_correct).
Defined.

(** ** Request handlers *)

Lemma embed_handler_done `{Hashlib} `{NumpyRandom} `{Crypto} `{Compressor}
    (arr : image) (key : string) (data : list Z) (filename : string)
    (salt nonce : list Z) (stego : image) (metrics : Metrics) :
  embed_handler arr key data filename salt nonce = Done (stego, metrics) ->
  exists inner ciphertext header,
    build_inner_payload data filename = Done inner /\
    encrypt_payload inner key salt nonce = Ok (ciphertext, salt, nonce) /\
    pack_header MAGIC (length ciphertext) salt nonce = Done header /\
    embed_bits arr (bits_from_bytes (header ++ ciphertext)) key = Ok stego /\
    metrics = compute_metrics arr stego (length (bits_from_bytes (header ++ ciphertext))).
Proof.
  unfold embed_handler.
  destruct (build_inner_payload data filename) as [inner|e] eqn:Hbuild; [|discriminate].
  cbn [mbind response_bind].
  destruct (encrypt_payload inner key salt nonce) as [[[ciphertext salt'] nonce']|e] eqn:Henc;
    [|discriminate].
  destruct (encrypt_payload_done _ _ _ _ _ _ _ Henc) as (_ & -> & -> & _).
  cbn [lift mbind response_bind].
  destruct (pack_header MAGIC (length ciphertext) salt nonce) as [header|e] eqn:Hpack;
    [|discriminate].
  cbn [mbind response_bind]. unfold embed.
  destruct (embed_bits arr (bits_from_bytes (header ++ ciphertext)) key) as [stego'|e]
    eqn:Hbits; [|discriminate].
  cbn. intros [= <- <-].
  exists inner, ciphertext, header. repeat split; assumption || reflexivity.
Qed.

Lemma bits_from_bytes_app (a b : list Z) :
  bits_from_bytes (a ++ b) = bits_from_bytes a ++ bits_from_bytes b.
Proof. unfold bits_from_bytes. apply flat_map_app. Qed.

Lemma Forall_is_byte_MAGIC : Forall is_byte MAGIC.
Proof.
  unfold MAGIC. repeat (apply List.Forall_cons; [unfold is_byte; lia|]).
  apply List.Forall_nil.
Qed.

(** X10: end to end.  When the depth map of the stego array equals that of
    the cover, [/api/extract] on the stego array returns the data that
    [/api/embed] hid, with [verified = true] and its SHA-256; the file
    name comes back unless it was empty, in which case the answer says
    "extracted.bin". *)
Theorem extract_embed_handler `{Hashlib} `{NumpyRandom} `{Crypto} `{Codecs} `{Compressor}
    (arr : image) (key : string) (data : list Z) (filename : string)
    (salt nonce : list Z) (stego : image) (metrics : Metrics) :
  wf_image arr -> shuffle_permutes ->
  aead_correct -> zlib_correct -> utf8_correct filename ->
  length (sha256 data) = 32 ->
  length salt = 16 -> Forall is_byte salt -> length nonce = 12 -> Forall is_byte nonce ->
  ciphertext_is_bytes key data filename salt nonce ->
  embed_handler arr key data filename salt nonce = Done (stego, metrics) ->
  compute_edge_depth_map stego = compute_edge_depth_map arr ->
  extract_handler stego key
  = Done {| out_filename := if str_empty filename then "extracted.bin"%string else filename;
            out_data := data;
            out_verified := true;
            out_sha256 := sha256 data |}.
Proof.
  intros Hwf Hperm Haead Hzlib Hutf8 Hhash Hsalt Hsaltb Hnonce Hnonceb Hct Hembed Hstable.
  destruct (embed_handler_done _ _ _ _ _ _ _ _ Hembed)
    as (inner & ciphertext & header & Hbuild & Henc & Hpack & Hbits & _).
  specialize (Hct inner ciphertext Hbuild Henc).
  destruct (encrypt_payload_done _ _ _ _ _ _ _ Henc) as (Hkey & _ & _ & ->).
  set (ciphertext := aesgcm_encrypt _ nonce inner) in *.
  destruct (pack_header_done MAGIC salt nonce header (length ciphertext)
              eq_refl Hsalt Hnonce Hpack) as [Hfit ->].
  set (header := MAGIC ++ int_to_bytes_big 4 (Z.of_nat (length ciphertext)) ++ salt ++ nonce)
    in *.
  assert (Hheader_len : length header = HEADER_LEN).
  { unfold header. rewrite !length_app, Hsalt, Hnonce, length_int_to_bytes_big. reflexivity. }
  assert (Hheader_bytes : Forall is_byte header).
  { unfold header. apply Forall_app. split; [apply Forall_is_byte_MAGIC|].
    apply Forall_app. split; [apply Forall_is_byte_int_to_bytes_big|].
    apply Forall_app. split; assumption. }
  set (bits := bits_from_bytes (header ++ ciphertext)) in *.
  assert (Hbits_len : length bits = (HEADER_LEN + length ciphertext) * 8).
  { unfold bits. rewrite length_bits_from_bytes, length_app, Hheader_len. lia. }
  assert (Hbits_bits : Forall is_bit bits) by apply Forall_is_bit_bits_from_bytes.
  assert (Hphase1 : extract_bits stego (HEADER_LEN * 8) key = Ok (bits_from_bytes header)).
  { rewrite (extract_bits_take arr bits key stego (HEADER_LEN * 8) Hwf Hperm
               Hbits_bits Hbits Hstable) by lia.
    f_equal. unfold bits. rewrite bits_from_bytes_app.
    apply take_app_length'. rewrite length_bits_from_bytes, Hheader_len. lia. }
  assert (Hphase2 : extract_bits stego ((HEADER_LEN + length ciphertext) * 8) key = Ok bits).
  { rewrite (extract_bits_take arr bits key stego _ Hwf Hperm
               Hbits_bits Hbits Hstable) by lia.
    f_equal. apply take_ge. lia. }
  unfold extract_handler.
  rewrite Hphase1. cbn [lift mbind response_bind].
  rewrite bytes_from_bits_packed by exact Hheader_bytes. cbn [lift mbind response_bind].
  unfold header at 1. rewrite unpack_header_packed by trivial. cbn [mbind response_bind].
  rewrite bool_decide_eq_true_2 by reflexivity. cbn [negb].
  rewrite Hphase2. cbn [lift mbind response_bind].
  unfold bits. rewrite bytes_from_bits_packed
    by (apply Forall_app; split; [exact Hheader_bytes | exact Hct]).
  cbn [lift mbind response_bind].
  rewrite drop_app_length' by (symmetry; exact Hheader_len).
  unfold ciphertext. rewrite decrypt_payload_encrypted by assumption.
  cbn [mbind response_bind].
  apply build_inner_payload_done in Hbuild as [Hname ->].
  rewrite pack_bytes_exact by exact Hhash.
  rewrite parse_inner_payload_built by assumption.
  rewrite Hzlib, Hutf8. cbn [lift mbind response_bind].
  rewrite bool_decide_eq_true_2 by reflexivity. reflexivity.
Qed.

Lemma extract_embed_handler_witness :
  exists stego metrics,
    @embed_handler sample_hashlib sample_rng plain_crypto plain_compressor
      (checker 20 20) "k" [104; 105]%Z "a.txt" (replicate 16 7%Z) (replicate 12 9%Z)
    = Done (stego, metrics) /\
    @extract_handler sample_hashlib sample_rng plain_crypto plain_codecs stego "k"
    = Done {| out_filename := "a.txt"; out_data := [104; 105]%Z; out_verified := true;
              out_sha256 := replicate 32 0%Z |}.
Proof.
  destruct (@embed_handler sample_hashlib sample_rng plain_crypto plain_compressor
              (checker 20 20) "k" [104; 105]%Z "a.txt" (replicate 16 7%Z)
              (replicate 12 9%Z)) as [[stego metrics]|e] eqn:Hembed;
    [|vm_compute in Hembed; discriminate].
  exists stego, metrics. split; [reflexivity|].
  apply (@extract_embed_handler sample_hashlib sample_rng plain_crypto plain_codecs
           plain_compressor (checker 20 20) "k" [104; 105]%Z "a.txt"
           (replicate 16 7%Z) (replicate 12 9%Z) stego metrics).
  - apply wf_image_checker; lia.
  - exact sample_rng_permutes.
  - exact plain_crypto_correct.
  - intros data. reflexivity.
  - reflexivity.
  - reflexivity.
  - reflexivity.
  - apply Forall_replicate. unfold is_byte. lia.
  - reflexivity.
  - apply Forall_replicate. unfold is_byte. lia.
  - intros inner ciphertext Hbuild Henc.
    vm_compute in Hbuild. injection Hbuild as <-.
    vm_compute in Henc. injection Henc as <-.
    repeat (apply List.Forall_cons; [unfold is_byte; lia|]). apply List.Forall_nil.
  - exact Hembed.
  - vm_compute in Hembed. injection Hembed as <- _. vm_compute. reflexivity.
Defined.

(** X11: no key.  With an empty key [/api/embed] embeds nothing: it ends
    with "Filename too long." when the name is too long and with "Key is
    required." otherwise; and [/api/extract] never returns a result. *)
Theorem handlers_require_key `{Hashlib} `{NumpyRandom} `{Crypto} `{Codecs} `{Compressor}
    (arr : image) (key : string) (data : list Z) (filename : string)
    (salt nonce : list Z) :
  str_empty key = true ->
  embed_handler arr key data filename salt nonce
  = Abort (Exception (ValueError
             (if (65535 <? Z.of_nat (length (encode_utf8 filename)))%Z
              then "Filename too long." else "Key is required."))) /\
  forall answer, extract_handler arr key <> Done answer.
Proof.
  intros Hkey. split.
  - unfold embed_handler.
    destruct (build_inner_payload data filename) as [inner|e] eqn:Hbuild.
    + destruct (build_inner_payload_done _ _ _ Hbuild) as [Hname _].
      destruct (Z.ltb_spec 65535 (Z.of_nat (length (encode_utf8 filename)))); [lia|].
      cbn [mbind response_bind]. unfold encrypt_payload, derive_key. rewrite Hkey.
      reflexivity.
    + revert Hbuild. unfold build_inner_payload.
      replace (if str_empty filename then [] else encode_utf8 filename)
        with (encode_utf8 filename)
        by (destruct (str_empty filename) eqn:E; [apply encode_utf8_empty, E | reflexivity]).
      destruct (Z.ltb_spec 65535 (Z.of_nat (length (encode_utf8 filename))));
        [intros [= <-]; reflexivity|].
      unfold pack_32sH, pack_uint. change (256 ^ Z.of_nat 2)%Z with 65536%Z.
      destruct (Z.leb_spec 0 (Z.of_nat (length (encode_utf8 filename)))); [|lia].
      destruct (Z.ltb_spec (Z.of_nat (length (encode_utf8 filename))) 65536); [|lia].
      discriminate.
  - intros answer. unfold extract_handler.
    destruct (extract_bits arr (HEADER_LEN * 8) key) as [header_bits|e]; [|discriminate].
    cbn [lift mbind response_bind].
    destruct (bytes_from_bits header_bits) as [header|e]; [|discriminate].
    cbn [lift mbind response_bind].
    destruct (unpack_header header) as [[[[magic payload_len] salt'] nonce']|e];
      [|discriminate].
    cbn [mbind response_bind].
    destruct (negb _); [discriminate|].
    destruct (extract_bits arr _ key) as [all_bits|e]; [|discriminate].
    cbn [lift mbind response_bind].
    destruct (bytes_from_bits all_bits) as [all_bytes|e]; [|discriminate].
    cbn [lift mbind response_bind].
    unfold decrypt_payload, derive_key. rewrite Hkey. discriminate.
Qed.

Lemma handlers_require_key_witness :
  @embed_handler sample_hashlib sample_rng plain_crypto plain_compressor
    (checker 4 4) "" [104; 105]%Z "a.txt" (replicate 16 7%Z) (replicate 12 9%Z)
  = Abort (Exception (ValueError "Key is required.")).
Proof.
  exact (proj1 (@handlers_require_key sample_hashlib sample_rng plain_crypto plain_codecs
                  plain_compressor (checker 4 4) "" [104; 105]%Z "a.txt"
                  (replicate 16 7%Z) (replicate 12 9%Z) eq_refl)).
Defined.

(** ** Engine edge cases *)

(** X12: nothing to embed, nothing to extract.  Embedding the empty bit
    stream returns the cover as it is, and extracting zero bits returns
    the empty array. *)
Theorem empty_payload `{Hashlib} `{NumpyRandom} (arr : image) (passphrase : string) :
  wf_image arr -> shuffle_permutes ->
  embed_bits arr [] passphrase = Ok arr /\
  extract_bits arr 0 passphrase = Ok [].
Proof.
  intros Hwf Hperm.
  pose proof (traversal_order_bound (height arr) (width arr) passphrase Hperm) as Horder.
  pose proof (np_sum_depth_map_nonneg arr) as Hsum.
  split.
  - unfold embed_bits. cbn [np_repeat length].
    destruct (Z.ltb_spec (np_sum (compute_edge_depth_map arr) * 3) (Z.of_nat 0)); [lia|].
    destruct (traversal_order (height arr) (width arr) passphrase) as [|idx order].
    + cbn [for_each]. destruct arr; reflexivity.
    + apply Forall_cons_1 in Horder as [Hidx _].
      destruct (depth_map_lookup_pos arr idx Hidx) as (depth & Hd & Hpos).
      rewrite (for_each_return _ _ _ _ _
                 (embed_pixel_done _ [] (pixels arr) idx 0 depth Hd Hpos ltac:(cbn; lia))).
      destruct arr; reflexivity.
  - unfold extract_bits, extract_raw. cbn [Nat.mul replicate].
    destruct (traversal_order (height arr) (width arr) passphrase) as [|idx order].
    + reflexivity.
    + apply Forall_cons_1 in Horder as [Hidx _].
      destruct (depth_map_lookup_pos arr idx Hidx) as (depth & Hd & Hpos).
      rewrite (for_each_return _ _ _ _ _
                 (extract_pixel_done _ (pixels arr) [] idx 0 depth Hd Hpos
                    ltac:(cbn; lia))).
      reflexivity.
Qed.

Lemma empty_payload_witness :
  @embed_bits sample_hashlib sample_rng (checker 4 4) [] "k" = Ok (checker 4 4) /\
  @extract_bits sample_hashlib sample_rng (checker 4 4) 0 "k" = Ok [].
Proof.
  exact (@empty_payload sample_hashlib sample_rng (checker 4 4) "k"
           (wf_image_checker 4 4 ltac:(lia) ltac:(lia)) sample_rng_permutes).
Defined.

(** X13: a ragged tail.  [decode_redundancy] votes over the complete rows
    of three and drops one or two raw bits left over at the end. *)
Theorem decode_redundancy_ragged_tail (raw tail : list Z) :
  length raw mod 3 = 0 -> length tail < 3 ->
  decode_redundancy (raw ++ tail) = decode_redundancy raw /\
  length (decode_redundancy (raw ++ tail)) = length (raw ++ tail) / 3.
Proof.
  intros Hraw Htail.
  assert (Htail_nil : decode_redundancy tail = []).
  { destruct tail as [|a [|b [|c tail]]]; try reflexivity. cbn [length] in Htail. lia. }
  assert (Hk : exists k, length raw = k * 3).
  { exists (length raw / 3). pose proof (Nat.div_mod_eq (length raw) 3). lia. }
  destruct Hk as [k Hk].
  assert (Hsame : decode_redundancy (raw ++ tail) = decode_redundancy raw).
  { clear Hraw. revert raw Hk. induction k as [|k IH]; intros raw Hk.
    - destruct raw; [|discriminate]. cbn [app]. rewrite Htail_nil. reflexivity.
    - destruct raw as [|x [|y [|z raw]]]; cbn [length] in Hk; try lia.
      cbn [app]. rewrite !decode_redundancy_cons3, IH by lia. reflexivity. }
  split; [exact Hsame|].
  rewrite Hsame, (length_decode_redundancy k) by exact Hk.
  rewrite length_app, Hk, Nat.div_add_l, (Nat.div_small (length tail)) by lia. lia.
Qed.

Lemma decode_redundancy_ragged_tail_witness :
  decode_redundancy ([1; 1; 0; 0; 0; 1] ++ [1])%Z = decode_redundancy [1; 1; 0; 0; 0; 1]%Z.
Proof.
  exact (proj1 (decode_redundancy_ragged_tail [1; 1; 0; 0; 0; 1]%Z [1]%Z eq_refl
                  ltac:(cbn; lia))).
Defined.

(** ** Capacity and fidelity *)

Lemma np_sum_one_or_two (l : list Z) :
  Forall (fun d => d = 1%Z \/ d = 2%Z) l ->
  (Z.of_nat (length l) <= np_sum l <= 2 * Z.of_nat (length l))%Z.
Proof.
  induction 1 as [|d l Hd _ IH]; [cbn; lia|].
  cbn [np_sum foldr length]. fold (np_sum l). lia.
Qed.

(** X14: capacity.  The capacity that [compute_metrics] reports lies
    between one and two bits per pixel: at least [h*w/8] and at most
    [2*h*w/8] bytes. *)
Theorem capacity_bytes_bounds (original stego : image) (used_bits : nat) :
  let n_pixels := height original * width original in
  n_pixels / 8 <= capacity_bytes (compute_metrics original stego used_bits)
  <= 2 * n_pixels / 8.
Proof.
  cbv zeta. cbn [compute_metrics capacity_bytes]. unfold REDUNDANCY.
  assert (H12 : Forall (fun d => d = 1%Z \/ d = 2%Z) (compute_edge_depth_map original)).
  { apply Forall_lookup. intros idx d Hd. exact (depth_map_one_or_two _ _ _ Hd). }
  apply np_sum_one_or_two in H12. rewrite length_compute_edge_depth_map in H12.
  set (total := np_sum (compute_edge_depth_map original)) in *.
  replace (Z.to_nat (total * 3) / 3) with (Z.to_nat total)
    by (rewrite Z2Nat.inj_mul by lia; symmetry; apply Nat.div_mul; lia).
  split; apply Nat.Div0.div_le_mono; lia.
Qed.

Lemma seed_from_key_range_witness :
  (0 <= @seed_from_key sample_hashlib "k" < 2 ^ 64)%Z.
Proof.
  apply (@seed_from_key_range sample_hashlib "k").
  apply Forall_replicate. unfold is_byte. lia.
Defined.

(** ** The magic test on a small image *)

Lemma length_packbits (n : nat) (bits : list Z) : length (packbits n bits) = n.
Proof.
  revert bits. induction n as [|n IH]; intros bits; cbn [packbits length]; [reflexivity|].
  rewrite IH. reflexivity.
Qed.

Lemma packbits_lookup (n i : nat) (bits : list Z) :
  i < n -> packbits n bits !! i = Some (packbits8 (take 8 (drop (8 * i) bits))).
Proof.
  revert i bits. induction n as [|n IH]; intros i bits Hi; [lia|].
  destruct i as [|i]; cbn [packbits]; [reflexivity|].
  cbn [lookup list_lookup]. change (packbits n (drop 8 bits) !! i
                                    = Some (packbits8 (take 8 (drop (8 * S i) bits)))).
  rewrite IH by lia. rewrite drop_drop.
  replace (8 * S i) with (8 + 8 * i) by lia. reflexivity.
Qed.

(** A byte packed from eight bits of which the last is 0 is even. *)
Lemma packbits8_even (bits : list Z) :
  bits !! 7 = Some 0%Z -> exists v, packbits8 (take 8 bits) = (2 * v)%Z.
Proof.
  intros H7. rewrite (take_S_r bits 7 0%Z H7).
  unfold packbits8. rewrite pack_msb_first_snoc, Z.lor_0_r, Z.shiftl_mul_pow2 by lia.
  exists (pack_msb_first (take 7 bits)). lia.
Qed.

(** [extract_bits] pads: the decoded bits whose three copies lie beyond
    the raw capacity of the image are 0. *)
Lemma extract_bits_padded `{Hashlib} `{NumpyRandom} (arr : image) (total_bits : nat)
    (passphrase : string) :
  wf_image arr -> shuffle_permutes ->
  exists bits,
    extract_bits arr total_bits passphrase = Ok bits /\ length bits = total_bits /\
    forall i, Z.to_nat (np_sum (compute_edge_depth_map arr) * 3) <= i * 3 ->
              i < total_bits -> bits !! i = Some 0%Z.
Proof.
  intros (Hh & Hw & Hlen & Hbytes) Hperm.
  pose proof (extract_loop_inv (height arr * width arr) (total_bits * REDUNDANCY)
                (compute_edge_depth_map arr) (pixels arr)
                (length_compute_edge_depth_map arr) (depth_map_one_or_two arr) Hlen
                (traversal_order (height arr) (width arr) passphrase)
                (traversal_order_bound _ _ _ Hperm)) as Hloop.
  rewrite sum_pixel_cost in Hloop.
  2:{ apply Forall_lookup. intros idx d Hd.
      pose proof (depth_map_one_or_two _ _ _ Hd). lia. }
  2:{ rewrite length_compute_edge_depth_map. apply Hperm. }
  pose proof (np_sum_depth_map_nonneg arr) as Hsum.
  unfold extract_bits, extract_raw.
  destruct (for_each _ _ _) as [[raw_bits supplied]|bits|e]; [| |contradiction].
  - destruct Hloop as [Hinv Hsupplied]. cbn [fst snd] in Hsupplied.
    exists (decode_redundancy raw_bits). split; [reflexivity|].
    split; [apply length_decode_redundancy; exact (proj1 Hinv)|].
    intros i Hcap Hi.
    apply (decode_redundancy_zero i total_bits); [exact (proj1 Hinv) | exact Hi |].
    intros j Hj. apply (extract_inv_zero_tail _ _ _ _ Hinv).
    unfold REDUNDANCY in *. lia.
  - destruct Hloop as (raw_bits & -> & Hraw & Hfull). cbn [fst snd] in Hfull.
    exists (decode_redundancy raw_bits). split; [reflexivity|].
    split; [apply length_decode_redundancy; exact Hraw|].
    intros i Hcap Hi. unfold REDUNDANCY in *. lia.
Qed.

(** X15: an image too small for the magic.  When the depths of an image
    sum to at most 31, the last bit of the four magic bytes is read as
    padding, so [/api/extract] answers 400 whatever the key is, the empty
    key included. *)
Theorem extract_handler_small_image `{Hashlib} `{NumpyRandom} `{Crypto} `{Codecs}
    (arr : image) (key : string) :
  wf_image arr -> shuffle_permutes ->
  (np_sum (compute_edge_depth_map arr) <= 31)%Z ->
  extract_handler arr key
  = Abort (HTTPException 400 "No hidden data found or wrong key.").
Proof.
  intros Hwf Hperm Hsmall.
  destruct (extract_bits_padded arr (HEADER_LEN * 8) key Hwf Hperm)
    as (bits & Hok & Hlen & Hzero).
  specialize (Hzero 31 ltac:(lia) ltac:(unfold HEADER_LEN; lia)).
  unfold extract_handler. rewrite Hok. cbn [lift mbind response_bind].
  unfold bytes_from_bits. rewrite Hlen.
  change (HEADER_LEN * 8 mod 8 =? 0) with true.
  change (HEADER_LEN * 8 / 8) with 36.
  cbn [negb lift mbind response_bind].
  unfold unpack_header. rewrite length_packbits.
  change (36 =? HEADER_LEN) with true. cbn [mbind response_bind].
  case_bool_decide as Hmagic; [exfalso | reflexivity].
  assert (H3 : slice (packbits 36 bits) 0 4 !! 3 = Some 49%Z)
    by (rewrite Hmagic; reflexivity).
  unfold slice in H3. rewrite drop_0 in H3.
  rewrite lookup_take_lt in H3 by lia.
  rewrite packbits_lookup in H3 by lia.
  destruct (packbits8_even (drop (8 * 3) bits)) as [v Hv].
  { rewrite lookup_drop. exact Hzero. }
  rewrite Hv in H3. injection H3 as H3. lia.
Qed.

Lemma extract_handler_small_image_witness :
  @extract_handler sample_hashlib sample_rng plain_crypto plain_codecs
    (solid 4 4 0%Z) "k"
  = Abort (HTTPException 400 "No hidden data found or wrong key.").
Proof.
  apply (@extract_handler_small_image sample_hashlib sample_rng plain_crypto plain_codecs
           (solid 4 4 0%Z) "k").
  - apply wf_image_solid; unfold is_byte; lia.
  - exact sample_rng_permutes.
  - vm_compute. discriminate.
Defined.

(** ** Which pixels an embedding touches *)

Lemma In_map_take_le {A B} (f : A -> B) (y : B) (a c : nat) (l : list A) :
  a <= c -> In y (map f (take a l)) -> In y (map f (take c l)).
Proof.
  revert a c. induction l as [|x l IH]; intros a c Hac Hin.
  - rewrite take_nil in Hin. destruct Hin.
  - destruct a as [|a]; [destruct Hin|]. destruct c as [|c]; [lia|].
    cbn [take map In] in Hin |- *.
    destruct Hin as [Hin|Hin]; [left; exact Hin | right].
    apply (IH a c); [lia | exact Hin].
Qed.

(** Every visit moves the cursor on by at least one bit, so [k] bits
    that are still to go touch at most the next [k] slots. *)
Lemma embed_slots_touched (encoded_bits : list Z) (sl : list slot) :
  Forall (fun s => (0 < s.2)%Z) sl ->
  forall flat bit_idx flat_f p,
    embedded_flat (for_each sl (embed_slot encoded_bits) (flat, bit_idx)) = Some flat_f ->
    ~ In p (map slot_pos (take (length encoded_bits - bit_idx) sl)) ->
    flat_f !! p = flat !! p.
Proof.
  induction 1 as [|s sl Hs _ IH]; intros flat bit_idx flat_f p Hf Hp.
  - cbn in Hf. injection Hf as <-. reflexivity.
  - cbn [for_each] in Hf.
    destruct (Nat.le_gt_cases (length encoded_bits) bit_idx) as [Hdone|Hmore].
    { rewrite embed_slot_done in Hf by exact Hdone. cbn in Hf.
      injection Hf as <-. reflexivity. }
    destruct (flat !! slot_pos s) as [x|] eqn:Hx.
    + rewrite (embed_slot_step _ _ _ _ x Hmore Hx) in Hf.
      assert (Htake : 1 <= chunk_size (length encoded_bits) s.2 bit_idx)
        by (unfold chunk_size; lia).
      replace (length encoded_bits - bit_idx)
        with (S (length encoded_bits - bit_idx - 1)) in Hp by lia.
      cbn [take map In] in Hp.
      rewrite (IH _ _ _ p Hf).
      * apply list_lookup_insert_ne. tauto.
      * intros Hin. apply Hp. right. revert Hin. apply In_map_take_le. lia.
    + unfold embed_slot, embed_channel in Hf.
      destruct (Nat.leb_spec (length encoded_bits) bit_idx); [lia|].
      unfold channel_at in Hf. fold (slot_pos s) in Hf. rewrite Hx in Hf.
      discriminate.
Qed.

(** The slots of the first [k] pixels are the first [3k] slots. *)
Lemma take_pixel_slots (n : nat) (depth_map : list Z) (order : list nat) (k : nat) :
  length depth_map = n -> Forall (fun idx => idx < n) order ->
  take (3 * k) (flat_map (pixel_slots depth_map) order)
  = flat_map (pixel_slots depth_map) (take k order).
Proof.
  intros Hdm Horder. revert k.
  induction Horder as [|idx order Hidx _ IH]; intros k.
  - cbn [flat_map]. rewrite !take_nil. reflexivity.
  - destruct k as [|k]; [reflexivity|].
    cbn [take flat_map].
    destruct (lookup_lt_is_Some_2 depth_map idx ltac:(lia)) as [d Hd].
    unfold pixel_slots at 1 3. rewrite Hd. cbn [seq map app].
    replace (3 * S k) with (S (S (S (3 * k)))) by lia. cbn [take].
    rewrite IH. reflexivity.
Qed.

(** X16: locality.  A payload of [n] bits changes pixels among the first
    [n] of the keyed traversal only; every other pixel of the stego array
    is the pixel of the cover. *)
Theorem embed_bits_locality `{Hashlib} `{NumpyRandom} (arr : image) (bits : list Z)
    (passphrase : string) (stego : image) (idx ch : nat) :
  wf_image arr -> shuffle_permutes ->
  embed_bits arr bits passphrase = Ok stego ->
  ch < 3 ->
  ~ In idx (take (length bits) (traversal_order (height arr) (width arr) passphrase)) ->
  channel_at (pixels stego) idx ch = channel_at (pixels arr) idx ch.
Proof.
  intros (Hh & Hw & Hlen & Hbytes) Hperm Hok Hch Hout.
  set (n := height arr * width arr) in *.
  set (depth_map := compute_edge_depth_map arr) in *.
  set (order := traversal_order (height arr) (width arr) passphrase) in *.
  pose proof (traversal_order_bound (height arr) (width arr) passphrase Hperm) as Horder.
  fold n order in Horder.
  pose proof (length_compute_edge_depth_map arr) as Hdm. fold n depth_map in Hdm.
  pose proof (depth_map_one_or_two arr) as Hdepth. fold depth_map in Hdepth.
  unfold embed_bits in Hok. fold depth_map order in Hok.
  destruct (_ <? _)%Z; [discriminate|].
  rewrite (embed_loop_slots n depth_map Hdm Hdepth _ order _ Horder) in Hok.
  assert (Hflat : embedded_flat
                    (for_each (flat_map (pixel_slots depth_map) order)
                       (embed_slot (np_repeat bits REDUNDANCY)) (pixels arr, 0))
                  = Some (pixels stego)).
  { destruct (for_each _ _ _) as [[flat_f b_f]|flat_f|e]; [| |discriminate];
      injection Hok as <-; reflexivity. }
  unfold channel_at.
  apply (embed_slots_touched _ _
           ltac:(eapply List.Forall_impl;
                 [|exact (slots_in_range n depth_map Hdm Hdepth order Horder)];
                 intros s (_ & Hd & _); lia)
           _ _ _ _ Hflat).
  rewrite length_np_repeat, Nat.sub_0_r. unfold REDUNDANCY.
  rewrite (take_pixel_slots n depth_map order (length bits) Hdm Horder).
  intros Hin. apply slot_pos_pixel in Hin. apply Hout.
  rewrite Nat.div_add_l, Nat.div_small in Hin by lia.
  rewrite Nat.add_0_r in Hin. exact Hin.
Qed.

Lemma embed_bits_locality_witness :
  exists stego,
    @embed_bits sample_hashlib sample_rng (checker 4 4) [1; 0]%Z "k" = Ok stego /\
    channel_at (pixels stego) 5 0 = channel_at (pixels (checker 4 4)) 5 0.
Proof.
  destruct (@embed_bits sample_hashlib sample_rng (checker 4 4) [1; 0]%Z "k")
    as [stego|e] eqn:E; [|vm_compute in E; discriminate].
  exists stego. split; [reflexivity|].
  apply (@embed_bits_locality sample_hashlib sample_rng (checker 4 4) [1; 0]%Z "k"
           stego 5 0 (wf_image_checker 4 4 ltac:(lia) ltac:(lia)) sample_rng_permutes E);
    [lia|].
  vm_compute. intros [Hin|[Hin|[]]]; discriminate.
Defined.

(** ** Distortion *)

Lemma same_high_bits_close (x y depth : Z) :
  (0 <= depth)%Z -> Z.shiftr y depth = Z.shiftr x depth ->
  (Z.abs (y - x) < 2 ^ depth)%Z.
Proof.
  intros Hd Heq. rewrite !Z.shiftr_div_pow2 in Heq by lia.
  pose proof (Z.pow_pos_nonneg 2 depth ltac:(lia) Hd) as Hpos.
  pose proof (Z.div_mod x (2 ^ depth) ltac:(lia)) as Hx.
  pose proof (Z.div_mod y (2 ^ depth) ltac:(lia)) as Hy.
  pose proof (Z.mod_pos_bound x (2 ^ depth) Hpos) as Hrx.
  pose proof (Z.mod_pos_bound y (2 ^ depth) Hpos) as Hry.
  rewrite Heq in Hy. lia.
Qed.

(** X17: distortion.  After a successful embed of a bit stream every
    channel differs from the cover by less than [2^depth] of its pixel,
    so by at most 1 where the depth is 1 and by at most 3 anywhere. *)
Theorem embed_bits_distortion `{Hashlib} `{NumpyRandom} (arr : image) (bits : list Z)
    (passphrase : string) (stego : image) (idx ch : nat) (depth x y : Z) :
  wf_image arr -> shuffle_permutes -> Forall is_bit bits ->
  embed_bits arr bits passphrase = Ok stego ->
  ch < 3 -> compute_edge_depth_map arr !! idx = Some depth ->
  channel_at (pixels arr) idx ch = Some x ->
  channel_at (pixels stego) idx ch = Some y ->
  (Z.abs (y - x) < 2 ^ depth)%Z /\ (Z.abs (y - x) <= 3)%Z.
Proof.
  intros Hwf Hperm Hbits Hok Hch Hd Hx Hy.
  pose proof (embed_bits_cases arr bits passphrase Hwf Hperm) as Hc. cbn zeta in Hc.
  destruct (_ <? _)%Z; [unfold CapacityExceeded in Hc; congruence|].
  destruct Hc as (flat & Hflat & _ & Hframe).
  rewrite Hflat in Hok. injection Hok as <-. cbn [pixels] in Hy.
  specialize (Hframe (Forall_np_repeat _ _ _ Hbits)).
  destruct (Hframe idx ch depth x y Hch Hd Hx Hy) as [_ Hshift].
  pose proof (depth_map_one_or_two _ _ _ Hd) as H12.
  pose proof (same_high_bits_close x y depth ltac:(lia) Hshift) as Hclose.
  split; [exact Hclose|].
  destruct H12 as [-> | ->]; cbn in Hclose; lia.
Qed.

Lemma embed_bits_distortion_witness :
  exists stego y,
    @embed_bits sample_hashlib sample_rng (solid 4 4 255%Z) [0; 1]%Z "k" = Ok stego /\
    channel_at (pixels stego) 0 0 = Some y /\ (Z.abs (y - 255) <= 3)%Z.
Proof.
  assert (Hwf : wf_image (solid 4 4 255%Z))
    by (apply wf_image_solid; unfold is_byte; lia).
  assert (Hbits : Forall is_bit [0; 1]%Z) by (repeat constructor; unfold is_bit; lia).
  destruct (@embed_bits sample_hashlib sample_rng (solid 4 4 255%Z) [0; 1]%Z "k")
    as [stego|e] eqn:E; [|vm_compute in E; discriminate].
  destruct (channel_at (pixels stego) 0 0) as [y|] eqn:Hy.
  - exists stego, y. split; [reflexivity|]. split; [exact Hy|].
    exact (proj2 (@embed_bits_distortion sample_hashlib sample_rng (solid 4 4 255%Z)
                    [0; 1]%Z "k" stego 0 0 1%Z 255%Z y Hwf sample_rng_permutes Hbits E
                    ltac:(lia) eq_refl eq_refl Hy)).
  - exfalso. vm_compute in E. injection E as <-. vm_compute in Hy. discriminate.
Defined.

(** ** The fidelity report *)

Lemma np_sum_squares (a b : list Z) :
  length a = length b ->
  (0 <= np_sum (zip_with (fun o s => ((o - s) * (o - s))%Z) a b))%Z /\
  (np_sum (zip_with (fun o s => ((o - s) * (o - s))%Z) a b) = 0%Z <-> a = b).
Proof.
  set (sq := fun o s => ((o - s) * (o - s))%Z).
  revert b. induction a as [|x a IH]; intros [|y b] Hlen; try discriminate.
  - cbn. split; [lia | tauto].
  - injection Hlen as Hlen. destruct (IH b Hlen) as [Hpos Hiff].
    change (np_sum (zip_with sq (x :: a) (y :: b)))
      with ((x - y) * (x - y) + np_sum (zip_with sq a b))%Z.
    pose proof (Z.square_nonneg (x - y)) as Hsq.
    split; [lia|]. split.
    + intros Hsum. assert (Hz : ((x - y) * (x - y) = 0)%Z) by lia.
      apply Z.mul_eq_0 in Hz. assert (x = y) by lia. subst y.
      f_equal. apply Hiff. lia.
    + intros [= -> ->]. apply proj2 in Hiff. specialize (Hiff eq_refl).
      rewrite Z.sub_diag. lia.
Qed.

Lemma mean_zero (s : Z) (n : nat) :
  0 < n -> Qeq_bool (inject_Z s / inject_Z (Z.of_nat n)) 0 = true <-> s = 0%Z.
Proof.
  intros Hn. rewrite Qeq_bool_iff.
  destruct n as [|n]; [lia|]. rewrite Nat2Z.inj_succ, <- Zpos_P_of_succ_nat.
  unfold Qeq, Qdiv, Qmult, Qinv, inject_Z. cbn. lia.
Qed.

(** X18: an infinite PSNR.  For a cover and a stego array of the same
    size the reported PSNR is infinite exactly when the two arrays are
    identical. *)
Theorem psnr_inf_iff_identical (original stego : image) (used_bits : nat) :
  wf_image original -> length (pixels stego) = length (pixels original) ->
  psnr (compute_metrics original stego used_bits) = PsnrInf <->
  pixels stego = pixels original.
Proof.
  intros (Hh & Hw & Hlen & _) Hsame.
  cbn [compute_metrics psnr]. unfold mean_square_diff.
  pose proof (np_sum_squares (pixels original) (pixels stego) (eq_sym Hsame))
    as [_ Hiff].
  set (sq := zip_with (fun o s => ((o - s) * (o - s))%Z) (pixels original) (pixels stego))
    in *.
  assert (Hn : 0 < length sq).
  { subst sq. rewrite length_zip_with, Hsame, Hlen. nia. }
  pose proof (mean_zero (np_sum sq) (length sq) Hn) as Hmean.
  destruct (Qeq_bool _ _).
  - split; [intros _ | reflexivity]. symmetry. apply Hiff, Hmean. reflexivity.
  - split; [discriminate|]. intros Heq.
    assert (false = true) by (apply Hmean, Hiff; symmetry; exact Heq). discriminate.
Qed.

Lemma psnr_inf_iff_identical_witness :
  psnr (compute_metrics (solid 2 2 7%Z) (solid 2 2 7%Z) 0) = PsnrInf.
Proof.
  apply (psnr_inf_iff_identical (solid 2 2 7%Z) (solid 2 2 7%Z) 0).
  - apply wf_image_solid; unfold is_byte; lia.
  - reflexivity.
  - reflexivity.
Defined.

(** ** The scorer on two pixels *)

(** X19: two pixels.  The guard [len(lsb) > 1] of [detect_steg] lets an
    image of exactly two pixels through to [np.corrcoef], which has one
    pair per channel to work on: the score is NaN and the label is
    "Likely clean image". *)
Theorem detect_steg_two_pixels (arr : image) :
  height arr * width arr = 2 ->
  detect_steg arr = (NaN, "Likely clean image"%string).
Proof.
  intros Hn. unfold detect_steg. cbn [seq map].
  assert (Hcorr : forall i, lsb_corr (lsb_plane arr i) = NaN).
  { intros i. unfold lsb_plane. rewrite Hn. cbn [seq map].
    apply lsb_corr_two_samples. }
  rewrite !Hcorr.
  rewrite (fmean_NaN [fabs NaN; fabs NaN; fabs NaN]) by (cbn; tauto).
  change (fsub (Finite 1) NaN) with NaN.
  rewrite fmul_NaN_r, fadd_NaN_r. reflexivity.
Qed.

Lemma detect_steg_two_pixels_witness :
  detect_steg (solid 1 2 0%Z) = (NaN, "Likely clean image"%string).
Proof. exact (detect_steg_two_pixels (solid 1 2 0%Z) eq_refl). Defined.

(** ** The capacity of a request *)

(** X20: the frame and the capacity.  [/api/embed] hides a frame of 36
    header bytes and the ciphertext.  It ends with "Payload too large for
    this image." exactly when the eight bits of every frame byte
    outnumber the sum of the depths; otherwise it answers, reports the
    frame length as [used_bytes], and that length is within the reported
    [capacity_bytes]. *)
Theorem embed_handler_capacity `{Hashlib} `{NumpyRandom} `{Crypto} `{Compressor}
    (arr : image) (key : string) (data : list Z) (filename : string)
    (salt nonce inner ciphertext : list Z) :
  wf_image arr -> shuffle_permutes ->
  build_inner_payload data filename = Done inner ->
  encrypt_payload inner key salt nonce = Ok (ciphertext, salt, nonce) ->
  (Z.of_nat (length ciphertext) < 2 ^ 32)%Z ->
  let frame_bytes := HEADER_LEN + length ciphertext in
  if (np_sum (compute_edge_depth_map arr) <? Z.of_nat (8 * frame_bytes))%Z
  then embed_handler arr key data filename salt nonce
       = Abort (Exception CapacityExceeded)
  else exists stego metrics,
      embed_handler arr key data filename salt nonce = Done (stego, metrics) /\
      used_bytes metrics = frame_bytes /\
      frame_bytes <= capacity_bytes metrics.
Proof.
  intros Hwf Hperm Hbuild Henc Hfit frame_bytes.
  unfold embed_handler. rewrite Hbuild. cbn [mbind response_bind].
  rewrite Henc. cbn [lift mbind response_bind].
  unfold pack_header, pack_uint. change (256 ^ Z.of_nat 4)%Z with (2 ^ 32)%Z.
  destruct (Z.leb_spec 0 (Z.of_nat (length ciphertext))); [|lia].
  destruct (Z.ltb_spec (Z.of_nat (length ciphertext)) (2 ^ 32)); [|lia].
  cbn [andb mbind response_bind mret response_ret].
  set (header := pack_bytes 4 MAGIC ++ int_to_bytes_big 4 (Z.of_nat (length ciphertext))
                   ++ pack_bytes 16 salt ++ pack_bytes 12 nonce).
  assert (Hheader : length header = HEADER_LEN).
  { subst header. rewrite !length_app, !length_pack_bytes, length_int_to_bytes_big.
    reflexivity. }
  assert (Hbits : length (bits_from_bytes (header ++ ciphertext)) = 8 * frame_bytes).
  { rewrite length_bits_from_bytes, length_app, Hheader. reflexivity. }
  pose proof (embed_bits_cases arr (bits_from_bytes (header ++ ciphertext)) key Hwf Hperm)
    as Hc.
  cbn zeta in Hc. rewrite length_np_repeat, Hbits in Hc. unfold REDUNDANCY in Hc.
  pose proof (np_sum_depth_map_nonneg arr) as Hsum.
  unfold embed.
  destruct (Z.ltb_spec (np_sum (compute_edge_depth_map arr) * 3)
              (Z.of_nat (3 * (8 * frame_bytes)))) as [Hbig|Hok];
    destruct (Z.ltb_spec (np_sum (compute_edge_depth_map arr))
                (Z.of_nat (8 * frame_bytes))) as [Hbig'|Hok']; try lia.
  - rewrite Hc. reflexivity.
  - destruct Hc as (flat & -> & _). cbn [mbind result_bind mret result_ret lift].
    eexists _, _. split; [reflexivity|].
    cbn [compute_metrics used_bytes capacity_bytes]. rewrite Hbits. unfold REDUNDANCY.
    split; [rewrite Nat.mul_comm; apply Nat.div_mul; lia|].
    rewrite Z2Nat.inj_mul, Nat.div_mul by lia.
    apply Nat.div_le_lower_bound; lia.
Qed.

Lemma embed_handler_capacity_witness :
  @embed_handler sample_hashlib sample_rng plain_crypto plain_compressor
    (checker 4 4) "k" [104; 105]%Z "a.txt" (replicate 16 7%Z) (replicate 12 9%Z)
  = Abort (Exception CapacityExceeded).
Proof.
  destruct (@build_inner_payload sample_hashlib plain_compressor [104; 105]%Z "a.txt")
    as [inner|e] eqn:Hbuild; [|vm_compute in Hbuild; discriminate].
  assert (Hlen : length inner = 41)
    by (vm_compute in Hbuild; injection Hbuild as <-; reflexivity).
  pose proof (@embed_handler_capacity sample_hashlib sample_rng plain_crypto
                plain_compressor (checker 4 4) "k" [104; 105]%Z "a.txt"
                (replicate 16 7%Z) (replicate 12 9%Z) inner inner
                (wf_image_checker 4 4 ltac:(lia) ltac:(lia)) sample_rng_permutes
                Hbuild eq_refl ltac:(rewrite Hlen; lia)) as Hcap.
  cbv zeta in Hcap. rewrite Hlen in Hcap.
  destruct (Z.ltb_spec
              (np_sum (compute_edge_depth_map (checker 4 4)))
              (Z.of_nat (8 * (HEADER_LEN + 41)))) as [_|Hge]; [exact Hcap|].
  exfalso. vm_compute in Hge. apply Hge. reflexivity.
Defined.

(** ** The depth threshold in integers *)

Lemma fold_left_max_ge (a : list Z) (acc : Z) :
  (acc <= fold_left Z.max a acc)%Z /\
  forall x, In x a -> (x <= fold_left Z.max a acc)%Z.
Proof.
  revert acc. induction a as [|y a IH]; intros acc; cbn [fold_left].
  - split; [lia | intros x []].
  - destruct (IH (Z.max acc y)) as [Hacc Hin]. split; [lia|].
    intros x [<-|Hx]; [lia | apply Hin, Hx].
Qed.

Lemma np_max_ge (a : list Z) (x : Z) : In x a -> (x <= np_max a)%Z.
Proof.
  destruct a as [|y a]; [intros []|]. cbn [np_max].
  destruct (fold_left_max_ge a y) as [Hy Hin].
  intros [<-|Hx]; [exact Hy | apply Hin, Hx].
Qed.

(** X21: the threshold.  On the integer Laplacian the test [norm > 0.25]
    is a comparison of integers: a pixel gets depth 2 exactly when four
    times its magnitude exceeds the largest magnitude of the image, and
    depth 1 otherwise. *)
Theorem depth_map_threshold (arr : image) (idx : nat) (depth : Z) :
  compute_edge_depth_map arr !! idx = Some depth ->
  let mag := map Z.abs (Laplacian (height arr) (width arr)
                          (cvtColor_RGB2GRAY (pixels arr))) in
  exists m, mag !! idx = Some m /\ (0 <= m <= np_max mag)%Z /\
            (depth = 2%Z <-> (np_max mag < 4 * m)%Z) /\
            (depth = 1%Z <-> (4 * m <= np_max mag)%Z).
Proof.
  intros Hd mag.
  unfold compute_edge_depth_map, edge_norm in Hd. fold mag in Hd.
  change (map ?f ?l) with (f <$> l) in Hd. rewrite !list_lookup_fmap in Hd.
  change (Z.abs <$> ?l) with (map Z.abs l) in Hd. fold mag in Hd.
  destruct (mag !! idx) as [m|] eqn:Hm; [|discriminate].
  cbn [fmap option_fmap option_map] in Hd. injection Hd as <-.
  assert (Hlen : (length mag =? 0) = false).
  { apply Nat.eqb_neq. apply lookup_lt_Some in Hm. lia. }
  rewrite Hlen.
  assert (Hin : In m mag).
  { apply list_elem_of_In. eapply list_elem_of_lookup_2, Hm. }
  assert (Hm0 : (0 <= m)%Z).
  { subst mag. apply in_map_iff in Hin as (e & <- & _). lia. }
  pose proof (np_max_ge mag m Hin) as Hmax.
  exists m. split; [reflexivity|]. split; [lia|].
  pose proof (norm_gt_quarter (np_max mag) m ltac:(lia)) as Hq.
  destruct (depth_of_norm_cases (norm_of (np_max mag) m)) as [[-> Hlt]|[-> Hle]].
  - apply Hq in Hlt. split; split; intros; (reflexivity || lia || discriminate).
  - assert (Hnot : ~ (np_max mag < 4 * m)%Z).
    { intros Hlt. apply Hq in Hlt. exact (Qlt_not_le _ _ Hlt Hle). }
    split; split; intros; (reflexivity || lia || discriminate).
Qed.

Lemma depth_map_threshold_witness :
  exists m,
    map Z.abs (Laplacian 4 4 (cvtColor_RGB2GRAY (pixels (checker 4 4)))) !! 0 = Some m /\
    (0 <= m)%Z.
Proof.
  assert (Hd : compute_edge_depth_map (checker 4 4) !! 0 = Some 2%Z)
    by (vm_compute; reflexivity).
  destruct (depth_map_threshold (checker 4 4) 0 2%Z Hd) as (m & Hm & Hrange & _).
  exists m. split; [exact Hm | lia].
Defined.

(** ** A flat cover *)

Lemma cvtColor_replicate (n : nat) (v : Z) :
  cvtColor_RGB2GRAY (replicate (n * 3) v) = replicate n (gray_of_rgb v v v).
Proof.
  induction n as [|n IH]; [reflexivity|].
  change (S n * 3) with (S (S (S (n * 3)))).
  cbn [replicate cvtColor_RGB2GRAY]. rewrite IH. reflexivity.
Qed.

Lemma reflect_101_lt (len : nat) (p : Z) :
  0 < len -> (-1 <= p <= Z.of_nat len)%Z -> reflect_101 len p < len.
Proof.
  intros Hlen Hp. unfold reflect_101.
  destruct (Nat.eqb_spec len 1) as [->|Hne]; [lia|].
  destruct (Z.ltb_spec p 0); [lia|].
  destruct (Z.leb_spec (Z.of_nat len) p); lia.
Qed.

Lemma gray_at_replicate (h w : nat) (g y x : Z) :
  0 < h -> 0 < w -> (-1 <= y <= Z.of_nat h)%Z -> (-1 <= x <= Z.of_nat w)%Z ->
  gray_at h w (replicate (h * w) g) y x = g.
Proof.
  intros Hh Hw Hy Hx. unfold gray_at.
  pose proof (reflect_101_lt h y Hh Hy). pose proof (reflect_101_lt w x Hw Hx).
  apply nth_lookup_Some. apply lookup_replicate_2. nia.
Qed.

Lemma map_seq_const {A} (f : nat -> A) (c : A) (n : nat) :
  (forall i, i < n -> f i = c) -> map f (seq 0 n) = replicate n c.
Proof.
  intros Hf. apply list_eq. intros k.
  change (map f ?l) with (f <$> l). rewrite list_lookup_fmap.
  destruct (Nat.lt_ge_cases k n) as [Hk|Hk].
  - rewrite lookup_seq_lt by exact Hk. cbn [fmap option_fmap option_map].
    rewrite lookup_replicate_2 by exact Hk. f_equal. apply Hf, Hk.
  - rewrite lookup_seq_ge by exact Hk. symmetry. apply lookup_replicate_None. lia.
Qed.

Lemma Laplacian_replicate (h w : nat) (g : Z) :
  Laplacian h w (replicate (h * w) g) = replicate (h * w) 0%Z.
Proof.
  unfold Laplacian. apply map_seq_const. intros i Hi.
  assert (Hh : 0 < h) by nia. assert (Hw : 0 < w) by nia.
  assert (Hy : i / w < h) by (apply Nat.Div0.div_lt_upper_bound; lia).
  pose proof (Nat.mod_upper_bound i w ltac:(lia)) as Hx.
  cbv zeta. rewrite !gray_at_replicate by lia. lia.
Qed.

Lemma np_max_zeros (n : nat) : np_max (replicate n 0%Z) = 0%Z.
Proof.
  destruct n as [|n]; [reflexivity|]. cbn [replicate np_max].
  induction n as [|n IH]; [reflexivity|]. cbn [replicate fold_left]. exact IH.
Qed.

Lemma np_sum_ones (n : nat) : np_sum (replicate n 1%Z) = Z.of_nat n.
Proof.
  induction n as [|n IH]; [reflexivity|].
  cbn [replicate np_sum foldr]. fold (np_sum (replicate n 1%Z)). lia.
Qed.

(** X22: a flat cover.  A uniform image has no edges: every Laplacian is
    0, the guard [1e-6] keeps the quotient at 0, every depth is 1, and
    the reported capacity is one bit per pixel, [h * w / 8] bytes. *)
Theorem depth_map_flat_cover (h w : nat) (v : Z) :
  compute_edge_depth_map (solid h w v) = replicate (h * w) 1%Z /\
  forall stego used_bits,
    capacity_bytes (compute_metrics (solid h w v) stego used_bits) = h * w / 8.
Proof.
  assert (Hmap : compute_edge_depth_map (solid h w v) = replicate (h * w) 1%Z).
  { unfold compute_edge_depth_map, edge_norm, solid. cbn [height width pixels].
    rewrite cvtColor_replicate, Laplacian_replicate.
    rewrite !map_replicate, length_replicate, np_max_zeros.
    replace (if h * w =? 0 then 0%Z else 0%Z) with 0%Z by (destruct (h * w =? 0); reflexivity).
    reflexivity. }
  split; [exact Hmap|].
  intros stego used_bits. cbn [compute_metrics capacity_bytes]. rewrite Hmap, np_sum_ones.
  unfold REDUNDANCY. rewrite Z2Nat.inj_mul, Nat2Z.id by lia.
  change (Z.to_nat 3) with 3. rewrite Nat.div_mul by lia. reflexivity.
Qed.
